(** * PADS: the SVG emitter (SVG.py) and [arbitrary_item] (Util.py)

    A shallow embedding of the Python sources.  Python [float]s are IEEE 754
    binary64 values ([spec_float] with [prec = 53], [emax = 1024]), points
    are Python [complex] numbers (a pair of floats), the output stream is the
    text written so far, dictionaries are insertion-ordered association
    lists living in a heap of objects (so that the shared default [style={}]
    argument is one object), and exceptions are values of type [exn].  The
    float power [**] calls the C library's [pow], which is a parameter of
    the development from [fpow2] on. *)

From Stdlib Require Import ZArith QArith Qabs Lia List Bool Ascii String.
From Stdlib Require Import Floats.SpecFloat.
From Stdlib Require Import DecimalString DecimalN.
From Stdlib Require Import Permutation Sorted Arith.
Import ListNotations.

Local Open Scope string_scope.
Local Open Scope Z_scope.

(** ** Exceptions and results *)

Inductive exn : Type :=
| StopIteration
| IndexError (msg : string)
| ZeroDivisionError (msg : string)
| OverflowError (msg : string)
| TypeError
| Exception (msg : string).

Definition result (A : Type) : Type := (exn + A)%type.

Definition ok {A : Type} (a : A) : result A := inr a.
Definition raise {A : Type} (e : exn) : result A := inl e.

Definition bind {A B : Type} (c : result A) (k : A -> result B) : result B :=
  match c with
  | inl e => inl e
  | inr a => k a
  end.

Declare Scope py_scope.
Delimit Scope py_scope with py.
Notation "x <- c ;; k" := (bind c (fun x => k))
  (at level 61, c at next level, right associativity) : py_scope.
Notation "' pat <- c ;; k" := (bind c (fun x => match x with pat => k end))
  (at level 61, pat pattern, c at next level, right associativity) : py_scope.
Local Open Scope py_scope.

(** ** Strings *)

Definition dquote : string := String "034"%char EmptyString.
Definition newline : string := String "010"%char EmptyString.

Fixpoint mem_char (c : ascii) (chars : string) : bool :=
  match chars with
  | EmptyString => false
  | String a r => Ascii.eqb a c || mem_char c r
  end.

(** [s.rstrip(chars)]: drop the longest suffix made of characters of
    [chars]. *)
Fixpoint rstrip (chars : string) (s : string) : string :=
  match s with
  | EmptyString => EmptyString
  | String a r =>
      match rstrip chars r with
      | EmptyString => if mem_char a chars then EmptyString else String a EmptyString
      | r' => String a r'
      end
  end.

(** [sep.join(l)] *)
Definition join (sep : string) (l : list string) : string := String.concat sep l.

(** [" " * n]: the empty string when [n] is not positive. *)
Definition spaces (n : Z) : string :=
  String.concat "" (repeat " " (Z.to_nat n)).

Fixpoint last_char (s : string) : option ascii :=
  match s with
  | EmptyString => None
  | String a EmptyString => Some a
  | String _ r => last_char r
  end.

(** ** Util.py: [merge] *)

(** An entry of the heap of [merge]: the tuple of an item and the iterator
    it came from, the iterator being given by the items it still has.  The
    streams are finite, their items are integers, and the iterators of a
    merge are distinct objects. *)
Definition entry : Type := (Z * list Z)%type.

Definition no_entry : entry := (0, []).

(** [a < b] on two such tuples: the items decide; on equal items the
    iterators are compared, which do not support it. *)
Definition entry_lt (a b : entry) : result bool :=
  if fst a =? fst b then raise TypeError else ok (fst a <? fst b).

(** [l[i] = x] *)
Fixpoint list_set {A : Type} (l : list A) (i : nat) (x : A) : list A :=
  match l, i with
  | [], _ => []
  | _ :: r, O => x :: r
  | y :: r, S i' => y :: list_set r i' x
  end.

(** The standard library's heap queue on a list, [heapq]: the loop of
    [_siftdown], which moves [newitem] from [pos] towards [startpos] while
    it is smaller than its parent. *)
Fixpoint siftdown_loop (fuel : nat) (heap : list entry) (startpos pos : nat)
    (newitem : entry) : result (list entry) :=
  match fuel with
  | O => ok (list_set heap pos newitem)
  | S fuel' =>
      if (startpos <? pos)%nat then
        let parentpos := ((pos - 1) / 2)%nat in
        let parent := nth parentpos heap no_entry in
        lt <- entry_lt newitem parent ;;
        if lt then
          siftdown_loop fuel' (list_set heap pos parent) startpos parentpos newitem
        else ok (list_set heap pos newitem)
      else ok (list_set heap pos newitem)
  end.

Definition _siftdown (heap : list entry) (startpos pos : nat)
  : result (list entry) :=
  siftdown_loop pos heap startpos pos (nth pos heap no_entry).

(** The loop of [_siftup], which moves the smaller child up until the
    place at [pos] is a leaf; it returns the list and that leaf. *)
Fixpoint siftup_loop (fuel : nat) (heap : list entry) (endpos pos : nat)
  : result (list entry * nat) :=
  match fuel with
  | O => ok (heap, pos)
  | S fuel' =>
      let childpos := (2 * pos + 1)%nat in
      if (childpos <? endpos)%nat then
        let rightpos := (childpos + 1)%nat in
        childpos <-
          (if (rightpos <? endpos)%nat then
             lt <- entry_lt (nth childpos heap no_entry)
                            (nth rightpos heap no_entry) ;;
             ok (if lt then childpos else rightpos)
           else ok childpos) ;;
        siftup_loop fuel' (list_set heap pos (nth childpos heap no_entry))
          endpos childpos
      else ok (heap, pos)
  end.

Definition _siftup (heap : list entry) (pos : nat) : result (list entry) :=
  let endpos := List.length heap in
  let newitem := nth pos heap no_entry in
  '(heap, leaf) <- siftup_loop endpos heap endpos pos ;;
  _siftdown (list_set heap leaf newitem) pos leaf.

(** [heapq.heappush(heap, item)] *)
Definition heappush (heap : list entry) (item : entry) : result (list entry) :=
  _siftdown (heap ++ [item])%list 0 (List.length heap).

(** [heapq.heappop(heap)]: the smallest entry and the heap without it. *)
Definition heappop (heap : list entry) : result (entry * list entry) :=
  match heap with
  | [] => raise (IndexError "pop from empty list")
  | _ =>
      let lastelt := last heap no_entry in
      match removelast heap with
      | [] => ok (lastelt, [])
      | returnitem :: rest =>
          heap <- _siftup (lastelt :: rest) 0 ;;
          ok (returnitem, heap)
      end
  end.

(** [heads.sort()].  Whatever comparisons the interpreter's sort makes, a
    sort by comparisons ends with the entries in order when no two of them
    have the same item, and with the [TypeError] of the first comparison of
    two that have. *)
Fixpoint insert_entry (x : entry) (l : list entry) : result (list entry) :=
  match l with
  | [] => ok [x]
  | y :: r =>
      lt <- entry_lt x y ;;
      if lt then ok (x :: y :: r)
      else r' <- insert_entry x r ;; ok (y :: r')
  end.

Fixpoint py_sort (l : list entry) : result (list entry) :=
  match l with
  | [] => ok []
  | x :: r => r' <- py_sort r ;; insert_entry x r'
  end.

(** How a generator ends: it is exhausted, an exception leaves it, or,
    for a [StopIteration] raised inside its body, a [RuntimeError].
    [OutOfFuel] is no outcome of the program: the loop below is given
    enough steps for all the items. *)
Inductive gen_end : Type :=
| GenDone
| GenRaise (e : exn)
| GenRuntimeError (msg : string)
| OutOfFuel.

(** [try: x = next(s); heapq.heappush(heads, (x, s)) except StopIteration:
    pass] *)
Definition pushstream (heads : list entry) (s : list Z) : result (list entry) :=
  match s with
  | [] => ok heads
  | x :: rest => heappush heads (x, rest)
  end.

(** The loop [while heads: ...] of both versions of [merge]: the items it
    yields and how it ends. *)
Fixpoint merge_loop (fuel : nat) (heads : list entry) : list Z * gen_end :=
  match heads with
  | [] => ([], GenDone)
  | _ =>
      match fuel with
      | O => ([], OutOfFuel)
      | S fuel' =>
          match heappop heads with
          | inl e => ([], GenRaise e)
          | inr ((x, s), heads) =>
              match pushstream heads s with
              | inl e => ([x], GenRaise e)
              | inr heads =>
                  let '(ys, fin) := merge_loop fuel' heads in (x :: ys, fin)
              end
          end
      end
  end.

(** The number of items the entries of the heap stand for. *)
Definition items_left (heads : list entry) : nat :=
  List.length (flat_map (fun e => fst e :: snd e) heads).

Fixpoint push_all (heads : list entry) (streams : list (list Z))
  : result (list entry) :=
  match streams with
  | [] => ok heads
  | s :: rest => heads <- pushstream heads s ;; push_all heads rest
  end.

(** PADS/Util.py: merge given streams (iterables, each given by its items
    in iteration order) in sorted order. *)
Module PADS_Util_py.

Definition merge (streams : list (list Z)) : list Z * gen_end :=
  match push_all [] streams with
  | inl e => ([], GenRaise e)
  | inr heads => merge_loop (items_left heads) heads
  end.

End PADS_Util_py.

(** [[(next(s), s) for s in streams]]; [None] when a [next] raises
    [StopIteration]. *)
Fixpoint first_heads (streams : list (list Z)) : option (list entry) :=
  match streams with
  | [] => Some []
  | [] :: _ => None
  | (x :: s) :: rest =>
      match first_heads rest with
      | Some heads => Some ((x, s) :: heads)
      | None => None
      end
  end.

(** Util.py: merge given streams (iterators, each given by the items it
    still has) in numerical order. *)
Module Util_py.

Definition merge (streams : list (list Z)) : list Z * gen_end :=
  match first_heads streams with
  | None => ([], GenRuntimeError "generator raised StopIteration")
  | Some heads =>
      match py_sort heads with
      | inl e => ([], GenRaise e)
      | inr heads => merge_loop (items_left heads) heads
      end
  end.

End Util_py.


(** The heap invariant of [heapq] for entries with distinct items: every
    entry is above its parent. *)
Definition heap_ok (h : list entry) : Prop :=
  forall i, (0 < i < List.length h)%nat ->
    fst (nth ((i - 1) / 2) h no_entry) < fst (nth i h no_entry).

(** The invariant away from a hole at [pos]: what is at [pos] does not
    count, and the children of [pos] are above its parent. *)
Definition hole_ok (h : list entry) (pos : nat) : Prop :=
  (forall i, (0 < i < List.length h)%nat -> i <> pos -> ((i - 1) / 2 <> pos)%nat ->
     fst (nth ((i - 1) / 2) h no_entry) < fst (nth i h no_entry))
  /\ ((0 < pos)%nat ->
      forall c, (0 < c < List.length h)%nat -> ((c - 1) / 2 = pos)%nat ->
        fst (nth ((pos - 1) / 2) h no_entry) < fst (nth c h no_entry)).

(** [x] is below the children of [pos]. *)
Definition below_children (h : list entry) (pos : nat) (x : entry) : Prop :=
  forall c, (0 < c < List.length h)%nat -> ((c - 1) / 2 = pos)%nat ->
    fst x < fst (nth c h no_entry).

(** The items the entries of the heap stand for: of each entry its item
    and then the items its iterator still has. *)
Definition items_of (heads : list entry) : list Z :=
  flat_map (fun e => fst e :: snd e) heads.

(** The item of an entry and the items its iterator still has are in
    increasing order. *)
Definition sorted_entry (e : entry) : Prop :=
  StronglySorted Z.lt (fst e :: snd e).

(** The heap with the entry of a stream, if the stream has an item. *)
Definition with_stream (heads : list entry) (s : list Z) : list entry :=
  match s with
  | [] => heads
  | x :: rest => (x, rest) :: heads
  end.

Definition key_lt (a b : entry) : Prop := fst a < fst b.

Definition nonempty (s : list Z) : bool :=
  match s with
  | [] => false
  | _ :: _ => true
  end.

(** A result that is a value with the given property, unless it is the
    [TypeError] of a comparison. *)
Definition value_or_TypeError {A : Type} (r : result A) (P : A -> Prop) : Prop :=
  r = raise TypeError \/ exists a, r = ok a /\ P a.

(** ** Floats *)

Definition float : Type := spec_float.

Definition prec : Z := 53.
Definition emax : Z := 1024.

Definition fadd : float -> float -> float := SFadd prec emax.
Definition fsub : float -> float -> float := SFsub prec emax.
Definition fmul : float -> float -> float := SFmul prec emax.
Definition fabs : float -> float := SFabs.
Definition fltb : float -> float -> bool := SFltb.

(** The float an integer constant of the source is converted to. *)
Definition float_of_Z (n : Z) : float := binary_normalize prec emax n 0 false.

Definition is_zero (x : float) : bool :=
  match x with S754_zero _ => true | _ => false end.

Definition is_nan (x : float) : bool :=
  match x with S754_nan => true | _ => false end.

Definition is_inf (x : float) : bool :=
  match x with S754_infinity _ => true | _ => false end.

(** A float that denotes a real number. *)
Definition is_real (x : float) : bool :=
  match x with
  | S754_zero _ | S754_finite _ _ _ => true
  | _ => false
  end.

(** [x / y] on floats raises on a zero divisor. *)
Definition fdiv (x y : float) : result float :=
  if is_zero y then raise (ZeroDivisionError "float division by zero")
  else ok (SFdiv prec emax x y).

(** ** The C library *)

Section Libm.

(** [pow(x, 2.0)] of the C library for a finite [x > 0] other than [1]:
    the value it returns and whether it leaves [errno], cleared before the
    call, at [ERANGE] (for such an [x] the function has no domain error).
    The library is not held to round correctly, and the common ones do not
    (under glibc [pow(98138573.0, 2.0)] is not the correctly rounded
    square, which [x * x] is), so it is a parameter of all that uses
    [**]. *)
Variable libm_pow2 : float -> float * bool.

(** [x ** 2] on a float ([float_pow] with exponent 2): nan, the
    infinities, zero and a base of magnitude 1 are answered directly;
    otherwise the C library computes [pow(|x|, 2.0)], and a range error,
    which an infinite result is taken for and a zero result is not, is
    reported as [OverflowError]. *)
Definition fpow2 (x : float) : result float :=
  match x with
  | S754_nan => ok S754_nan
  | S754_infinity _ => ok (S754_infinity false)
  | S754_zero _ => ok (S754_zero false)
  | S754_finite _ _ _ =>
      let iv := fabs x in
      if SFeqb iv (float_of_Z 1) then ok (float_of_Z 1)
      else
        let '(ix, erange) := libm_pow2 iv in
        let erange := if erange then negb (is_zero ix) else is_inf ix in
        if erange then raise (OverflowError "(34, 'Numerical result out of range')")
        else ok ix
  end.

(** [min(a, b)]: the first argument unless the second is smaller. *)
Definition py_min (a b : float) : float := if fltb b a then b else a.

(** The real number a float denotes (0 for nan and the infinities, which
    denote none). *)
Definition float_value (x : float) : Q :=
  match x with
  | S754_finite s m e =>
      let n := if s then Z.neg m else Z.pos m in
      if 0 <=? e then (n * 2 ^ e) # 1 else n # (Z.to_pos (2 ^ (- e)))
  | _ => 0%Q
  end.

(** ** Coordinate formatting *)

Definition digit_char (d : Z) : ascii := ascii_of_nat (48 + Z.to_nat d).

(** The decimal digits of a natural number, without leading zeros. *)
Definition str_of_nat (n : Z) : string :=
  NilZero.string_of_uint (N.to_uint (Z.to_N n)).

(** The value of [m * 2^e], scaled by [10^4] and rounded to the nearest
    integer, ties to even. *)
Definition round_scaled (m : positive) (e : Z) : Z :=
  let num := Z.pos m * 10000 in
  if 0 <=? e then num * 2 ^ e
  else
    let den := 2 ^ (- e) in
    let q := num / den in
    let r := num mod den in
    match 2 * r ?= den with
    | Lt => q
    | Eq => if Z.even q then q else q + 1
    | Gt => q + 1
    end.

(** [n / 10^4] printed with exactly four fractional digits. *)
Definition fixed4 (n : Z) : string :=
  let f := n mod 10000 in
  str_of_nat (n / 10000) ++ "."
    ++ String (digit_char (f / 1000))
         (String (digit_char (f / 100 mod 10))
            (String (digit_char (f / 10 mod 10))
               (String (digit_char (f mod 10)) EmptyString))).

Definition sign_str (s : bool) : string := if s then "-" else "".

(** ["%.4f" % x] *)
Definition format_4f (x : float) : string :=
  match x with
  | S754_nan => "nan"
  | S754_infinity s => sign_str s ++ "inf"
  | S754_zero s => sign_str s ++ fixed4 0
  | S754_finite s m e => sign_str s ++ fixed4 (round_scaled m e)
  end.

(** String representation for coordinate *)
Definition _coord (x : float) : string :=
  rstrip "." (rstrip "0" (format_4f x)).

(** The float nearest to [n / d], as a decimal literal denotes it. *)
Definition float_of_ratio (n d : Z) : float :=
  SFdiv prec emax (float_of_Z n) (float_of_Z d).

(** ** Complex numbers *)

Record complex : Type := Complex { real : float; imag : float }.

(** Conversion of a real operand of a mixed operation. *)
Definition complex_of_float (x : float) : complex := Complex x (S754_zero false).
Definition complex_of_int (n : Z) : complex := complex_of_float (float_of_Z n).

Definition c_add (a b : complex) : complex :=
  Complex (fadd (real a) (real b)) (fadd (imag a) (imag b)).

Definition c_sub (a b : complex) : complex :=
  Complex (fsub (real a) (real b)) (fsub (imag a) (imag b)).

Definition c_prod (a b : complex) : complex :=
  Complex (fsub (fmul (real a) (real b)) (fmul (imag a) (imag b)))
          (fadd (fmul (real a) (imag b)) (fmul (imag a) (real b))).

(** Complex division (the interpreter's scaled algorithm); both
    components of the divisor zero is a [ZeroDivisionError]. *)
Definition c_quot (a b : complex) : result complex :=
  let fdiv' := SFdiv prec emax in
  let abs_breal := if fltb (real b) (S754_zero false) then SFopp (real b) else real b in
  let abs_bimag := if fltb (imag b) (S754_zero false) then SFopp (imag b) else imag b in
  if SFleb abs_bimag abs_breal then
    if SFeqb abs_breal (S754_zero false) then
      raise (ZeroDivisionError "complex division by zero")
    else
      let ratio := fdiv' (imag b) (real b) in
      let denom := fadd (real b) (fmul (imag b) ratio) in
      ok (Complex (fdiv' (fadd (real a) (fmul (imag a) ratio)) denom)
                  (fdiv' (fsub (imag a) (fmul (real a) ratio)) denom))
  else if SFleb abs_breal abs_bimag then
    let ratio := fdiv' (real b) (imag b) in
    let denom := fadd (fmul (real b) ratio) (imag b) in
    ok (Complex (fdiv' (fadd (fmul (real a) ratio) (imag a)) denom)
                (fdiv' (fsub (fmul (imag a) ratio) (real a)) denom))
  else ok (Complex S754_nan S754_nan).

(** ** Dictionaries and the heap of dictionary objects *)

(** A [dict] with string keys and values, in insertion order. *)
Definition dict : Type := list (string * string).

Fixpoint dict_get (d : dict) (k : string) : option string :=
  match d with
  | [] => None
  | (k', v) :: r => if String.eqb k' k then Some v else dict_get r k
  end.

Definition has_key (d : dict) (k : string) : bool :=
  match dict_get d k with Some _ => true | None => false end.

(** [d[k] = v]: an existing key keeps its place, a new key goes last. *)
Fixpoint dict_set (d : dict) (k v : string) : dict :=
  match d with
  | [] => [(k, v)]
  | (k', v') :: r =>
      if String.eqb k' k then (k', v) :: r else (k', v') :: dict_set r k v
  end.

Fixpoint dict_del (d : dict) (k : string) : dict :=
  match d with
  | [] => []
  | (k', v') :: r => if String.eqb k' k then r else (k', v') :: dict_del r k
  end.

(** [d.update(other)] *)
Definition dict_update (d other : dict) : dict :=
  fold_left (fun acc kv => dict_set acc (fst kv) (snd kv)) other d.

Definition keys (d : dict) : list string := map fst d.

Definition loc : Type := nat.
Definition heap : Type := list dict.

Definition deref (h : heap) (l : loc) : dict := nth l h [].

(** A new object, placed after the existing ones. *)
Definition alloc (h : heap) (d : dict) : heap * loc := ((h ++ [d])%list, List.length h).

Fixpoint store (h : heap) (l : loc) (d : dict) : heap :=
  match h, l with
  | [], _ => []
  | _ :: r, O => d :: r
  | x :: r, S l' => x :: store r l' d
  end.

(** ** The SVG object *)

(** [stream] is the text written so far to [self.stream]. *)
Record SVG : Type := mkSVG {
  stream : string;
  prefix : string;
  indentation : Z;
  nesting : Z
}.

Record State : Type := mkState {
  heap_of : heap;
  self : SVG
}.

Definition write (s : SVG) (text : string) : SVG :=
  mkSVG (stream s ++ text) (prefix s) (indentation s) (nesting s).

Definition set_nesting (s : SVG) (n : Z) : SVG :=
  mkSVG (stream s) (prefix s) (indentation s) n.

(** The default [style={}] objects, one per method, created when the class
    is defined. *)
Definition default_style_element : loc := 0%nat.
Definition default_style_group : loc := 1%nat.
Definition default_style_circle : loc := 2%nat.
Definition default_style_rectangle : loc := 3%nat.
Definition default_style_polygon : loc := 4%nat.
Definition default_style_polyline : loc := 5%nat.
Definition default_style_polycurve : loc := 6%nat.
Definition default_style_segment : loc := 7%nat.
Definition default_style_arc : loc := 8%nat.
Definition default_style_text : loc := 9%nat.

Definition initial_heap : heap := repeat [] 10.

Definition style_arg (default : loc) (style : option loc) : loc :=
  match style with Some l => l | None => default end.

(** The text [ style=] followed by a double quote. *)
Definition style_open : string := " style=" ++ dquote.

(** The loop [for keyword in style: ...] of [element]. *)
Fixpoint style_items (second : bool) (d : dict) : list string :=
  match d with
  | [] => []
  | (keyword, v) :: r =>
      ((if second then ["; "] else []) ++ [keyword; ":"; v]
         ++ style_items true r)%list
  end.

(** The text [element] writes, given the nesting after the decrement of a
    closing tag and the merged style. *)
Definition element_output (s : SVG) (n1 : Z) (e : string) (delta : Z)
    (unspaced : bool) (merged : dict) : list string :=
  let output :=
    if (delta >=? 0) || negb unspaced
    then [spaces (indentation s + 2 * n1); "<"]
    else ["<"] in
  let output := if delta <? 0 then (output ++ ["/"])%list else output in
  let output := (output ++ [prefix s; e])%list in
  let output :=
    match merged with
    | [] => output
    | _ => (output ++ [style_open] ++ style_items false merged
              ++ [dquote])%list
    end in
  let output :=
    if delta >? 0 then output
    else if delta =? 0 then (output ++ ["/"])%list else output in
  let output := (output ++ [">"])%list in
  if (delta <=? 0) || negb unspaced then (output ++ [newline])%list else output.

(** Output an SVG element. *)
Definition element (st : State) (e : string) (delta : Z) (unspaced : bool)
    (style : loc) (morestyle : dict) : State :=
  let s := self st in
  let n1 := if delta <? 0 then nesting s + delta else nesting s in
  (* style = dict(style) *)
  let '(h1, l) := alloc (heap_of st) (deref (heap_of st) style) in
  (* style.update(morestyle) *)
  let h2 := store h1 l (dict_update (deref h1 l) morestyle) in
  let output := element_output s n1 e delta unspaced (deref h2 l) in
  let n2 := if delta >? 0 then n1 + delta else n1 in
  mkState h2 (write (set_nesting s n2) (join "" output)).

(** [self.element(e, ..., style=style, **morestyle)] as the shape methods
    call it.  A keyword of [morestyle] that names a parameter of [element]
    is bound to that parameter and is no style entry: [self], [e], [style]
    and a [delta] or [unspaced] the caller also gives are given twice, a
    [TypeError]; a [delta] bound to a string fails [delta < 0], a
    [TypeError] before anything is written; an [unspaced] bound to a string
    counts as true unless the string is empty.  [delta] and [unspaced] are
    [None] when the caller leaves them out. *)
Definition call_element (st : State) (e : string) (delta : option Z)
    (unspaced : option bool) (style : loc) (morestyle : dict)
  : State * result unit :=
  if has_key morestyle "self" || has_key morestyle "e"
     || has_key morestyle "style" || has_key morestyle "delta"
  then (st, raise TypeError)
  else
    let delta := match delta with Some d => d | None => 0 end in
    match dict_get morestyle "unspaced", unspaced with
    | Some _, Some _ => (st, raise TypeError)
    | Some v, None =>
        (element st e delta (negb (String.eqb v "")) style
           (dict_del morestyle "unspaced"), ok tt)
    | None, Some u => (element st e delta u style morestyle, ok tt)
    | None, None => (element st e delta false style morestyle, ok tt)
    end.

Definition quoted (v : string) : string := dquote ++ v ++ dquote.

Definition xml_header : string :=
  "<?xml version=" ++ quoted "1.0" ++ "?>" ++ newline
  ++ "<!DOCTYPE svg PUBLIC " ++ quoted "-//W3C//DTD SVG 1.1//EN" ++ " " ++ newline
  ++ "  " ++ quoted "http://www.w3.org/Graphics/SVG/1.1/DTD/svg11.dtd" ++ ">"
  ++ newline.

(** Create a new SVG object, to be written to the given stream ([out] is
    what the stream already holds).  [prefix0] is [None] when the argument
    is left out. *)
Definition __init__ (h : heap) (bbox : complex) (out : string)
    (standalone : bool) (prefix0 : option string) (indentation0 : Z) : State :=
  let pre :=
    match prefix0 with
    | Some (String a r) => String a r ++ ":"
    | _ => ""
    end in
  let out := if standalone then out ++ xml_header else out in
  let s := mkSVG out pre indentation0 0 in
  let br := _coord (real bbox) in
  let bi := _coord (imag bbox) in
  element (mkState h s)
    ("svg width=" ++ quoted br ++ " height=" ++ quoted bi
       ++ " viewBox=" ++ quoted ("0 0 " ++ br ++ " " ++ bi) ++ newline
       ++ "     xmlns=" ++ quoted "http://www.w3.org/2000/svg"
       ++ " version=" ++ quoted "1.1")
    1 false default_style_element [].

(** Output the end of an SVG file. *)
Definition close (st : State) : State * result unit :=
  let st := element st "svg" (-1) false default_style_element [] in
  if nesting (self st) =? 0 then (st, ok tt)
  else (st, raise (Exception "SVG: Unclosed tags")).

(** Start a group of objects, all with the same style *)
Definition group (st : State) (style : option loc) (morestyle : dict)
  : State * result unit :=
  call_element st "g" (Some 1) None (style_arg default_style_group style) morestyle.

(** End a group of objects *)
Definition ungroup (st : State) : State :=
  element st "g" (-1) false default_style_element [].

(** Circle with given center and radius *)
Definition circle (st : State) (center : complex) (radius : float)
    (style : option loc) (morestyle : dict) : State * result unit :=
  call_element st
    ("circle cx=" ++ quoted (_coord (real center))
       ++ " cy=" ++ quoted (_coord (imag center))
       ++ " r=" ++ quoted (_coord radius))
    None None (style_arg default_style_circle style) morestyle.

(** The tag [rectangle] passes to [element]. *)
Definition rectangle_tag (p q : complex) : string :=
  let x := py_min (real p) (real q) in
  let y := py_min (imag p) (imag q) in
  let width := fabs (real (c_sub p q)) in
  let height := fabs (imag (c_sub p q)) in
  "rect x=" ++ quoted (_coord x) ++ " y=" ++ quoted (_coord x)
    ++ " width=" ++ quoted (_coord width)
    ++ " height=" ++ quoted (_coord height).

(** Rectangle with corners at points p and q *)
Definition rectangle (st : State) (p q : complex) (style : option loc)
    (morestyle : dict) : State * result unit :=
  call_element st (rectangle_tag p q) None None
    (style_arg default_style_rectangle style) morestyle.

Definition pointlist (points : list complex) : string :=
  join " " (map (fun p => _coord (real p) ++ "," ++ _coord (imag p)) points).

(** Polygon with corners at the given set of points *)
Definition polygon (st : State) (points : list complex) (style : option loc)
    (morestyle : dict) : State * result unit :=
  call_element st ("polygon points=" ++ quoted (pointlist points)) None None
    (style_arg default_style_polygon style) morestyle.

(** Polyline with corners at the given set of points *)
Definition polyline (st : State) (points : list complex) (style : option loc)
    (morestyle : dict) : State * result unit :=
  call_element st ("polyline points=" ++ quoted (pointlist points)) None None
    (style_arg default_style_polyline style) morestyle.

(** Line segment from p to q *)
Definition segment (st : State) (p q : complex) (style : option loc)
    (morestyle : dict) : State * result unit :=
  call_element st
    ("line x1=" ++ quoted (_coord (real p)) ++ " y1=" ++ quoted (_coord (imag p))
       ++ " x2=" ++ quoted (_coord (real q)) ++ " y2=" ++ quoted (_coord (imag q)))
    None None (style_arg default_style_segment style) morestyle.

(** Circular arc from p to q with radius r. *)
Definition arc (st : State) (p q : complex) (r : float) (large : bool)
    (style : option loc) (morestyle : dict) : State * result unit :=
  let large := if large then "1" else "0" in
  let r := _coord (fabs r) in
  call_element st
    ("path d=" ++ quoted ("M " ++ _coord (real p) ++ "," ++ _coord (imag p)
                            ++ " A " ++ r ++ "," ++ r ++ " 0 " ++ large ++ " 0 "
                            ++ _coord (real q) ++ "," ++ _coord (imag q)))
    None None (style_arg default_style_arc style) morestyle.

(** Text label at the given location. *)
Definition text (st : State) (label : string) (location : complex)
    (style : option loc) (morestyle : dict) : State * result unit :=
  match call_element st
          ("text x=" ++ quoted (_coord (real location))
             ++ " y=" ++ quoted (_coord (imag location)))
          (Some 1) (Some true) (style_arg default_style_text style) morestyle with
  | (st, inl e) => (st, inl e)
  | (st, inr _) =>
      let st := mkState (heap_of st) (write (self st) label) in
      (element st "text" (-1) true default_style_element [], ok tt)
  end.

(** ** The smooth curve *)

(** [l[i]] on a list, negative indices counting from the end. *)
Definition getitem {A : Type} (l : list A) (i : Z) : result A :=
  let n := Z.of_nat (List.length l) in
  let j := if i <? 0 then i + n else i in
  if (0 <=? j) && (j <? n) then
    match nth_error l (Z.to_nat j) with
    | Some a => ok a
    | None => raise (IndexError "list index out of range")
    end
  else raise (IndexError "list index out of range").

(** [range(lo, hi)] *)
Definition py_range (lo hi : Z) : list Z :=
  map (fun k => lo + Z.of_nat k) (seq 0 (Z.to_nat (hi - lo))).

Definition dot (r s : complex) : float :=
  fadd (fmul (real r) (real s)) (fmul (imag r) (imag s)).

(** Spline through p0 and p1 with directions controlled by q0 and q1;
    results returned as four Bezier control points. *)
Definition straincontrol (q0 p0 p1 q1 : complex)
  : result (complex * complex * complex * complex) :=
  (* get initial direction vectors *)
  let v0 := c_sub p1 q0 in
  let v1 := c_sub q1 p0 in
  let d := c_prod (complex_of_int 3) (c_sub p1 p0) in
  let dv0 := dot d v0 in
  let dv1 := dot d v1 in
  let v00 := dot v0 v0 in
  let v01 := dot v0 v1 in
  let v11 := dot v1 v1 in
  v01sq <- fpow2 v01 ;;
  let e := fsub (fmul (fmul (float_of_Z 4) v00) v11) v01sq in
  a0 <- fdiv (fsub (fmul (fmul (float_of_Z 2) dv0) v11) (fmul dv1 v01)) e ;;
  a1 <- fdiv (fsub (fmul (fmul (float_of_Z 2) dv1) v00) (fmul dv0 v01)) e ;;
  (* convert to Bezier form *)
  t0 <- c_quot (c_prod (complex_of_float a0) v0) (complex_of_int 3) ;;
  t1 <- c_quot (c_prod (complex_of_float a1) v1) (complex_of_int 3) ;;
  ok (p0, c_add p0 t0, c_sub p1 t1, p1).

Definition coords (q : complex) : list string := [_coord (real q); _coord (imag q)].

(** The local function [_point] of [polycurve]. *)
Definition _point (data : list string) (q : complex) : list string :=
  (data ++ coords q)%list.

Fixpoint polycurve_loop (points : list complex) (idx : list Z)
    (data : list string) : result (list string) :=
  match idx with
  | [] => ok data
  | i :: rest =>
      q0 <- getitem points (i - 1) ;;
      p0 <- getitem points i ;;
      p1 <- getitem points (i + 1) ;;
      q1 <- getitem points (i + 2) ;;
      '(a, b, c, d) <- straincontrol q0 p0 p1 q1 ;;
      polycurve_loop points rest (_point (_point (_point data b) c) d)
  end.

(** The list [data] of [polycurve] when the loop is over. *)
Definition polycurve_data (points : list complex) : result (list string) :=
  p <- getitem points 1 ;;
  let data := (_point ["M"] p ++ ["C"])%list in
  polycurve_loop points (py_range 1 (Z.of_nat (List.length points) - 2)) data.

(** Smooth curve through given set of points, excepting first and last. *)
Definition polycurve (st : State) (points : list complex) (style : option loc)
    (morestyle : dict) : State * result unit :=
  match polycurve_data points with
  | inl e => (st, inl e)
  | inr data =>
      call_element st ("path d=" ++ quoted (join " " data)) None None
        (style_arg default_style_polycurve style) morestyle
  end.

(** ** Util.py *)

Section Util.
Variable A : Type.

(** [next(it)] on a fresh iterator over the items of [S], given in
    iteration order. *)
Definition next (S : list A) : result A :=
  match S with
  | [] => raise StopIteration
  | x :: _ => ok x
  end.

(** Select an arbitrary item from set or sequence S. *)
Definition arbitrary_item (S : list A) : result A :=
  match next S with
  | inl StopIteration => raise (IndexError "No items to select.")
  | r => r
  end.
End Util.

Arguments next {A} S.
Arguments arbitrary_item {A} S.

(** ** Programs over the API *)

Inductive call : Type :=
| Element (e : string) (delta : Z) (unspaced : bool) (style : option loc)
    (morestyle : dict)
| Group (style : option loc) (morestyle : dict)
| Ungroup
| Circle (center : complex) (radius : float) (style : option loc) (morestyle : dict)
| Rectangle (p q : complex) (style : option loc) (morestyle : dict)
| Polygon (points : list complex) (style : option loc) (morestyle : dict)
| Polyline (points : list complex) (style : option loc) (morestyle : dict)
| Polycurve (points : list complex) (style : option loc) (morestyle : dict)
| Segment (p q : complex) (style : option loc) (morestyle : dict)
| Arc (p q : complex) (r : float) (large : bool) (style : option loc)
    (morestyle : dict)
| Text (label : string) (location : complex) (style : option loc)
    (morestyle : dict)
| Close.

Definition run (st : State) (c : call) : State * result unit :=
  match c with
  | Element e delta unspaced style morestyle =>
      (element st e delta unspaced (style_arg default_style_element style)
         morestyle, ok tt)
  | Group style morestyle => group st style morestyle
  | Ungroup => (ungroup st, ok tt)
  | Circle center radius style morestyle => circle st center radius style morestyle
  | Rectangle p q style morestyle => rectangle st p q style morestyle
  | Polygon points style morestyle => polygon st points style morestyle
  | Polyline points style morestyle => polyline st points style morestyle
  | Polycurve points style morestyle => polycurve st points style morestyle
  | Segment p q style morestyle => segment st p q style morestyle
  | Arc p q r large style morestyle => arc st p q r large style morestyle
  | Text label location style morestyle => text st label location style morestyle
  | Close => close st
  end.

(** A sequence of calls; an exception ends it. *)
Fixpoint run_all (st : State) (cs : list call) : State * result unit :=
  match cs with
  | [] => (st, ok tt)
  | c :: rest =>
      match run st c with
      | (st', inr _) => run_all st' rest
      | (st', inl e) => (st', inl e)
      end
  end.





(** The text one call of [element] writes. *)
Definition element_text (st : State) (e : string) (delta : Z) (unspaced : bool)
    (style : loc) (morestyle : dict) : string :=
  let s := self st in
  let n1 := if delta <? 0 then nesting s + delta else nesting s in
  join "" (element_output s n1 e delta unspaced
             (dict_update (deref (heap_of st) style) morestyle)).

(** ** Notions used in the statements *)




Definition style_entry (kv : string * string) : string := fst kv ++ ":" ++ snd kv.

(** The style attribute as the documentation describes it. *)
Definition style_attribute (merged : dict) : string :=
  match merged with
  | [] => ""
  | _ => " style=" ++ quoted (join "; " (map style_entry merged))
  end.

(** The whitespace [element] writes before the tag. *)
Definition lead (s : SVG) (delta : Z) (unspaced : bool) : string :=
  if (delta >=? 0) || negb unspaced
  then spaces (indentation s
               + 2 * (if delta <? 0 then nesting s + delta else nesting s))
  else "".

(** [a] and [b] are [0.0] and [-0.0], in either order. *)
Definition opposite_zeros (a b : float) : bool :=
  match a, b with
  | S754_zero sa, S754_zero sb => xorb sa sb
  | _, _ => false
  end.

(** ** The control points of a curve segment, as documented *)

(** IEEE operations that never raise, for the formula as documented. *)
Definition ieee_div : float -> float -> float := SFdiv prec emax.

(** [x ** 2] where it is a float. *)
Definition power2 (x : float) : float :=
  match fpow2 x with
  | inr r => r
  | inl _ => S754_nan
  end.

Definition c_div (a b : complex) : complex :=
  match c_quot a b with
  | inr r => r
  | inl _ => Complex S754_nan S754_nan
  end.

(** [x ** 2] raises [OverflowError]. *)
Definition power2_raises (x : float) : bool :=
  match fpow2 x with
  | inr _ => false
  | inl _ => true
  end.

Section Formula.
Variables q0 p0 p1 q1 : complex.

Definition strain_v0 : complex := c_sub p1 q0.
Definition strain_v1 : complex := c_sub q1 p0.
Definition strain_d : complex := c_prod (complex_of_int 3) (c_sub p1 p0).

Definition strain_e : float :=
  fsub (fmul (fmul (float_of_Z 4) (dot strain_v0 strain_v0))
             (dot strain_v1 strain_v1))
       (power2 (dot strain_v0 strain_v1)).

Definition strain_a0 : float :=
  ieee_div (fsub (fmul (fmul (float_of_Z 2) (dot strain_d strain_v0))
                       (dot strain_v1 strain_v1))
                 (fmul (dot strain_d strain_v1) (dot strain_v0 strain_v1)))
           strain_e.

Definition strain_a1 : float :=
  ieee_div (fsub (fmul (fmul (float_of_Z 2) (dot strain_d strain_v1))
                       (dot strain_v0 strain_v0))
                 (fmul (dot strain_d strain_v0) (dot strain_v0 strain_v1)))
           strain_e.

(** [p0 + a0*v0/3] and [p1 - a1*v1/3] *)
Definition control_b : complex :=
  c_add p0 (c_div (c_prod (complex_of_float strain_a0) strain_v0)
                  (complex_of_int 3)).
Definition control_c : complex :=
  c_sub p1 (c_div (c_prod (complex_of_float strain_a1) strain_v1)
                  (complex_of_int 3)).

(** [e] is not zero and the power in it is a float. *)
Definition strain_defined : bool :=
  negb (is_zero strain_e)
  && negb (power2_raises (dot strain_v0 strain_v1)).
End Formula.

Definition nan_point : complex := Complex S754_nan S754_nan.

(** The tokens the loop appends for index [i]. *)
Definition segment_tokens (points : list complex) (i : nat) : list string :=
  let q0 := nth (i - 1) points nan_point in
  let p0 := nth i points nan_point in
  let p1 := nth (i + 1) points nan_point in
  let q1 := nth (i + 2) points nan_point in
  (coords (control_b q0 p0 p1 q1) ++ coords (control_c q0 p0 p1 q1)
     ++ coords p1)%list.

(** [(q0, p0, p1, q1)] is the interior quadruple of [points] at index [i]. *)
Definition interior (points : list complex) (i : nat)
    (q0 p0 p1 q1 : complex) : Prop :=
  (1 <= i)%nat
  /\ nth_error points (i - 1) = Some q0
  /\ nth_error points i = Some p0
  /\ nth_error points (i + 1) = Some p1
  /\ nth_error points (i + 2) = Some q1.

(** ** Reading a decimal numeral *)

Definition digit_val (c : ascii) : option Z :=
  let n := Z.of_nat (nat_of_ascii c) in
  if (48 <=? n) && (n <=? 57) then Some (n - 48) else None.

(** The number the digits of [s] denote after the digits read so far. *)
Fixpoint parse_digits (acc : Z) (s : string) : option Z :=
  match s with
  | EmptyString => Some acc
  | String c r =>
      match digit_val c with
      | Some d => parse_digits (10 * acc + d) r
      | None => None
      end
  end.

Fixpoint all_digits (s : string) : bool :=
  match s with
  | EmptyString => true
  | String c r =>
      match digit_val c with
      | Some _ => all_digits r
      | None => false
      end
  end.

(** The text before the first ["."] and, if there is one, the text after. *)
Fixpoint split_point (s : string) : string * option string :=
  match s with
  | EmptyString => (EmptyString, None)
  | String c r =>
      if Ascii.eqb c "." then (EmptyString, Some r)
      else let '(a, b) := split_point r in (String c a, b)
  end.

Definition parse_nat (s : string) : option Z :=
  match s with
  | EmptyString => None
  | _ => parse_digits 0 s
  end.

(** [digits] or [digits.digits], read as a rational. *)
Definition parse_unsigned (s : string) : option Q :=
  let '(ip, fp) := split_point s in
  match parse_nat ip, fp with
  | Some i, None => Some (i # 1)
  | Some i, Some f =>
      match parse_nat f with
      | Some fv =>
          let scale := 10 ^ Z.of_nat (String.length f) in
          Some ((i * scale + fv) # Z.to_pos scale)
      | None => None
      end
  | None, _ => None
  end.

(** A decimal numeral with an optional minus sign. *)
Definition parse_decimal (s : string) : option Q :=
  match s with
  | EmptyString => None
  | String c r =>
      if Ascii.eqb c "-" then option_map Qopp (parse_unsigned r)
      else parse_unsigned s
  end.

(** What is left of the four fractional digits. *)
Definition kept_fraction (d3 d2 d1 d0 : Z) : string :=
  if negb (d0 =? 0) then
    String "." (String (digit_char d3) (String (digit_char d2)
      (String (digit_char d1) (String (digit_char d0) ""))))
  else if negb (d1 =? 0) then
    String "." (String (digit_char d3) (String (digit_char d2)
      (String (digit_char d1) "")))
  else if negb (d2 =? 0) then
    String "." (String (digit_char d3) (String (digit_char d2) ""))
  else if negb (d3 =? 0) then String "." (String (digit_char d3) "")
  else "".

(** ** Sample values *)

Definition cx (a b : Z) : complex := Complex (float_of_Z a) (float_of_Z b).

(** A document on an empty stream, right after construction. *)
Definition doc0 : State := __init__ initial_heap (cx 100 100) "" true None 0.

(** The same with a style dictionary of the caller at location 10. *)
Definition doc1 : State :=
  __init__ (initial_heap ++ [[("fill", "red"); ("stroke", "black")]])%list
    (cx 100 100) "" false (Some "s") 4.

(** A C library whose [pow(x, 2.0)] is the correctly rounded square, with
    [ERANGE] on overflow; the examples that draw a curve are run with it. *)
Definition rounded_pow2 (x : float) : float * bool :=
  let r := fmul x x in (r, is_inf r).

Definition zigzag : list complex := [cx 0 0; cx 1 1; cx 2 0; cx 3 1; cx 4 0].

Definition big (k : Z) : float := float_of_Z (k * 10 ^ 100).

(** Four points about [1e100] apart. *)
Definition far_points : list complex :=
  [ Complex (S754_zero false) (S754_zero false);
    Complex (big 1) (big 1);
    Complex (big 2) (S754_zero false);
    Complex (big 3) (big 1) ].


(** ** Notions used in the further properties *)

(** What a call adds to the nesting counter when it returns. *)
Definition depth_change (c : call) : Z :=
  match c with
  | Element _ delta _ _ _ => delta
  | Group _ _ => 1
  | Ungroup => -1
  | Close => -1
  | _ => 0
  end.

Definition total_depth (cs : list call) : Z :=
  fold_right (fun c acc => depth_change c + acc) 0 cs.

(** Some keyword of [morestyle] names a parameter of [element]. *)
Definition binds_parameter (morestyle : dict) : bool :=
  has_key morestyle "self" || has_key morestyle "e"
  || has_key morestyle "style" || has_key morestyle "delta"
  || has_key morestyle "unspaced".

(** The sign bit of a float (nan has none). *)
Definition sign_of (x : float) : bool :=
  match x with
  | S754_zero s | S754_infinity s | S754_finite s _ _ => s
  | S754_nan => false
  end.

(** The fractional digits [_coord] keeps of a scaled value. *)
Definition kept_digits (n : Z) : string :=
  let f := n mod 10000 in
  kept_fraction (f / 1000) (f / 100 mod 10) (f / 10 mod 10) (f mod 10).

(** ** Util.py: [map_to_constant] *)

Section MapToConstant.
Variables K V : Type.
Variable K_eq_dec : forall x y : K, {x = y} + {x <> y}.

(** [d[k] = v] on a dictionary with keys of type [K]. *)
Fixpoint kv_set (d : list (K * V)) (k : K) (v : V) : list (K * V) :=
  match d with
  | [] => [(k, v)]
  | (k', v') :: r =>
      if K_eq_dec k' k then (k', v) :: r else (k', v') :: kv_set r k v
  end.

Fixpoint kv_get (d : list (K * V)) (k : K) : option V :=
  match d with
  | [] => None
  | (k', v) :: r => if K_eq_dec k' k then Some v else kv_get r k
  end.

(** [dict.fromkeys(seq, value)] *)
Definition fromkeys (seq : list K) (value : V) : list (K * V) :=
  fold_left (fun d k => kv_set d k value) seq [].

(** Return a factory that turns sequences into dictionaries, where the
    dictionary maps each item in the sequence into the given constant. *)
Definition map_to_constant (constant : V) : list K -> list (K * V) :=
  fun seq => fromkeys seq constant.

(** The items of a sequence, each at its first place. *)
Fixpoint first_occurrences (seq : list K) : list K :=
  match seq with
  | [] => []
  | x :: r =>
      x :: filter (fun y => if K_eq_dec y x then false else true)
             (first_occurrences r)
  end.
End MapToConstant.

Arguments kv_set {K V} K_eq_dec d k v.
Arguments kv_get {K V} K_eq_dec d k.
Arguments fromkeys {K V} K_eq_dec seq value.
Arguments map_to_constant {K V} K_eq_dec constant seq.
Arguments first_occurrences {K} K_eq_dec seq.

(** ** Basic facts about the heap and [element] *)

Lemma nth_error_store_other (h : heap) (l k : loc) (d : dict) :
  k <> l -> nth_error (store h l d) k = nth_error h k.
Proof.
  revert l k; induction h as [|x r IH]; intros [|l] [|k] Hne; simpl;
    try reflexivity; try congruence.
  apply IH; congruence.
Qed.

Lemma deref_store_same (h : heap) (l : loc) (d : dict) :
  (l < List.length h)%nat -> deref (store h l d) l = d.
Proof.
  unfold deref; revert l; induction h as [|x r IH]; intros [|l] Hl; simpl in *;
    try lia; try reflexivity.
  apply IH; lia.
Qed.

Lemma deref_alloc (h : heap) (d : dict) :
  deref (fst (alloc h d)) (snd (alloc h d)) = d.
Proof.
  unfold deref, alloc; simpl. rewrite app_nth2 by lia.
  now rewrite Nat.sub_diag.
Qed.

Lemma element_heap (st : State) e delta unspaced style morestyle :
  heap_of (element st e delta unspaced style morestyle)
  = (heap_of st
       ++ [dict_update (deref (heap_of st) style) morestyle])%list.
Proof.
  unfold element, alloc; simpl.
  pose proof (deref_alloc (heap_of st) (deref (heap_of st) style)) as Hd.
  unfold alloc in Hd; simpl in Hd. rewrite Hd. clear Hd.
  generalize (dict_update (deref (heap_of st) style) morestyle) as d'.
  generalize (deref (heap_of st) style) as d.
  induction (heap_of st) as [|x r IH]; intros d d'; simpl; [reflexivity|].
  now rewrite IH.
Qed.

Lemma element_nesting (st : State) e delta unspaced style morestyle :
  nesting (self (element st e delta unspaced style morestyle))
  = nesting (self st) + delta.
Proof.
  unfold element, alloc; simpl.
  destruct (delta <? 0) eqn:Hlt, (delta >? 0) eqn:Hgt; simpl; lia.
Qed.

Lemma element_stream (st : State) e delta unspaced style morestyle :
  stream (self (element st e delta unspaced style morestyle))
  = stream (self st) ++ element_text st e delta unspaced style morestyle.
Proof.
  unfold element, element_text.
  pose proof (deref_alloc (heap_of st) (deref (heap_of st) style)) as Hd.
  destruct (alloc (heap_of st) (deref (heap_of st) style)) as [h1 l] eqn:Ha.
  simpl in Hd. rewrite Hd.
  assert (Hl : (l < List.length h1)%nat).
  { unfold alloc in Ha. injection Ha as <- <-. rewrite length_app; simpl; lia. }
  rewrite (deref_store_same _ _ _ Hl). reflexivity.
Qed.

Lemma element_frame (st : State) e delta unspaced style morestyle l d :
  nth_error (heap_of st) l = Some d ->
  nth_error (heap_of (element st e delta unspaced style morestyle)) l = Some d.
Proof.
  intros H. rewrite element_heap. rewrite nth_error_app1; [exact H|].
  apply nth_error_Some. congruence.
Qed.

Lemma call_element_cases st e delta unspaced style morestyle :
  call_element st e delta unspaced style morestyle = (st, raise TypeError)
  \/ exists u more,
       call_element st e delta unspaced style morestyle
       = (element st e (match delta with Some d => d | None => 0 end) u style more,
          ok tt).
Proof.
  unfold call_element.
  destruct (_ || _); [now left|].
  destruct (dict_get morestyle "unspaced"), unspaced; eauto.
Qed.

Lemma call_element_nesting st e delta unspaced style morestyle :
  nesting (self (fst (call_element st e delta unspaced style morestyle)))
  = nesting (self st)
    + match snd (call_element st e delta unspaced style morestyle) with
      | inr _ => match delta with Some d => d | None => 0 end
      | inl _ => 0
      end.
Proof.
  destruct (call_element_cases st e delta unspaced style morestyle)
    as [-> | (u & more & ->)]; [simpl; lia|].
  unfold ok; cbn [fst snd]. apply element_nesting.
Qed.

Lemma call_element_frame st e delta unspaced style morestyle l d :
  nth_error (heap_of st) l = Some d ->
  nth_error (heap_of (fst (call_element st e delta unspaced style morestyle))) l
  = Some d.
Proof.
  intros H.
  destruct (call_element_cases st e delta unspaced style morestyle)
    as [-> | (u & more & ->)]; cbn [fst snd]; [exact H|].
  now apply element_frame.
Qed.

Lemma text_nesting st label location style morestyle :
  nesting (self (fst (text st label location style morestyle)))
  = nesting (self st).
Proof.
  unfold text.
  destruct (call_element_cases st
              ("text x=" ++ quoted (_coord (real location))
                 ++ " y=" ++ quoted (_coord (imag location)))
              (Some 1) (Some true) (style_arg default_style_text style) morestyle)
    as [-> | (u & more & ->)]; [reflexivity|].
  unfold ok; cbn iota beta. cbn [fst].
  rewrite element_nesting; cbn [heap_of self nesting write].
  rewrite element_nesting. lia.
Qed.

Lemma text_frame st label location style morestyle l d :
  nth_error (heap_of st) l = Some d ->
  nth_error (heap_of (fst (text st label location style morestyle))) l = Some d.
Proof.
  intros H. unfold text.
  destruct (call_element_cases st
              ("text x=" ++ quoted (_coord (real location))
                 ++ " y=" ++ quoted (_coord (imag location)))
              (Some 1) (Some true) (style_arg default_style_text style) morestyle)
    as [-> | (u & more & ->)]; [exact H|].
  unfold ok; cbn iota beta. cbn [fst].
  apply element_frame; cbn [heap_of]. now apply element_frame.
Qed.

Lemma polycurve_nesting st points style morestyle :
  nesting (self (fst (polycurve st points style morestyle))) = nesting (self st).
Proof.
  unfold polycurve. destruct (polycurve_data points); simpl; [reflexivity|].
  rewrite call_element_nesting. destruct (snd _); lia.
Qed.

Lemma close_nesting st :
  nesting (self (fst (close st))) = nesting (self st) - 1.
Proof.
  unfold close.
  pose proof (element_nesting st "svg" (-1) false default_style_element []) as H.
  destruct (_ =? 0); simpl; lia.
Qed.

Lemma polycurve_frame st points style morestyle l d :
  nth_error (heap_of st) l = Some d ->
  nth_error (heap_of (fst (polycurve st points style morestyle))) l = Some d.
Proof.
  intros H. unfold polycurve.
  destruct (polycurve_data points); simpl; [exact H|].
  now apply call_element_frame.
Qed.

Lemma close_frame st l d :
  nth_error (heap_of st) l = Some d ->
  nth_error (heap_of (fst (close st))) l = Some d.
Proof.
  intros H. unfold close.
  pose proof (element_frame st "svg" (-1) false default_style_element [] l d H).
  now destruct (_ =? 0).
Qed.

Lemma run_frame st c l d :
  nth_error (heap_of st) l = Some d ->
  nth_error (heap_of (fst (run st c))) l = Some d.
Proof.
  intros H.
  destruct c; cbn [run fst];
    unfold group, ungroup, circle, rectangle, polygon, polyline, segment, arc;
    first [ now apply call_element_frame
          | now apply element_frame
          | now apply text_frame
          | now apply polycurve_frame
          | now apply close_frame ].
Qed.

(** ** Strings: lemmas *)

Lemma append_nil_r (s : string) : s ++ "" = s.
Proof. induction s as [|a r IH]; simpl; [reflexivity | now rewrite IH]. Qed.

Lemma append_assoc (s t u : string) : (s ++ t) ++ u = s ++ (t ++ u).
Proof. induction s as [|a r IH]; simpl; [reflexivity | now rewrite IH]. Qed.

Lemma join_empty_cons (x : string) (l : list string) :
  join "" (x :: l) = x ++ join "" l.
Proof.
  unfold join; destruct l as [|y l]; simpl; [now rewrite append_nil_r | reflexivity].
Qed.

Lemma join_empty_app (l1 l2 : list string) :
  join "" (l1 ++ l2) = join "" l1 ++ join "" l2.
Proof.
  induction l1 as [|x l1 IH]; [reflexivity|].
  rewrite <- app_comm_cons, !join_empty_cons, IH. now rewrite append_assoc.
Qed.

Lemma join_empty_nil : join "" [] = "".
Proof. reflexivity. Qed.

(** ** Nesting along a sequence of [element] calls *)





(** [close] returns exactly when one tag, the root, is open. *)
Lemma close_result (st : State) :
  snd (close st)
  = if nesting (self st) =? 1 then ok tt
    else raise (Exception "SVG: Unclosed tags").
Proof.
  unfold close.
  pose proof (element_nesting st "svg" (-1) false default_style_element []) as H.
  destruct (nesting (self (element _ _ _ _ _ _)) =? 0) eqn:E1,
           (nesting (self st) =? 1) eqn:E2; simpl; try reflexivity; lia.
Qed.

(** ** The shape of the text [element] writes *)

Lemma style_items_true (d : dict) :
  join "" (style_items true d)
  = join "" (map (fun kv => "; " ++ style_entry kv) d).
Proof.
  induction d as [|[k v] r IH]; [reflexivity|].
  cbn [style_items map]. cbn [app].
  rewrite !join_empty_cons, IH. unfold style_entry; simpl.
  now rewrite !append_assoc.
Qed.

Lemma join_sep_cons (sep x : string) (l : list string) :
  join sep (x :: l) = x ++ join "" (map (fun y => sep ++ y) l).
Proof.
  revert x; induction l as [|y l IH]; intros x.
  - simpl. now rewrite append_nil_r.
  - change (join sep (x :: y :: l)) with (x ++ sep ++ join sep (y :: l)).
    rewrite IH. cbn [map]. rewrite join_empty_cons. now rewrite append_assoc.
Qed.

Lemma style_items_false (k v : string) (r : dict) :
  join "" (style_items false ((k, v) :: r))
  = join "; " (map style_entry ((k, v) :: r)).
Proof.
  cbn [style_items map]. cbn [app].
  rewrite !join_empty_cons, style_items_true, join_sep_cons.
  rewrite map_map. unfold style_entry at 2; simpl. now rewrite !append_assoc.
Qed.

Lemma element_text_shape (st : State) e delta unspaced style morestyle :
  element_text st e delta unspaced style morestyle
  = lead (self st) delta unspaced ++ "<"
    ++ (if delta <? 0 then "/" else "") ++ prefix (self st) ++ e
    ++ style_attribute (dict_update (deref (heap_of st) style) morestyle)
    ++ (if delta =? 0 then "/" else "") ++ ">"
    ++ (if (delta <=? 0) || negb unspaced then newline else "").
Proof.
  unfold element_text, element_output, lead.
  set (merged := dict_update (deref (heap_of st) style) morestyle).
  set (sp := spaces _).
  assert (Hst : forall out, join ""
            match merged with
            | [] => out
            | _ => (out ++ [style_open] ++ style_items false merged ++ [dquote])%list
            end = join "" out ++ style_attribute merged).
  { intros out. destruct merged as [|[k v] r].
    - simpl. now rewrite append_nil_r.
    - rewrite !join_empty_app, style_items_false.
      unfold style_attribute, quoted, style_open.
      rewrite !join_empty_cons, join_empty_nil, !append_nil_r.
      now rewrite !append_assoc. }
  destruct (delta <? 0) eqn:Hlt, (delta >? 0) eqn:Hgt, (delta =? 0) eqn:Heq,
    (delta >=? 0) eqn:Hge, (delta <=? 0) eqn:Hle; try lia;
    destruct unspaced; cbn [orb negb];
    repeat rewrite join_empty_app; rewrite ?Hst;
    repeat rewrite join_empty_app;
    rewrite ?join_empty_cons, ?join_empty_nil, ?append_nil_r, ?append_assoc;
    cbn [append]; rewrite ?append_nil_r; reflexivity.
Qed.

(** ** Dictionaries: lemmas *)

Lemma dict_get_set (d : dict) (k v k' : string) :
  dict_get (dict_set d k v) k'
  = if String.eqb k k' then Some v else dict_get d k'.
Proof.
  induction d as [|[k0 v0] r IH]; simpl.
  - reflexivity.
  - destruct (String.eqb_spec k0 k) as [->|Hne]; simpl.
    + destruct (String.eqb k k'); reflexivity.
    + rewrite IH. destruct (String.eqb_spec k0 k') as [->|Hne'].
      * destruct (String.eqb_spec k k'); [congruence | reflexivity].
      * reflexivity.
Qed.

Lemma dict_get_notin (d : dict) (k : string) :
  ~ In k (keys d) -> dict_get d k = None.
Proof.
  induction d as [|[k0 v0] r IH]; simpl; intros H; [reflexivity|].
  destruct (String.eqb_spec k0 k) as [->|Hne]; [tauto|].
  apply IH; tauto.
Qed.

Lemma dict_get_update (d more : dict) (k : string) :
  NoDup (keys more) ->
  dict_get (dict_update d more) k
  = match dict_get more k with
    | Some v => Some v
    | None => dict_get d k
    end.
Proof.
  revert d; induction more as [|[k1 v1] r IH]; intros d Hnd; [reflexivity|].
  inversion Hnd as [|? ? Hnotin Hnd']; subst.
  change (dict_update d ((k1, v1) :: r)) with (dict_update (dict_set d k1 v1) r).
  rewrite (IH _ Hnd'), dict_get_set. simpl.
  destruct (String.eqb_spec k1 k) as [->|Hne]; [|reflexivity].
  now rewrite (dict_get_notin _ _ Hnotin).
Qed.

Lemma has_key_set (d : dict) (k v k' : string) :
  has_key (dict_set d k v) k' = String.eqb k k' || has_key d k'.
Proof.
  unfold has_key. rewrite dict_get_set. now destruct (String.eqb k k').
Qed.

Lemma keys_set (d : dict) (k v : string) :
  keys (dict_set d k v) = if has_key d k then keys d else (keys d ++ [k])%list.
Proof.
  unfold has_key.
  induction d as [|[k0 v0] r IH]; simpl; [reflexivity|].
  destruct (String.eqb_spec k0 k) as [->|Hne]; simpl; [reflexivity|].
  rewrite IH. now destruct (dict_get r k).
Qed.

Lemma keys_update (d more : dict) :
  NoDup (keys more) ->
  keys (dict_update d more)
  = (keys d ++ filter (fun k => negb (has_key d k)) (keys more))%list.
Proof.
  revert d; induction more as [|[k1 v1] r IH]; intros d Hnd.
  - simpl. now rewrite app_nil_r.
  - inversion Hnd as [|? ? Hnotin Hnd']; subst.
    change (dict_update d ((k1, v1) :: r)) with (dict_update (dict_set d k1 v1) r).
    rewrite (IH _ Hnd'), keys_set. cbn [keys map fst filter].
    assert (Hf : filter (fun k => negb (has_key (dict_set d k1 v1) k)) (keys r)
                 = filter (fun k => negb (has_key d k)) (keys r)).
    { apply filter_ext_in. intros k Hk. rewrite has_key_set.
      destruct (String.eqb_spec k1 k) as [->|Hne]; [tauto | reflexivity]. }
    fold (keys r). rewrite Hf.
    destruct (has_key d k1); simpl; [reflexivity|].
    now rewrite <- app_assoc.
Qed.

(** ** Floats: comparison and subtraction under a swap *)

Lemma SFcompare_swap (a b : float) :
  SFcompare b a = option_map CompOpp (SFcompare a b).
Proof.
  destruct a as [sa|sa| |sa ma ea], b as [sb|sb| |sb mb eb]; simpl;
    try reflexivity;
    try (destruct sa; reflexivity); try (destruct sb; reflexivity);
    try (destruct sa, sb; reflexivity).
  destruct sa, sb; simpl; try reflexivity;
    rewrite (Z.compare_antisym ea eb);
    destruct (ea ?= eb); simpl; try reflexivity;
    rewrite (Pos.compare_cont_antisym _ _ Eq); simpl;
    try rewrite CompOpp_involutive; reflexivity.
Qed.

Lemma SFcompare_Eq (a b : float) :
  SFcompare a b = Some Eq ->
  a = b \/ (is_zero a = true /\ is_zero b = true).
Proof.
  destruct a as [sa|sa| |sa ma ea], b as [sb|sb| |sb mb eb]; simpl;
    try discriminate; try (destruct sa; discriminate);
    try (destruct sb; discriminate).
  - now right.
  - destruct sa, sb; try discriminate; now left.
  - destruct sa, sb; try discriminate;
      destruct (Z.compare_spec ea eb) as [->| |]; try discriminate;
      intros H; left; f_equal.
    all: apply Pos.compare_eq; unfold Pos.compare;
      destruct (Pos.compare_cont Eq ma mb); try discriminate; reflexivity.
Qed.

Lemma py_min_swap (a b : float) :
  is_nan a = false -> is_nan b = false -> opposite_zeros a b = false ->
  py_min a b = py_min b a.
Proof.
  intros Ha Hb Hz. unfold py_min, fltb, SFltb.
  rewrite (SFcompare_swap a b).
  destruct (SFcompare a b) as [[| |]|] eqn:E; simpl; try reflexivity.
  - destruct (SFcompare_Eq _ _ E) as [->|[Za Zb]]; [reflexivity|].
    destruct a, b; try discriminate. simpl in Hz.
    destruct s, s0; try discriminate; reflexivity.
  - destruct a, b; simpl in *; try discriminate; destruct s; discriminate.
Qed.

Lemma SFabs_binary_round (s : bool) (m : positive) (e : Z) :
  SFabs (binary_round prec emax s m e) = SFabs (binary_round prec emax false m e).
Proof.
  unfold binary_round, binary_round_aux.
  destruct (shl_align _ _ _) as [mz ez].
  destruct (shr_fexp _ _ _ _ _) as [mrs' e'].
  destruct (shr_fexp _ _ _ _ _) as [mrs'' e''].
  destruct (shr_m mrs''); try reflexivity.
  destruct (_ <=? _); reflexivity.
Qed.

Lemma SFabs_binary_normalize_opp (m e : Z) :
  SFabs (binary_normalize prec emax (- m) e false)
  = SFabs (binary_normalize prec emax m e false).
Proof.
  destruct m; simpl; try reflexivity.
  - now rewrite SFabs_binary_round.
  - now rewrite (SFabs_binary_round true).
Qed.

Lemma fabs_fsub_swap (a b : float) : fabs (fsub a b) = fabs (fsub b a).
Proof.
  unfold fabs, fsub.
  destruct a as [sa|sa| |sa ma ea], b as [sb|sb| |sb mb eb];
    try reflexivity;
    try (destruct sa, sb; reflexivity).
  cbn [SFsub]. rewrite (Z.min_comm eb ea).
  rewrite <- SFabs_binary_normalize_opp. f_equal. f_equal. lia.
Qed.

(** ** [straincontrol] and the loop of [polycurve] *)

Lemma fpow2_power2 (x : float) :
  power2_raises x = false -> fpow2 x = ok (power2 x).
Proof.
  unfold power2_raises, power2. destruct (fpow2 x); [discriminate | reflexivity].
Qed.

Lemma c_quot_3 (a : complex) :
  c_quot a (complex_of_int 3) = ok (c_div a (complex_of_int 3)).
Proof.
  unfold c_div, c_quot.
  replace (fltb (real (complex_of_int 3)) (S754_zero false)) with false
    by (vm_compute; reflexivity).
  replace (fltb (imag (complex_of_int 3)) (S754_zero false)) with false
    by (vm_compute; reflexivity).
  replace (SFleb (imag (complex_of_int 3)) (real (complex_of_int 3))) with true
    by (vm_compute; reflexivity).
  replace (SFeqb (real (complex_of_int 3)) (S754_zero false)) with false
    by (vm_compute; reflexivity).
  reflexivity.
Qed.

Lemma straincontrol_formula (q0 p0 p1 q1 : complex) :
  strain_defined q0 p0 p1 q1 = true ->
  straincontrol q0 p0 p1 q1
  = ok (p0, control_b q0 p0 p1 q1, control_c q0 p0 p1 q1, p1).
Proof.
  unfold strain_defined. intros H.
  apply andb_prop in H as [He Hsq].
  apply negb_true_iff in He, Hsq.
  unfold control_b, control_c, strain_a0, strain_a1, ieee_div.
  unfold strain_e, strain_v0, strain_v1, strain_d in *.
  unfold straincontrol. cbv zeta.
  rewrite (fpow2_power2 _ Hsq). unfold bind at 1. unfold ok at 1.
  unfold fdiv. rewrite He. unfold ok, bind at 1 2. cbv beta iota.
  rewrite !c_quot_3. reflexivity.
Qed.

Lemma getitem_nth {A : Type} (l : list A) (i : nat) (d : A) :
  (i < List.length l)%nat -> getitem l (Z.of_nat i) = ok (nth i l d).
Proof.
  intros H. unfold getitem.
  destruct (Z.ltb_spec (Z.of_nat i) 0); [lia|].
  destruct (Z.leb_spec 0 (Z.of_nat i)); [|lia].
  destruct (Z.ltb_spec (Z.of_nat i) (Z.of_nat (List.length l))); [|lia].
  simpl. rewrite Nat2Z.id.
  now rewrite (nth_error_nth' l d H).
Qed.

Lemma polycurve_loop_spec (points : list complex) (idx : list nat) :
  forall data,
    (forall i, In i idx ->
       (1 <= i)%nat /\ (i + 2 < List.length points)%nat
       /\ strain_defined (nth (i - 1) points nan_point) (nth i points nan_point)
            (nth (i + 1) points nan_point) (nth (i + 2) points nan_point) = true) ->
    polycurve_loop points (map Z.of_nat idx) data
    = ok (data ++ flat_map (segment_tokens points) idx)%list.
Proof.
  induction idx as [|i idx IH]; intros data H.
  - simpl. now rewrite app_nil_r.
  - destruct (H i (or_introl eq_refl)) as (H1 & H2 & Hd).
    cbn [map polycurve_loop].
    replace (Z.of_nat i - 1) with (Z.of_nat (i - 1)) by lia.
    replace (Z.of_nat i + 1) with (Z.of_nat (i + 1)) by lia.
    replace (Z.of_nat i + 2) with (Z.of_nat (i + 2)) by lia.
    rewrite !(getitem_nth points _ nan_point) by lia.
    unfold ok, bind at 1 2 3 4. cbv beta iota.
    rewrite (straincontrol_formula _ _ _ _ Hd).
    unfold ok, bind at 1. cbv beta iota.
    rewrite IH by (intros j Hj; apply H; now right).
    unfold _point, segment_tokens. cbn [flat_map].
    now rewrite <- !app_assoc.
Qed.

Lemma py_range_seq (n : nat) :
  py_range 1 (Z.of_nat n - 2) = map Z.of_nat (seq 1 (n - 3)).
Proof.
  unfold py_range.
  replace (Z.to_nat (Z.of_nat n - 2 - 1)) with (n - 3)%nat by lia.
  rewrite <- seq_shift, !map_map. apply map_ext. intros k. lia.
Qed.

Lemma segment_tokens_length (points : list complex) (i : nat) :
  List.length (segment_tokens points i) = 6%nat.
Proof. reflexivity. Qed.

Lemma flat_map_segments_length (points : list complex) (idx : list nat) :
  List.length (flat_map (segment_tokens points) idx) = (6 * List.length idx)%nat.
Proof.
  induction idx as [|i idx IH]; [reflexivity|].
  cbn [flat_map]. rewrite length_app, IH, segment_tokens_length. simpl. lia.
Qed.

Lemma interior_nth (points : list complex) i q0 p0 p1 q1 :
  interior points i q0 p0 p1 q1 ->
  (1 <= i)%nat /\ (i + 2 < List.length points)%nat
  /\ nth (i - 1) points nan_point = q0 /\ nth i points nan_point = p0
  /\ nth (i + 1) points nan_point = p1 /\ nth (i + 2) points nan_point = q1.
Proof.
  intros (H1 & Ha & Hb & Hc & Hd).
  repeat split; try (now apply nth_error_nth); try lia.
  apply nth_error_Some. congruence.
Qed.

Lemma nth_interior (points : list complex) i :
  (1 <= i)%nat -> (i + 2 < List.length points)%nat ->
  interior points i (nth (i - 1) points nan_point) (nth i points nan_point)
    (nth (i + 1) points nan_point) (nth (i + 2) points nan_point).
Proof.
  intros H1 H2. unfold interior.
  repeat split; try assumption; apply nth_error_nth'; lia.
Qed.

(** ** Decimal numerals: lemmas *)

Lemma digit_val_digit_char (d : Z) :
  0 <= d <= 9 -> digit_val (digit_char d) = Some d.
Proof.
  intros H. unfold digit_val, digit_char.
  rewrite nat_ascii_embedding by lia.
  destruct (Z.leb_spec 48 (Z.of_nat (48 + Z.to_nat d))); [|lia].
  destruct (Z.leb_spec (Z.of_nat (48 + Z.to_nat d)) 57); [|lia].
  cbn [andb]. f_equal. lia.
Qed.

Lemma digit_val_not_point (c : ascii) (d : Z) :
  digit_val c = Some d ->
  Ascii.eqb c "." = false /\ Ascii.eqb c "-" = false /\ 0 <= d <= 9.
Proof.
  unfold digit_val.
  destruct (Z.leb_spec 48 (Z.of_nat (nat_of_ascii c))); [|discriminate].
  destruct (Z.leb_spec (Z.of_nat (nat_of_ascii c)) 57); [|discriminate].
  cbn [andb]. intros [= <-]. repeat split; try lia.
  - destruct (Ascii.eqb_spec c "."); [subst; vm_compute in *; tauto | reflexivity].
  - destruct (Ascii.eqb_spec c "-"); [subst; vm_compute in *; tauto | reflexivity].
Qed.

Lemma uint_all_digits (u : Decimal.uint) :
  all_digits (NilEmpty.string_of_uint u) = true.
Proof. induction u; simpl; auto. Qed.

Ltac eval_digit_val :=
  match goal with
  | |- context [digit_val ?c] =>
      let v := eval vm_compute in (digit_val c) in
      change (digit_val c) with v
  end; cbv beta iota.

Lemma parse_digits_uint_acc (u : Decimal.uint) (p : positive) :
  parse_digits (Z.pos p) (NilEmpty.string_of_uint u)
  = Some (Z.pos (Pos.of_uint_acc u p)).
Proof.
  revert p; induction u; intros p;
    cbn [NilEmpty.string_of_uint Pos.of_uint_acc parse_digits];
    try reflexivity;
    eval_digit_val; rewrite <- IHu; f_equal; lia.
Qed.

Lemma parse_digits_uint (u : Decimal.uint) :
  parse_digits 0 (NilEmpty.string_of_uint u) = Some (Z.of_N (N.of_uint u)).
Proof.
  unfold N.of_uint.
  induction u; cbn [NilEmpty.string_of_uint Pos.of_uint parse_digits];
    try reflexivity; eval_digit_val;
    first [ exact IHu | apply (parse_digits_uint_acc u) ].
Qed.

Lemma str_of_nat_spec (n : Z) :
  0 <= n ->
  parse_digits 0 (str_of_nat n) = Some n
  /\ all_digits (str_of_nat n) = true
  /\ str_of_nat n <> "".
Proof.
  intros Hn. unfold str_of_nat.
  set (u := N.to_uint (Z.to_N n)).
  assert (Hu : NilZero.string_of_uint u = NilEmpty.string_of_uint u /\ u <> Decimal.Nil).
  { unfold u. destruct (Z.to_N n) as [|p]; simpl; [split; [reflexivity | discriminate]|].
    pose proof (DecimalPos.Unsigned.to_uint_nonnil p) as Hnn.
    destruct (Pos.to_uint p); try (split; [reflexivity | discriminate]).
    now destruct Hnn. }
  destruct Hu as [-> Hnn]. repeat split.
  - rewrite parse_digits_uint. unfold u.
    rewrite DecimalN.Unsigned.of_to. f_equal. lia.
  - apply uint_all_digits.
  - destruct u; simpl; try discriminate. now destruct Hnn.
Qed.

(** ** [rstrip]: lemmas *)

Lemma append_nonempty_r (s t : string) : t <> "" -> s ++ t <> "".
Proof. destruct s; simpl; [auto | discriminate]. Qed.

Lemma rstrip_app_nonempty (cs s t : string) :
  rstrip cs t <> "" -> rstrip cs (s ++ t) = s ++ rstrip cs t.
Proof.
  intros H. induction s as [|a s IH]; [reflexivity|].
  cbn [append rstrip]. rewrite IH.
  pose proof (append_nonempty_r s _ H) as Hne.
  destruct (s ++ rstrip cs t); [congruence | reflexivity].
Qed.

Lemma rstrip_app_empty (cs s t : string) :
  rstrip cs t = "" -> rstrip cs (s ++ t) = rstrip cs s.
Proof.
  intros H. induction s as [|a s IH]; [exact H|].
  cbn [append rstrip]. now rewrite IH.
Qed.

Lemma rstrip_keeps (cs s : string) :
  (forall c, last_char s = Some c -> mem_char c cs = false) ->
  rstrip cs s = s.
Proof.
  induction s as [|a s IH]; intros H; [reflexivity|].
  cbn [rstrip]. destruct s as [|b s].
  - cbn [rstrip]. now rewrite (H a eq_refl).
  - rewrite IH by (intros c Hc; apply H; exact Hc).
    reflexivity.
Qed.

Lemma last_char_app (s t : string) :
  t <> "" -> last_char (s ++ t) = last_char t.
Proof.
  intros H. induction s as [|a s IH]; [reflexivity|].
  cbn [append last_char]. rewrite IH.
  pose proof (append_nonempty_r s _ H) as Hne.
  destruct (s ++ t); [congruence | reflexivity].
Qed.

Lemma mem_char_app (c : ascii) (s t : string) :
  mem_char c (s ++ t) = mem_char c s || mem_char c t.
Proof.
  induction s as [|a s IH]; [reflexivity|].
  cbn [append mem_char]. rewrite IH. now rewrite orb_assoc.
Qed.

Lemma all_digits_no_point (s : string) :
  all_digits s = true -> mem_char "." s = false.
Proof.
  induction s as [|a s IH]; [reflexivity|]. cbn [all_digits mem_char].
  destruct (digit_val a) as [d|] eqn:E; [|discriminate].
  destruct (digit_val_not_point _ _ E) as (Hp & _ & _).
  intros H. rewrite Hp, (IH H). reflexivity.
Qed.

Lemma all_digits_last (s : string) (c : ascii) :
  all_digits s = true -> last_char s = Some c -> exists d, digit_val c = Some d.
Proof.
  induction s as [|a s IH]; [discriminate|]. cbn [all_digits].
  destruct (digit_val a) as [d|] eqn:E; [|discriminate].
  intros H. destruct s as [|b s].
  - intros [= <-]. eauto.
  - intros Hl. apply IH; assumption.
Qed.

Lemma split_point_digits (s t : string) :
  all_digits s = true ->
  split_point (s ++ t) = (s ++ fst (split_point t), snd (split_point t)).
Proof.
  induction s as [|a s IH]; [intros _; simpl; now destruct (split_point t)|].
  cbn [all_digits append split_point].
  destruct (digit_val a) as [d|] eqn:E; [|discriminate].
  destruct (digit_val_not_point _ _ E) as (Hp & _ & _).
  intros H. rewrite Hp, (IH H). reflexivity.
Qed.

(** The numeral [pre] or [pre.fs] is read as expected. *)
Lemma parse_unsigned_int (ip : string) (i : Z) :
  all_digits ip = true -> ip <> "" -> parse_digits 0 ip = Some i ->
  parse_unsigned ip = Some (i # 1).
Proof.
  intros Hd Hne Hp. unfold parse_unsigned.
  rewrite <- (append_nil_r ip) at 1.
  rewrite (split_point_digits ip "" Hd). cbn [split_point fst snd].
  rewrite append_nil_r. unfold parse_nat.
  destruct ip; [congruence|]. now rewrite Hp.
Qed.

Lemma parse_unsigned_frac (ip fs : string) (i f : Z) :
  all_digits ip = true -> ip <> "" -> parse_digits 0 ip = Some i ->
  fs <> "" -> parse_digits 0 fs = Some f ->
  parse_unsigned (ip ++ String "." fs)
  = Some ((i * 10 ^ Z.of_nat (String.length fs) + f)
            # Z.to_pos (10 ^ Z.of_nat (String.length fs))).
Proof.
  intros Hd Hne Hp Hfne Hf. unfold parse_unsigned.
  rewrite (split_point_digits ip _ Hd). cbn [split_point fst snd].
  change (Ascii.eqb "." ".") with true. cbv iota. cbn [fst snd].
  rewrite append_nil_r. unfold parse_nat.
  destruct ip; [congruence|]. rewrite Hp.
  destruct fs; [congruence|]. now rewrite Hf.
Qed.

Lemma mem_digit_zero (d : Z) :
  0 <= d <= 9 -> mem_char (digit_char d) "0" = (d =? 0).
Proof.
  intros H.
  assert (E : d = 0 \/ d = 1 \/ d = 2 \/ d = 3 \/ d = 4 \/ d = 5 \/ d = 6
              \/ d = 7 \/ d = 8 \/ d = 9) by lia.
  repeat (destruct E as [-> | E]; [reflexivity|]). subst; reflexivity.
Qed.

Lemma mem_digit_point (d : Z) :
  0 <= d <= 9 -> mem_char (digit_char d) "." = false.
Proof.
  intros H.
  assert (E : d = 0 \/ d = 1 \/ d = 2 \/ d = 3 \/ d = 4 \/ d = 5 \/ d = 6
              \/ d = 7 \/ d = 8 \/ d = 9) by lia.
  repeat (destruct E as [-> | E]; [reflexivity|]). subst; reflexivity.
Qed.

Lemma strip_fraction (pre : string) (d3 d2 d1 d0 : Z) :
  0 <= d3 <= 9 -> 0 <= d2 <= 9 -> 0 <= d1 <= 9 -> 0 <= d0 <= 9 ->
  rstrip "." pre = pre ->
  rstrip "." (rstrip "0"
    (pre ++ String "." (String (digit_char d3) (String (digit_char d2)
       (String (digit_char d1) (String (digit_char d0) ""))))))
  = pre ++ kept_fraction d3 d2 d1 d0.
Proof.
  intros H3 H2 H1 H0 Hpre.
  pose proof (mem_digit_zero _ H3) as Z3. pose proof (mem_digit_zero _ H2) as Z2.
  pose proof (mem_digit_zero _ H1) as Z1. pose proof (mem_digit_zero _ H0) as Z0.
  pose proof (mem_digit_point _ H3) as P3. pose proof (mem_digit_point _ H2) as P2.
  pose proof (mem_digit_point _ H1) as P1. pose proof (mem_digit_point _ H0) as P0.
  unfold kept_fraction.
  set (c3 := digit_char d3) in *. set (c2 := digit_char d2) in *.
  set (c1 := digit_char d1) in *. set (c0 := digit_char d0) in *.
  assert (Hpt : mem_char "." "0" = false) by reflexivity.
  assert (Hpp : mem_char "." "." = true) by reflexivity.
  destruct (d0 =? 0); cbn [negb].
  2:{ rewrite rstrip_app_nonempty; cbn [rstrip]; rewrite ?Z0; try discriminate.
      rewrite rstrip_app_nonempty; cbn [rstrip]; rewrite ?P0; try discriminate.
      reflexivity. }
  destruct (d1 =? 0); cbn [negb].
  2:{ rewrite rstrip_app_nonempty; cbn [rstrip]; rewrite ?Z0, ?Z1; try discriminate.
      rewrite rstrip_app_nonempty; cbn [rstrip]; rewrite ?P1; try discriminate.
      reflexivity. }
  destruct (d2 =? 0); cbn [negb].
  2:{ rewrite rstrip_app_nonempty; cbn [rstrip]; rewrite ?Z0, ?Z1, ?Z2;
        try discriminate.
      rewrite rstrip_app_nonempty; cbn [rstrip]; rewrite ?P2; try discriminate.
      reflexivity. }
  destruct (d3 =? 0); cbn [negb].
  2:{ rewrite rstrip_app_nonempty; cbn [rstrip]; rewrite ?Z0, ?Z1, ?Z2, ?Z3;
        try discriminate.
      rewrite rstrip_app_nonempty; cbn [rstrip]; rewrite ?P3; try discriminate.
      reflexivity. }
  rewrite rstrip_app_nonempty; cbn [rstrip]; rewrite ?Z0, ?Z1, ?Z2, ?Z3, ?Hpt;
    try discriminate.
  rewrite rstrip_app_empty; cbn [rstrip]; rewrite ?Hpp; try reflexivity.
  now rewrite append_nil_r.
Qed.

Lemma digit_mem_point (c : ascii) (d : Z) :
  digit_val c = Some d -> mem_char c "." = false.
Proof.
  intros H. destruct (digit_val_not_point _ _ H) as (Hp & _ & _).
  cbn [mem_char]. rewrite orb_false_r.
  destruct (Ascii.eqb_spec "." c) as [<-|]; [discriminate Hp | reflexivity].
Qed.

Lemma parse_decimal_signed (s : bool) (ip t : string) :
  all_digits ip = true -> ip <> "" ->
  parse_decimal (sign_str s ++ ip ++ t)
  = if s then option_map Qopp (parse_unsigned (ip ++ t))
    else parse_unsigned (ip ++ t).
Proof.
  intros Hd Hne. destruct s; [reflexivity|].
  cbn [sign_str append]. destruct ip as [|a r]; [congruence|].
  cbn [append parse_decimal]. cbn [all_digits] in Hd.
  destruct (digit_val a) as [d|] eqn:E; [|discriminate].
  destruct (digit_val_not_point _ _ E) as (_ & Hm & _).
  now rewrite Hm.
Qed.

Lemma last_digit_char (d : Z) :
  0 <= d <= 9 -> (d =? 0) = false ->
  Some (digit_char d) <> Some "."%char /\ Some (digit_char d) <> Some "0"%char.
Proof.
  intros H Hz. pose proof (mem_digit_zero _ H) as Z0.
  pose proof (mem_digit_point _ H) as P0.
  split; intros [= E]; rewrite E in *; [discriminate P0|].
  rewrite Hz in Z0. discriminate Z0.
Qed.

(** The formatted text of a scaled value [n / 10^4] with sign [s]. *)
Lemma coord_of_scaled (s : bool) (n : Z) :
  0 <= n ->
  let c := rstrip "." (rstrip "0" (sign_str s ++ fixed4 n)) in
  exists q,
    parse_decimal c = Some q
    /\ (q == (if s then - n else n) # 10000)%Q
    /\ last_char c <> Some "."%char
    /\ (mem_char "." c = true -> last_char c <> Some "0"%char).
Proof.
  intros Hn. cbv zeta. unfold fixed4.
  set (i := n / 10000) in *. set (f := n mod 10000) in *.
  set (d3 := f / 1000) in *. set (d2 := f / 100 mod 10) in *.
  set (d1 := f / 10 mod 10) in *. set (d0 := f mod 10) in *.
  assert (Hf : 0 <= f < 10000) by (apply Z.mod_pos_bound; lia).
  assert (Hi : 0 <= i) by (apply Z.div_pos; lia).
  assert (Hni : n = 10000 * i + f) by (apply Z.div_mod; lia).
  clearbody f i.
  assert (H3 : 0 <= d3 <= 9) by (unfold d3; Z.div_mod_to_equations; lia).
  assert (H2 : 0 <= d2 <= 9) by (unfold d2; Z.div_mod_to_equations; lia).
  assert (H1 : 0 <= d1 <= 9) by (unfold d1; Z.div_mod_to_equations; lia).
  assert (H0 : 0 <= d0 <= 9) by (unfold d0; Z.div_mod_to_equations; lia).
  assert (Hfd : f = 1000 * d3 + 100 * d2 + 10 * d1 + d0)
    by (unfold d3, d2, d1, d0; Z.div_mod_to_equations; lia).
  assert (Hf1 : (d0 =? 0) = true -> f / 10 = 100 * d3 + 10 * d2 + d1)
    by (intros Hz; apply Z.eqb_eq in Hz; revert Hz;
        unfold d3, d2, d1, d0; Z.div_mod_to_equations; lia).
  assert (Hf2 : (d0 =? 0) = true -> (d1 =? 0) = true -> f / 100 = 10 * d3 + d2)
    by (intros Hz Hz'; apply Z.eqb_eq in Hz, Hz'; revert Hz Hz';
        unfold d3, d2, d1, d0; Z.div_mod_to_equations; lia).
  assert (Hf3 : f / 1000 = d3) by reflexivity.
  assert (Hz0 : (d0 =? 0) = true -> d0 = 0) by apply Z.eqb_eq.
  assert (Hz1 : (d1 =? 0) = true -> d1 = 0) by apply Z.eqb_eq.
  assert (Hz2 : (d2 =? 0) = true -> d2 = 0) by apply Z.eqb_eq.
  assert (Hz3 : (d3 =? 0) = true -> d3 = 0) by apply Z.eqb_eq.
  clearbody d3 d2 d1 d0.
  destruct (str_of_nat_spec i Hi) as (Hpi & Hdi & Hnei).
  set (ip := str_of_nat i) in *.
  assert (Hlast : forall a, last_char (sign_str s ++ ip) = Some a ->
                            mem_char a "." = false).
  { intros a. rewrite last_char_app by exact Hnei. intros Ha.
    destruct (all_digits_last _ _ Hdi Ha) as [d Hd].
    exact (digit_mem_point _ _ Hd). }
  assert (Hc : rstrip "." (rstrip "0"
                 (sign_str s ++ ip ++ "."
                    ++ String (digit_char d3) (String (digit_char d2)
                         (String (digit_char d1) (String (digit_char d0) "")))))
               = sign_str s ++ ip ++ kept_fraction d3 d2 d1 d0).
  { change ("." ++ ?x) with (String "." x).
    rewrite <- (append_assoc (sign_str s) ip).
    rewrite (strip_fraction _ d3 d2 d1 d0 H3 H2 H1 H0 (rstrip_keeps _ _ Hlast)).
    apply append_assoc. }
  rewrite Hc. clear Hc.
  pose proof (digit_val_digit_char _ H3) as V3.
  pose proof (digit_val_digit_char _ H2) as V2.
  pose proof (digit_val_digit_char _ H1) as V1.
  pose proof (digit_val_digit_char _ H0) as V0.
  rewrite parse_decimal_signed by assumption.
  rewrite <- (append_assoc (sign_str s) ip).
  unfold kept_fraction.
  destruct (d0 =? 0) eqn:E0; cbn [negb].
  2:{ rewrite (parse_unsigned_frac ip _ i f Hdi Hnei Hpi);
        [| discriminate | cbn [parse_digits]; rewrite V3, V2, V1, V0; f_equal; lia].
      rewrite last_char_app by discriminate. cbn [last_char String.length].
      change (10 ^ Z.of_nat 4) with 10000. change (Z.to_pos 10000) with 10000%positive.
      destruct (last_digit_char d0 H0 E0) as [La Lb].
      destruct s; eexists; (split; [reflexivity|]); (split; [|split; auto]);
        unfold Qeq; cbn [Qnum Qden Qopp]; lia. }
  destruct (d1 =? 0) eqn:E1; cbn [negb].
  2:{ rewrite (parse_unsigned_frac ip _ i (f / 10) Hdi Hnei Hpi);
        [| discriminate | cbn [parse_digits]; rewrite V3, V2, V1; f_equal; lia].
      rewrite last_char_app by discriminate. cbn [last_char String.length].
      change (10 ^ Z.of_nat 3) with 1000. change (Z.to_pos 1000) with 1000%positive.
      destruct (last_digit_char d1 H1 E1) as [La Lb].
      destruct s; eexists; (split; [reflexivity|]); (split; [|split; auto]);
        unfold Qeq; cbn [Qnum Qden Qopp]; lia. }
  destruct (d2 =? 0) eqn:E2; cbn [negb].
  2:{ rewrite (parse_unsigned_frac ip _ i (f / 100) Hdi Hnei Hpi);
        [| discriminate | cbn [parse_digits]; rewrite V3, V2; f_equal; lia].
      rewrite last_char_app by discriminate. cbn [last_char String.length].
      change (10 ^ Z.of_nat 2) with 100. change (Z.to_pos 100) with 100%positive.
      destruct (last_digit_char d2 H2 E2) as [La Lb].
      destruct s; eexists; (split; [reflexivity|]); (split; [|split; auto]);
        unfold Qeq; cbn [Qnum Qden Qopp]; lia. }
  destruct (d3 =? 0) eqn:E3; cbn [negb].
  2:{ rewrite (parse_unsigned_frac ip _ i (f / 1000) Hdi Hnei Hpi);
        [| discriminate | cbn [parse_digits]; rewrite V3; f_equal; lia].
      rewrite last_char_app by discriminate. cbn [last_char String.length].
      change (10 ^ Z.of_nat 1) with 10. change (Z.to_pos 10) with 10%positive.
      destruct (last_digit_char d3 H3 E3) as [La Lb].
      destruct s; eexists; (split; [reflexivity|]); (split; [|split; auto]);
        unfold Qeq; cbn [Qnum Qden Qopp]; lia. }
  rewrite !append_nil_r. rewrite (parse_unsigned_int ip i Hdi Hnei Hpi).
  assert (Hnp : mem_char "." (sign_str s ++ ip) = false).
  { rewrite mem_char_app, (all_digits_no_point _ Hdi). now destruct s. }
  assert (Hl : last_char (sign_str s ++ ip) <> Some "."%char).
  { intros Hl. specialize (Hlast _ Hl). discriminate Hlast. }
  destruct s; eexists; (split; [reflexivity|]);
    (split; [|split; [exact Hl | rewrite Hnp; discriminate]]);
    unfold Qeq; cbn [Qnum Qden Qopp]; lia.
Qed.

(** ** Rounding to four decimals *)

Lemma round_scaled_spec (m : positive) (e : Z) :
  0 <= round_scaled m e
  /\ (0 <= e -> round_scaled m e = Z.pos m * 10000 * 2 ^ e)
  /\ (e < 0 ->
      2 * Z.abs (round_scaled m e * 2 ^ (- e) - Z.pos m * 10000) <= 2 ^ (- e)).
Proof.
  unfold round_scaled.
  destruct (Z.leb_spec 0 e) as [He|He].
  - pose proof (Z.pow_nonneg 2 e ltac:(lia)).
    repeat split; [nia | lia].
  - assert (Hden : 0 < 2 ^ (- e)) by (apply Z.pow_pos_nonneg; lia).
    set (den := 2 ^ (- e)) in *. set (num := Z.pos m * 10000).
    pose proof (Z.div_mod num den ltac:(lia)) as Hdm.
    pose proof (Z.mod_pos_bound num den Hden) as Hr.
    assert (Hq : 0 <= num / den) by (apply Z.div_pos; lia).
    set (q := num / den) in *. set (r := num mod den) in *.
    clearbody q r den.
    repeat split; try lia;
      destruct (Z.compare_spec (2 * r) den); try destruct (Z.even q); nia.
Qed.

Lemma Qabs_diff_bound (a b : Z) (p : positive) :
  2 * Z.abs (a * Z.pos p - b * 10000) <= Z.pos p ->
  (Qabs ((a # 10000) - (b # p)) <= 1 # 10000)%Q.
Proof.
  intros H. unfold Qle, Qabs, Qminus, Qplus, Qopp. cbn [Qnum Qden].
  rewrite Pos2Z.inj_mul. nia.
Qed.

Lemma coord_close (s : bool) (m : positive) (e : Z) :
  let n := round_scaled m e in
  (Qabs (((if s then - n else n) # 10000)
         - float_value (S754_finite s m e)) <= 1 # 10000)%Q.
Proof.
  intros n. destruct (round_scaled_spec m e) as (Hn & Hge & Hlt). fold n in Hn, Hge, Hlt.
  unfold float_value.
  destruct (Z.leb_spec 0 e) as [He|He].
  - specialize (Hge He).
    pose proof (Z.pow_nonneg 2 e ltac:(lia)).
    apply Qabs_diff_bound. destruct s; nia.
  - specialize (Hlt He).
    assert (Hden : 0 < 2 ^ (- e)) by (apply Z.pow_pos_nonneg; lia).
    apply Qabs_diff_bound. rewrite Z2Pos.id by exact Hden.
    destruct s; nia.
Qed.

(** ** Claims *)

(** C8: [arbitrary_item] on an empty sequence or set raises the
    "No items to select." [IndexError], which is not the [StopIteration] of
    the exhausted iterator; on a non-empty one it returns the first item the
    iteration produces. *)
Theorem arbitrary_item_spec (A : Type) :
  arbitrary_item (@nil A) = raise (IndexError "No items to select.")
  /\ next (@nil A) = raise StopIteration
  /\ IndexError "No items to select." <> StopIteration
  /\ forall (x : A) (S : list A), arbitrary_item (x :: S) = ok x.
Proof.
  repeat split; try reflexivity. discriminate.
Qed.

(** C10: after construction the nesting counter is 1; circle, rectangle,
    polygon, polyline, polycurve, segment, arc and text leave it unchanged
    (whether they return or raise); a group that is emitted adds one,
    ungroup takes one off, and so does close. *)
Theorem nesting_counter :
  (forall h bbox out standalone prefix0 indentation0,
      nesting (self (__init__ h bbox out standalone prefix0 indentation0)) = 1)
  /\ (forall st center radius style more,
        nesting (self (fst (circle st center radius style more))) = nesting (self st))
  /\ (forall st p q style more,
        nesting (self (fst (rectangle st p q style more))) = nesting (self st))
  /\ (forall st points style more,
        nesting (self (fst (polygon st points style more))) = nesting (self st))
  /\ (forall st points style more,
        nesting (self (fst (polyline st points style more))) = nesting (self st))
  /\ (forall st points style more,
        nesting (self (fst (polycurve st points style more))) = nesting (self st))
  /\ (forall st p q style more,
        nesting (self (fst (segment st p q style more))) = nesting (self st))
  /\ (forall st p q r large style more,
        nesting (self (fst (arc st p q r large style more))) = nesting (self st))
  /\ (forall st label location style more,
        nesting (self (fst (text st label location style more))) = nesting (self st))
  /\ (forall st style more,
        nesting (self (fst (group st style more)))
        = match snd (group st style more) with
          | inr _ => nesting (self st) + 1
          | inl _ => nesting (self st)
          end)
  /\ (forall st style, snd (group st style []) = ok tt)
  /\ (forall st, nesting (self (ungroup st)) = nesting (self st) - 1)
  /\ (forall st, nesting (self (fst (close st))) = nesting (self st) - 1).
Proof.
  repeat match goal with |- _ /\ _ => split end; intros;
    try (unfold circle, rectangle, polygon, polyline, segment, arc;
         rewrite call_element_nesting; destruct (snd _); lia).
  - unfold __init__. rewrite element_nesting. reflexivity.
  - apply polycurve_nesting.
  - apply text_nesting.
  - unfold group. rewrite call_element_nesting. destruct (snd _); lia.
  - reflexivity.
  - unfold ungroup. rewrite element_nesting. lia.
  - apply close_nesting.
Qed.

(** C9: [element] never changes the style mapping it is given: it merges
    the keyword overrides into a copy, a new dictionary, so every dictionary
    that exists before a call of the API (the caller's mappings and the
    shared default mappings) is after any sequence of calls what it was
    before, and nothing leaks from one call to the next through a default
    style. *)
Theorem style_never_mutated :
  (forall st e delta unspaced style more,
      heap_of (element st e delta unspaced style more)
      = (heap_of st ++ [dict_update (deref (heap_of st) style) more])%list)
  /\ (forall (st : State) (cs : list call) (l : loc) (d : dict),
        nth_error (heap_of st) l = Some d ->
        nth_error (heap_of (fst (run_all st cs))) l = Some d).
Proof.
  split; [exact element_heap|].
  intros st cs; revert st; induction cs as [|c rest IH]; intros st l d H;
    simpl; [exact H|].
  pose proof (run_frame st c l d H) as Hc.
  destruct (run st c) as [st' [e|u]]; simpl in *; [exact Hc|].
  now apply IH.
Qed.



(** C5: [element] merges the style it is given with the keyword overrides:
    an override wins on a key both have, the keys of the given style keep
    their order and the new keys follow in theirs; a non-empty merged
    mapping is written as one attribute [style="k1:v1; k2:v2"] after the
    tag name, an empty one writes nothing. *)
Theorem element_style (st : State) e delta unspaced style more :
  NoDup (keys more) ->
  let base := deref (heap_of st) style in
  let merged := dict_update base more in
  (forall k, dict_get merged k
             = match dict_get more k with
               | Some v => Some v
               | None => dict_get base k
               end)
  /\ keys merged
     = (keys base ++ filter (fun k => negb (has_key base k)) (keys more))%list
  /\ stream (self (element st e delta unspaced style more))
     = stream (self st)
       ++ lead (self st) delta unspaced ++ "<"
       ++ (if delta <? 0 then "/" else "") ++ prefix (self st) ++ e
       ++ match merged with
          | [] => ""
          | _ => " style=" ++ dquote
                 ++ join "; " (map (fun kv => fst kv ++ ":" ++ snd kv) merged)
                 ++ dquote
          end
       ++ (if delta =? 0 then "/" else "") ++ ">"
       ++ (if (delta <=? 0) || negb unspaced then newline else "").
Proof.
  intros Hnd base merged. split; [|split].
  - intros k. now apply dict_get_update.
  - now apply keys_update.
  - rewrite element_stream, element_text_shape. reflexivity.
Qed.

Lemma element_style_witness :
  stream (self (element doc1 "g" 1 false 10%nat
                  [("stroke", "blue"); ("opacity", "0.5")]))
  = stream (self doc1)
    ++ "      <s:g style=" ++ dquote
    ++ "fill:red; stroke:blue; opacity:0.5" ++ dquote ++ ">" ++ newline.
Proof.
  assert (Hnd : NoDup (keys [("stroke", "blue"); ("opacity", "0.5")])).
  { repeat constructor; simpl; intuition discriminate. }
  exact (proj2 (proj2 (element_style doc1 "g" 1 false 10%nat
                         [("stroke", "blue"); ("opacity", "0.5")] Hnd))).
Defined.

(** C6 does not hold as stated: an unspaced opening tag is still indented. *)
Lemma unspaced_open_is_indented :
  element_text doc0 "text" 1 true default_style_element [] = "  <text>"
  /\ ~ (exists rest,
          element_text doc0 "text" 1 true default_style_element []
          = String "<" rest).
Proof.
  split; [reflexivity|]. intros [rest H]. vm_compute in H. discriminate H.
Qed.

(** C6, amended: the tag is preceded by [indentation + 2*depth] spaces
    (none when that number is negative), where a closing tag uses the depth
    after the decrement and the others the depth before the increment,
    whenever [delta >= 0] or the tag is not unspaced; only an unspaced
    closing tag has no leading whitespace; the newline after the tag is
    written exactly when [delta <= 0] or the tag is not unspaced. *)
Theorem element_whitespace (st : State) e delta unspaced style more :
  let s := self st in
  let depth := if delta <? 0 then nesting s + delta else nesting s in
  let body :=
    (if delta <? 0 then "/" else "") ++ prefix s ++ e
    ++ style_attribute (dict_update (deref (heap_of st) style) more)
    ++ (if delta =? 0 then "/" else "") in
  stream (self (element st e delta unspaced style more))
  = stream s
    ++ (if (delta >=? 0) || negb unspaced
        then spaces (indentation s + 2 * depth) else "")
    ++ "<" ++ body ++ ">"
    ++ (if (delta <=? 0) || negb unspaced then newline else "").
Proof.
  intros s depth body.
  rewrite element_stream, element_text_shape. unfold body, lead, depth, s.
  now rewrite !append_assoc.
Qed.

(** C1: the [y] attribute [rectangle] writes is the formatted minimum of the
    x-coordinates, not of the y-coordinates: for the corners [0+1j] and
    [2+3j] it is [0] where the lower corner has [y = 1]. *)
Theorem rectangle_y_attribute :
  let p := cx 0 1 in
  let q := cx 2 3 in
  rectangle_tag p q
  = "rect x=" ++ quoted "0" ++ " y=" ++ quoted "0"
    ++ " width=" ++ quoted "2" ++ " height=" ++ quoted "2"
  /\ _coord (py_min (real p) (real q)) = "0"
  /\ _coord (py_min (imag p) (imag q)) = "1"
  /\ snd (rectangle doc0 p q None []) = ok tt
  /\ stream (self (fst (rectangle doc0 p q None [])))
     = stream (self doc0) ++ "  <" ++ rectangle_tag p q ++ "/>" ++ newline.
Proof.
  vm_compute. repeat split; reflexivity.
Qed.

(** C7 does not hold as stated: with x-coordinates [0.0] and [-0.0] the two
    orders of the corners write different [x] and [y] attributes, and so
    they do when one x-coordinate is nan. *)
Lemma rectangle_swap_signed_zero :
  let p := Complex (S754_zero false) (S754_zero false) in
  let q := Complex (S754_zero true) (S754_zero false) in
  let r := Complex S754_nan (S754_zero false) in
  rectangle_tag p q
  = "rect x=" ++ quoted "0" ++ " y=" ++ quoted "0"
    ++ " width=" ++ quoted "0" ++ " height=" ++ quoted "0"
  /\ rectangle_tag q p
     = "rect x=" ++ quoted "-0" ++ " y=" ++ quoted "-0"
       ++ " width=" ++ quoted "0" ++ " height=" ++ quoted "0"
  /\ stream (self (fst (rectangle doc0 p q None [])))
     <> stream (self (fst (rectangle doc0 q p None [])))
  /\ rectangle_tag p r <> rectangle_tag r p.
Proof.
  vm_compute. repeat split; try reflexivity; discriminate.
Qed.

(** C7, amended: when the x-coordinates of [p] and [q] are not nan and are
    not zeros of opposite sign, [rectangle(p, q, style)] and
    [rectangle(q, p, style)] write the same text and end the same way. *)
Theorem rectangle_swap (st : State) (p q : complex) (style : option loc)
    (more : dict) :
  is_nan (real p) = false -> is_nan (real q) = false ->
  opposite_zeros (real p) (real q) = false ->
  rectangle st p q style more = rectangle st q p style more.
Proof.
  intros Hp Hq Hz. unfold rectangle. f_equal.
  unfold rectangle_tag, c_sub. cbn [real imag].
  rewrite (py_min_swap _ _ Hp Hq Hz).
  rewrite (fabs_fsub_swap (real p) (real q)).
  rewrite (fabs_fsub_swap (imag p) (imag q)).
  reflexivity.
Qed.

Lemma rectangle_swap_witness :
  rectangle doc0 (cx 0 1) (cx 2 3) None [("fill", "red")]
  = rectangle doc0 (cx 2 3) (cx 0 1) None [("fill", "red")].
Proof.
  apply (rectangle_swap doc0 (cx 0 1) (cx 2 3) None [("fill", "red")]);
    reflexivity.
Defined.

(** C4, amended: for at least 4 points, when for every interior quadruple
    [(q0, p0, p1, q1) = (points[i-1], points[i], points[i+1], points[i+2])]
    the determinant [e] is not zero and the power [dot(v0,v1)**2] does not
    raise [OverflowError], [polycurve] writes one path element with the
    data it has built, and for each such quadruple [straincontrol] returns
    [p0, p0 + a0*v0/3, p1 - a1*v1/3, p1] with [v0], [v1], [d], [e], [a0],
    [a1] as documented; the path data holds the coordinates of the last
    three of them at positions [6i-2 .. 6i+3], right after those of [p0]
    (and after the "C" for the first segment). *)
Theorem polycurve_segments (st : State) (points : list complex)
    (style : option loc) (more : dict) :
  (4 <= List.length points)%nat ->
  (forall i q0 p0 p1 q1,
      interior points i q0 p0 p1 q1 ->
      is_zero (strain_e q0 p0 p1 q1) = false
      /\ power2_raises (dot (c_sub p1 q0) (c_sub q1 p0)) = false) ->
  exists data,
    polycurve_data points = ok data
    /\ polycurve st points style more
       = call_element st ("path d=" ++ quoted (join " " data)) None None
           (style_arg default_style_polycurve style) more
    /\ (binds_parameter more = false ->
        snd (polycurve st points style more) = ok tt
        /\ stream (self (fst (polycurve st points style more)))
           = stream (self st)
             ++ spaces (indentation (self st) + 2 * nesting (self st))
             ++ "<" ++ prefix (self st)
             ++ "path d=" ++ quoted (join " " data)
             ++ style_attribute
                  (dict_update
                     (deref (heap_of st) (style_arg default_style_polycurve style))
                     more)
             ++ "/>" ++ newline)
    /\ forall i q0 p0 p1 q1,
        interior points i q0 p0 p1 q1 ->
        let v0 := c_sub p1 q0 in
        let v1 := c_sub q1 p0 in
        let d := c_prod (complex_of_int 3) (c_sub p1 p0) in
        let e := fsub (fmul (fmul (float_of_Z 4) (dot v0 v0)) (dot v1 v1))
                      (power2 (dot v0 v1)) in
        let a0 := ieee_div (fsub (fmul (fmul (float_of_Z 2) (dot d v0)) (dot v1 v1))
                                 (fmul (dot d v1) (dot v0 v1))) e in
        let a1 := ieee_div (fsub (fmul (fmul (float_of_Z 2) (dot d v1)) (dot v0 v0))
                                 (fmul (dot d v0) (dot v0 v1))) e in
        let b := c_add p0 (c_div (c_prod (complex_of_float a0) v0)
                                 (complex_of_int 3)) in
        let c := c_sub p1 (c_div (c_prod (complex_of_float a1) v1)
                                 (complex_of_int 3)) in
        straincontrol q0 p0 p1 q1 = ok (p0, b, c, p1)
        /\ exists pre post,
            data = (pre ++ coords p0 ++ (if (i =? 1)%nat then ["C"] else [])
                      ++ coords b ++ coords c ++ coords p1 ++ post)%list
            /\ List.length pre = (if (i =? 1)%nat then 1 else 6 * i - 4)%nat.
Proof.
  intros Hlen Hdef.
  assert (Hd : forall i q0 p0 p1 q1, interior points i q0 p0 p1 q1 ->
                strain_defined q0 p0 p1 q1 = true).
  { intros i q0 p0 p1 q1 Hi. destruct (Hdef _ _ _ _ _ Hi) as [He Hsq].
    unfold strain_defined, strain_v0, strain_v1. now rewrite He, Hsq. }
  set (n := List.length points) in *.
  assert (Hdata : polycurve_data points
                  = ok ((["M"] ++ coords (nth 1 points nan_point) ++ ["C"])
                          ++ flat_map (segment_tokens points) (seq 1 (n - 3)))%list).
  { unfold polycurve_data.
    change 1 with (Z.of_nat 1) at 1.
    rewrite (getitem_nth points 1 nan_point) by (fold n; lia).
    unfold ok, bind at 1. cbv beta iota. fold n.
    rewrite py_range_seq, polycurve_loop_spec.
    - unfold _point. now rewrite <- !app_assoc.
    - intros i Hi. apply in_seq in Hi.
      assert (H1 : (1 <= i)%nat) by lia.
      assert (H2 : (i + 2 < List.length points)%nat) by (fold n; lia).
      repeat split; try assumption.
      apply (Hd i). now apply nth_interior. }
  eexists; split; [exact Hdata|].
  set (data := ((["M"] ++ coords (nth 1 points nan_point) ++ ["C"])
                  ++ flat_map (segment_tokens points) (seq 1 (n - 3)))%list) in *.
  set (tag := "path d=" ++ quoted (join " " data)).
  set (sty := style_arg default_style_polycurve style).
  assert (Hpc : polycurve st points style more
                = call_element st tag None None sty more).
  { unfold polycurve. rewrite Hdata. reflexivity. }
  split; [exact Hpc|]. split.
  { intros Hb. rewrite Hpc.
    assert (Hce : call_element st tag None None sty more
                  = (element st tag 0 false sty more, ok tt)).
    { unfold binds_parameter in Hb. apply orb_false_iff in Hb as [Hb Hu].
      unfold call_element. rewrite Hb. unfold has_key in Hu.
      destruct (dict_get more "unspaced"); [discriminate | reflexivity]. }
    rewrite Hce. cbn [fst snd]. split; [reflexivity|].
    rewrite element_stream, element_text_shape. unfold lead.
    cbn [Z.ltb Z.eqb Z.leb Z.geb Z.compare orb negb].
    unfold tag. rewrite !append_assoc. reflexivity. }
  subst data. clear tag sty Hpc.
  intros i q0 p0 p1 q1 Hi. cbv zeta.
  change (straincontrol q0 p0 p1 q1
          = ok (p0, control_b q0 p0 p1 q1, control_c q0 p0 p1 q1, p1)
          /\ exists pre post,
              ((["M"] ++ coords (nth 1 points nan_point) ++ ["C"])
                 ++ flat_map (segment_tokens points) (seq 1 (n - 3)))%list
              = (pre ++ coords p0 ++ (if (i =? 1)%nat then ["C"] else [])
                   ++ coords (control_b q0 p0 p1 q1)
                   ++ coords (control_c q0 p0 p1 q1) ++ coords p1 ++ post)%list
              /\ List.length pre = (if (i =? 1)%nat then 1 else 6 * i - 4)%nat).
  split; [apply straincontrol_formula; now apply (Hd i)|].
  destruct (interior_nth _ _ _ _ _ _ Hi) as (H1 & H2 & Nq0 & Np0 & Np1 & Nq1).
  fold n in H2.
  assert (Hseg : segment_tokens points i
                 = (coords (control_b q0 p0 p1 q1)
                      ++ coords (control_c q0 p0 p1 q1) ++ coords p1)%list).
  { unfold segment_tokens. now rewrite Nq0, Np0, Np1, Nq1. }
  replace (n - 3)%nat with ((i - 1) + S (n - 3 - i))%nat by lia.
  rewrite seq_app, flat_map_app.
  replace (1 + (i - 1))%nat with i by lia.
  cbn [seq flat_map]. rewrite Hseg.
  destruct (Nat.eqb_spec i 1) as [->|Hne].
  - exists ["M"], (flat_map (segment_tokens points) (seq 2 (n - 3 - 1))).
    split; [|reflexivity].
    cbn [Nat.sub seq flat_map]. rewrite Np0. cbn [app].
    now rewrite <- !app_assoc.
  - replace (i - 1)%nat with ((i - 2) + 1)%nat by lia.
    rewrite seq_app, flat_map_app.
    replace (1 + (i - 2))%nat with (i - 1)%nat by lia.
    cbn [seq flat_map]. rewrite app_nil_r.
    assert (Hprev : segment_tokens points (i - 1)
                    = (firstn 4 (segment_tokens points (i - 1)) ++ coords p0)%list).
    { unfold segment_tokens. replace (i - 1 + 1)%nat with i by lia.
      rewrite Np0. reflexivity. }
    rewrite Hprev.
    exists ((["M"] ++ coords (nth 1 points nan_point) ++ ["C"])
              ++ flat_map (segment_tokens points) (seq 1 (i - 2))
              ++ firstn 4 (segment_tokens points (i - 1)))%list,
      (flat_map (segment_tokens points) (seq (S i) (n - 3 - i))).
    split.
    + cbn [app]. now rewrite <- !app_assoc.
    + rewrite !length_app, flat_map_segments_length, length_seq.
      simpl. lia.
Qed.

(** C3: for every float [v] that denotes a real number, [_coord v] reads
    back as a number within [1e-4] of [v], does not end with ["."], and,
    when it has a decimal point, does not end with ["0"]; [2.5], [3.0] and
    [0.1234] are written ["2.5"], ["3"] and ["0.1234"]. *)
Theorem coord_roundtrip :
  (forall v : float,
      is_real v = true ->
      exists q : Q,
        parse_decimal (_coord v) = Some q
        /\ (Qabs (q - float_value v) <= 1 # 10000)%Q
        /\ last_char (_coord v) <> Some "."%char
        /\ (mem_char "." (_coord v) = true ->
            last_char (_coord v) <> Some "0"%char))
  /\ _coord (float_of_ratio 5 2) = "2.5"
  /\ _coord (float_of_Z 3) = "3"
  /\ _coord (float_of_ratio 1234 10000) = "0.1234".
Proof.
  split; [|repeat split; vm_compute; reflexivity].
  intros v Hv. destruct v as [s|s| |s m e]; try discriminate Hv.
  - destruct (coord_of_scaled s 0 ltac:(lia)) as (q & Hp & Hq & Hl & Hz).
    exists q. repeat split; try assumption.
    unfold float_value. rewrite Hq. now destruct s.
  - destruct (round_scaled_spec m e) as (Hn & _).
    destruct (coord_of_scaled s (round_scaled m e) Hn) as (q & Hp & Hq & Hl & Hz).
    exists q. repeat split; try assumption.
    rewrite Hq. apply coord_close.
Qed.

Lemma coord_roundtrip_witness :
  exists q : Q,
    parse_decimal (_coord (float_of_ratio 1 3)) = Some q
    /\ (Qabs (q - float_value (float_of_ratio 1 3)) <= 1 # 10000)%Q.
Proof.
  destruct (proj1 coord_roundtrip (float_of_ratio 1 3) eq_refl)
    as (q & Hp & Hq & _).
  exists q. split; assumption.
Defined.

(** ** Further properties of the SVG object *)

Lemma element_prefix (st : State) e delta unspaced style morestyle :
  prefix (self (element st e delta unspaced style morestyle)) = prefix (self st)
  /\ indentation (self (element st e delta unspaced style morestyle))
     = indentation (self st).
Proof. unfold element, alloc. split; reflexivity. Qed.

Lemma call_element_appends st e delta unspaced style morestyle :
  exists written,
    stream (self (fst (call_element st e delta unspaced style morestyle)))
    = stream (self st) ++ written
    /\ prefix (self (fst (call_element st e delta unspaced style morestyle)))
       = prefix (self st)
    /\ indentation (self (fst (call_element st e delta unspaced style morestyle)))
       = indentation (self st).
Proof.
  destruct (call_element_cases st e delta unspaced style morestyle)
    as [-> | (u & more & ->)].
  - exists "". cbn [fst]. now rewrite append_nil_r.
  - unfold ok; cbn [fst]. eexists. rewrite element_stream.
    split; [reflexivity | apply element_prefix].
Qed.

Lemma run_appends (st : State) (c : call) :
  exists written,
    stream (self (fst (run st c))) = stream (self st) ++ written
    /\ prefix (self (fst (run st c))) = prefix (self st)
    /\ indentation (self (fst (run st c))) = indentation (self st).
Proof.
  destruct c; cbn [run fst];
    unfold group, circle, rectangle, polygon, polyline, segment, arc;
    try apply call_element_appends.
  - eexists. rewrite element_stream. split; [reflexivity | apply element_prefix].
  - unfold ungroup. eexists. rewrite element_stream.
    split; [reflexivity | apply element_prefix].
  - unfold polycurve. destruct (polycurve_data points).
    + exists "". cbn [fst]. now rewrite append_nil_r.
    + apply call_element_appends.
  - unfold text.
    destruct (call_element_cases st
                ("text x=" ++ quoted (_coord (real location))
                   ++ " y=" ++ quoted (_coord (imag location)))
                (Some 1) (Some true) (style_arg default_style_text style) morestyle)
      as [-> | (u & more & ->)].
    + exists "". cbn [fst]. now rewrite append_nil_r.
    + unfold ok; cbn iota beta. cbn [fst].
      eexists. rewrite element_stream. cbn [self heap_of write stream].
      rewrite element_stream.
      destruct (element_prefix
                  (mkState (heap_of (element st
                     ("text x=" ++ quoted (_coord (real location))
                        ++ " y=" ++ quoted (_coord (imag location)))
                     1 u (style_arg default_style_text style) more))
                     (write (self (element st
                     ("text x=" ++ quoted (_coord (real location))
                        ++ " y=" ++ quoted (_coord (imag location)))
                     1 u (style_arg default_style_text style) more)) label))
                  "text" (-1) true default_style_element []) as [Hp Hi].
      rewrite Hp, Hi. cbn [self write prefix indentation].
      destruct (element_prefix st
                  ("text x=" ++ quoted (_coord (real location))
                     ++ " y=" ++ quoted (_coord (imag location)))
                  1 u (style_arg default_style_text style) more) as [Hp' Hi'].
      rewrite Hp', Hi'. rewrite !append_assoc. repeat split.
  - unfold close.
    destruct (nesting (self (element st "svg" (-1) false default_style_element []))
              =? 0); cbn [fst]; eexists; rewrite element_stream;
      (split; [reflexivity | apply element_prefix]).
Qed.

(** X1: a sequence of calls only ever appends to the stream, also when an
    exception ends it, and it changes neither the tag prefix nor the
    indentation of the document. *)
Theorem run_all_appends (st : State) (cs : list call) :
  exists written,
    stream (self (fst (run_all st cs))) = stream (self st) ++ written
    /\ prefix (self (fst (run_all st cs))) = prefix (self st)
    /\ indentation (self (fst (run_all st cs))) = indentation (self st).
Proof.
  revert st; induction cs as [|c rest IH]; intros st.
  - exists "". cbn [run_all fst]. now rewrite append_nil_r.
  - cbn [run_all]. destruct (run_appends st c) as (w & Hs & Hp & Hi).
    destruct (run st c) as [st' [e|u]]; cbn [fst] in *.
    + exists w. auto.
    + destruct (IH st') as (w' & Hs' & Hp' & Hi').
      exists (w ++ w'). rewrite Hs', Hs, Hp', Hp, Hi', Hi.
      now rewrite append_assoc.
Qed.

Lemma run_nesting (st : State) (c : call) :
  snd (run st c) = ok tt ->
  nesting (self (fst (run st c))) = nesting (self st) + depth_change c.
Proof.
  destruct c; cbn [run fst snd depth_change]; intros Hok;
    unfold group, circle, rectangle, polygon, polyline, segment, arc in *;
    try (rewrite call_element_nesting, Hok; unfold ok; lia).
  - apply element_nesting.
  - unfold ungroup. apply element_nesting.
  - rewrite polycurve_nesting. lia.
  - rewrite text_nesting. lia.
  - rewrite close_nesting. lia.
Qed.

Lemma run_all_nesting (cs : list call) (st st' : State) :
  run_all st cs = (st', ok tt) ->
  nesting (self st') = nesting (self st) + total_depth cs.
Proof.
  revert st; induction cs as [|c rest IH]; intros st.
  - cbn [run_all total_depth fold_right]. intros [= <-]. lia.
  - cbn [run_all total_depth fold_right]. fold (total_depth rest).
    pose proof (run_nesting st c) as Hc.
    destruct (run st c) as [st1 [e|[]]]; [discriminate|].
    cbn [fst snd] in Hc. intros H. rewrite (IH _ H), (Hc eq_refl). lia.
Qed.

(** X2: when a sequence of calls returns, the nesting counter has grown by
    the sum of what the calls add (1 for group, -1 for ungroup and close,
    delta for element, 0 for the shapes), and [close] then returns exactly
    when that leaves the root as the only open tag. *)
Theorem completed_run_nesting (st st' : State) (cs : list call) :
  run_all st cs = (st', ok tt) ->
  nesting (self st') = nesting (self st) + total_depth cs
  /\ (snd (close st') = ok tt <-> nesting (self st) + total_depth cs = 1).
Proof.
  intros H. pose proof (run_all_nesting _ _ _ H) as Hn. split; [exact Hn|].
  rewrite close_result, Hn.
  destruct (Z.eqb_spec (nesting (self st) + total_depth cs) 1) as [E|E];
    split; intros H'; try reflexivity; try assumption; try discriminate H'.
  contradiction.
Qed.

Lemma deref_default (h : heap) (l : loc) (d : dict) :
  nth_error h l = Some d -> deref h l = d.
Proof. intros H. unfold deref. now apply nth_error_nth. Qed.

(** X3: [close] writes the closing root tag, indented for the depth it
    closes, before it checks the nesting: the tag is on the stream also
    when [close] raises "SVG: Unclosed tags", which it does whenever the
    root is not the only open tag. *)
Theorem close_writes_end_tag (st : State) :
  nth_error (heap_of st) default_style_element = Some [] ->
  stream (self (fst (close st)))
  = stream (self st)
    ++ spaces (indentation (self st) + 2 * (nesting (self st) - 1))
    ++ "</" ++ prefix (self st) ++ "svg>" ++ newline
  /\ (nesting (self st) <> 1 ->
      snd (close st) = raise (Exception "SVG: Unclosed tags")).
Proof.
  intros Hd. split.
  - assert (Hs : stream (self (fst (close st)))
                 = stream (self (element st "svg" (-1) false
                                   default_style_element []))).
    { unfold close. now destruct (_ =? 0). }
    rewrite Hs, element_stream, element_text_shape.
    rewrite (deref_default _ _ _ Hd). unfold lead. cbn.
    replace (nesting (self st) + -1) with (nesting (self st) - 1) by lia.
    rewrite ?append_assoc. reflexivity.
  - intros Hn. rewrite close_result.
    destruct (Z.eqb_spec (nesting (self st)) 1); [contradiction | reflexivity].
Qed.

Lemma close_writes_end_tag_witness :
  stream (self (fst (close (fst (group doc0 None [])))))
  = stream (self (fst (group doc0 None []))) ++ "  </svg>" ++ newline
  /\ snd (close (fst (group doc0 None [])))
     = raise (Exception "SVG: Unclosed tags").
Proof.
  destruct (close_writes_end_tag (fst (group doc0 None [])) eq_refl) as [Hs Hr].
  split; [exact Hs | apply Hr; discriminate].
Defined.

Lemma call_element_plain st e delta unspaced style morestyle :
  binds_parameter morestyle = false ->
  call_element st e delta unspaced style morestyle
  = (element st e (match delta with Some d => d | None => 0 end)
       (match unspaced with Some u => u | None => false end) style morestyle,
     ok tt).
Proof.
  unfold binds_parameter, call_element. intros H.
  apply orb_false_iff in H as [H Hu]. rewrite H.
  unfold has_key in Hu. destruct (dict_get morestyle "unspaced"); [discriminate|].
  now destruct unspaced.
Qed.

(** X4: [text] with style keywords that name no parameter of [element]
    returns and writes one line: the indented opening tag with the
    coordinates and the style, the label exactly as given (nothing is
    escaped), the closing tag with no space before it, and a newline. *)
Theorem text_one_line (st : State) label location style more :
  binds_parameter more = false ->
  nth_error (heap_of st) default_style_element = Some [] ->
  snd (text st label location style more) = ok tt
  /\ stream (self (fst (text st label location style more)))
     = stream (self st)
       ++ spaces (indentation (self st) + 2 * nesting (self st))
       ++ "<" ++ prefix (self st)
       ++ "text x=" ++ quoted (_coord (real location))
       ++ " y=" ++ quoted (_coord (imag location))
       ++ style_attribute
            (dict_update (deref (heap_of st) (style_arg default_style_text style))
               more)
       ++ ">" ++ label ++ "</" ++ prefix (self st) ++ "text>" ++ newline.
Proof.
  intros Hb Hd. unfold text. rewrite (call_element_plain _ _ _ _ _ _ Hb).
  unfold ok; cbn iota beta. cbn [fst snd]. split; [reflexivity|].
  set (tag := "text x=" ++ quoted (_coord (real location))
                ++ " y=" ++ quoted (_coord (imag location))).
  set (st1 := element st tag 1 true (style_arg default_style_text style) more).
  rewrite element_stream, element_text_shape. cbn [self heap_of write stream].
  assert (Hd1 : deref (heap_of st1) default_style_element = []).
  { apply deref_default. unfold st1. now apply element_frame. }
  rewrite Hd1. unfold st1 at 1. rewrite element_stream, element_text_shape.
  destruct (element_prefix st tag 1 true (style_arg default_style_text style) more)
    as [Hp _]. fold st1 in Hp.
  unfold lead. cbn [Z.ltb Z.eqb Z.leb Z.geb Z.compare orb negb dict_update
                      fold_left style_attribute prefix write].
  rewrite Hp. unfold tag. rewrite !append_assoc. cbn [append].
  reflexivity.
Qed.

Lemma text_one_line_witness :
  stream (self (fst (text doc0 "a < b" (cx 1 2) None [("fill", "red")])))
  = stream (self doc0)
    ++ "  <text x=" ++ quoted "1" ++ " y=" ++ quoted "2"
    ++ " style=" ++ quoted "fill:red" ++ ">a < b</text>" ++ newline.
Proof.
  exact (proj2 (text_one_line doc0 "a < b" (cx 1 2) None [("fill", "red")]
                  eq_refl eq_refl)).
Defined.

(** X5: a group whose style keywords name no parameter of [element]
    ([self], [e], [style], [delta], [unspaced]), opened while the shared
    default style of [element] is empty and closed right away, writes two
    lines with the same indentation, the opening tag with the style and
    the closing tag without, and leaves the nesting counter as it was. *)
Theorem group_ungroup (st : State) style more :
  binds_parameter more = false ->
  nth_error (heap_of st) default_style_element = Some [] ->
  let st' := ungroup (fst (group st style more)) in
  let ind := spaces (indentation (self st) + 2 * nesting (self st)) in
  snd (group st style more) = ok tt
  /\ nesting (self st') = nesting (self st)
  /\ stream (self st')
     = stream (self st)
       ++ ind ++ "<" ++ prefix (self st) ++ "g"
       ++ style_attribute
            (dict_update (deref (heap_of st) (style_arg default_style_group style))
               more)
       ++ ">" ++ newline
       ++ ind ++ "</" ++ prefix (self st) ++ "g>" ++ newline.
Proof.
  intros Hb Hd. cbv zeta. unfold group, ungroup.
  rewrite (call_element_plain _ _ _ _ _ _ Hb). unfold ok; cbn [fst snd].
  set (st1 := element st "g" 1 false (style_arg default_style_group style) more).
  split; [reflexivity|]. split.
  - rewrite element_nesting. unfold st1. rewrite element_nesting. lia.
  - rewrite element_stream, element_text_shape.
    assert (Hd1 : deref (heap_of st1) default_style_element = []).
    { apply deref_default. unfold st1. now apply element_frame. }
    rewrite Hd1.
    assert (Hn : nesting (self st1) = nesting (self st) + 1)
      by (unfold st1; apply element_nesting).
    destruct (element_prefix st "g" 1 false (style_arg default_style_group style)
                more) as [Hp Hi]. fold st1 in Hp, Hi.
    unfold st1 at 1. rewrite element_stream, element_text_shape.
    unfold lead.
    cbn [Z.ltb Z.eqb Z.leb Z.geb Z.compare orb negb dict_update fold_left
           style_attribute].
    rewrite Hp, Hi, Hn.
    replace (nesting (self st) + 1 + -1) with (nesting (self st)) by lia.
    rewrite !append_assoc. cbn [append]. reflexivity.
Qed.

Lemma group_ungroup_witness :
  stream (self (ungroup (fst (group doc0 None [("fill", "red")]))))
  = stream (self doc0)
    ++ "  <g style=" ++ quoted "fill:red" ++ ">" ++ newline
    ++ "  </g>" ++ newline.
Proof.
  exact (proj2 (proj2 (group_ungroup doc0 None [("fill", "red")]
                         eq_refl eq_refl))).
Defined.


Lemma fsub_self (x : float) :
  is_real x = true -> fsub x x = S754_zero false.
Proof.
  destruct x as [s|s| |s m e]; try discriminate; intros _.
  - now destruct s.
  - unfold fsub. cbn [SFsub]. rewrite Z.sub_diag. reflexivity.
Qed.

Lemma fmul_zero_real (s : bool) (y : float) :
  is_real y = true -> is_zero (fmul (S754_zero s) y) = true.
Proof. destruct y; try discriminate; reflexivity. Qed.

Lemma fadd_zeros (a b : float) :
  is_zero a = true -> is_zero b = true -> is_zero (fadd a b) = true.
Proof.
  destruct a as [sa| | |], b as [sb| | |]; try discriminate.
  now destruct sa, sb.
Qed.

Lemma fsub_zeros (a b : float) :
  is_zero a = true -> is_zero b = true -> is_zero (fsub a b) = true.
Proof.
  destruct a as [sa| | |], b as [sb| | |]; try discriminate.
  now destruct sa, sb.
Qed.

Lemma fpow2_zero (x : float) :
  is_zero x = true -> fpow2 x = ok (S754_zero false).
Proof. destruct x; try discriminate; reflexivity. Qed.

Lemma straincontrol_coincident (q0 p0 q1 : complex) :
  is_real (real q0) = true -> is_real (imag q0) = true ->
  is_real (real (c_sub q1 p0)) = true -> is_real (imag (c_sub q1 p0)) = true ->
  is_real (dot (c_sub q1 p0) (c_sub q1 p0)) = true ->
  straincontrol q0 p0 q0 q1
  = raise (ZeroDivisionError "float division by zero").
Proof.
  intros Hx Hy Hr Hi Hd. unfold straincontrol.
  assert (Hv0 : c_sub q0 q0 = Complex (S754_zero false) (S754_zero false)).
  { unfold c_sub. now rewrite (fsub_self _ Hx), (fsub_self _ Hy). }
  rewrite Hv0. set (v1 := c_sub q1 p0) in *.
  set (z := Complex (S754_zero false) (S754_zero false)).
  assert (H00 : dot z z = S754_zero false) by reflexivity.
  assert (H01 : is_zero (dot z v1) = true).
  { unfold dot. apply fadd_zeros; now apply fmul_zero_real. }
  rewrite H00, (fpow2_zero _ H01). unfold ok, bind at 1. cbv beta iota zeta.
  assert (He : is_zero (fsub (fmul (fmul (float_of_Z 4) (S754_zero false))
                                   (dot v1 v1))
                             (S754_zero false)) = true).
  { apply fsub_zeros; [|reflexivity].
    change (fmul (float_of_Z 4) (S754_zero false)) with (S754_zero false).
    now apply fmul_zero_real. }
  unfold fdiv at 1. rewrite He. reflexivity.
Qed.

(** X7: when the first and the third of the points coincide and have
    finite coordinates, and the direction [v1 = q1 - p0] from the second
    point to the fourth has finite coordinates and a finite [dot(v1,v1)]
    (nothing overflows in them), the determinant of the first segment is
    zero: [polycurve] raises [ZeroDivisionError] and writes nothing,
    whatever points follow and whatever the C library. *)
Theorem polycurve_coincident (st : State) (q0 p0 q1 : complex)
    (rest : list complex) style more :
  is_real (real q0) = true -> is_real (imag q0) = true ->
  is_real (real (c_sub q1 p0)) = true -> is_real (imag (c_sub q1 p0)) = true ->
  is_real (dot (c_sub q1 p0) (c_sub q1 p0)) = true ->
  polycurve st (q0 :: p0 :: q0 :: q1 :: rest) style more
  = (st, raise (ZeroDivisionError "float division by zero")).
Proof.
  intros Hx Hy Hr Hi Hd. unfold polycurve.
  assert (Hdata : polycurve_data (q0 :: p0 :: q0 :: q1 :: rest)
                  = raise (ZeroDivisionError "float division by zero")).
  { unfold polycurve_data.
    set (points := q0 :: p0 :: q0 :: q1 :: rest).
    assert (Hlen : (4 <= List.length points)%nat) by (simpl; lia).
    change 1 with (Z.of_nat 1) at 1.
    rewrite (getitem_nth points 1 nan_point) by lia.
    unfold ok, bind at 1. cbv beta iota.
    rewrite py_range_seq.
    replace (List.length points - 3)%nat with (S (List.length rest))
      by (simpl; lia).
    cbn [seq map polycurve_loop].
    change (Z.of_nat 1 - 1) with (Z.of_nat 0).
    change (Z.of_nat 1 + 1) with (Z.of_nat 2).
    change (Z.of_nat 1 + 2) with (Z.of_nat 3).
    rewrite !(getitem_nth points _ nan_point) by lia.
    unfold ok, bind at 1 2 3 4. cbv beta iota.
    cbn [points nth].
    rewrite (straincontrol_coincident q0 p0 q1 Hx Hy Hr Hi Hd).
    reflexivity. }
  now rewrite Hdata.
Qed.

(** ** Further properties of [_coord] *)

Lemma coord_shape (s : bool) (n : Z) :
  0 <= n ->
  rstrip "." (rstrip "0" (sign_str s ++ fixed4 n))
  = sign_str s ++ str_of_nat (n / 10000) ++ kept_digits n.
Proof.
  intros Hn. unfold fixed4, kept_digits.
  set (i := n / 10000). set (f := n mod 10000).
  assert (Hf : 0 <= f < 10000) by (apply Z.mod_pos_bound; lia).
  assert (Hi : 0 <= i) by (apply Z.div_pos; lia).
  assert (H3 : 0 <= f / 1000 <= 9) by (Z.div_mod_to_equations; lia).
  assert (H2 : 0 <= f / 100 mod 10 <= 9) by (Z.div_mod_to_equations; lia).
  assert (H1 : 0 <= f / 10 mod 10 <= 9) by (Z.div_mod_to_equations; lia).
  assert (H0 : 0 <= f mod 10 <= 9) by (Z.div_mod_to_equations; lia).
  destruct (str_of_nat_spec i Hi) as (Hpi & Hdi & Hnei).
  assert (Hlast : forall a, last_char (sign_str s ++ str_of_nat i) = Some a ->
                            mem_char a "." = false).
  { intros a. rewrite last_char_app by exact Hnei. intros Ha.
    destruct (all_digits_last _ _ Hdi Ha) as [d Hd].
    exact (digit_mem_point _ _ Hd). }
  change ("." ++ ?x) with (String "." x).
  rewrite <- (append_assoc (sign_str s) (str_of_nat i)).
  rewrite (strip_fraction _ _ _ _ _ H3 H2 H1 H0 (rstrip_keeps _ _ Hlast)).
  apply append_assoc.
Qed.

Lemma kept_digits_cases (n : Z) :
  0 <= n ->
  kept_digits n = ""
  \/ exists fs, kept_digits n = String "." fs
                /\ fs <> "" /\ all_digits fs = true
                /\ (String.length fs <= 4)%nat.
Proof.
  intros Hn. unfold kept_digits. set (f := n mod 10000).
  assert (Hf : 0 <= f < 10000) by (apply Z.mod_pos_bound; lia).
  assert (H3 : 0 <= f / 1000 <= 9) by (Z.div_mod_to_equations; lia).
  assert (H2 : 0 <= f / 100 mod 10 <= 9) by (Z.div_mod_to_equations; lia).
  assert (H1 : 0 <= f / 10 mod 10 <= 9) by (Z.div_mod_to_equations; lia).
  assert (H0 : 0 <= f mod 10 <= 9) by (Z.div_mod_to_equations; lia).
  pose proof (digit_val_digit_char _ H3) as V3.
  pose proof (digit_val_digit_char _ H2) as V2.
  pose proof (digit_val_digit_char _ H1) as V1.
  pose proof (digit_val_digit_char _ H0) as V0.
  unfold kept_fraction.
  assert (Hfin : forall fs, fs <> "" -> all_digits fs = true ->
                 (String.length fs <= 4)%nat ->
                 String "." fs = ""
                 \/ exists fs', String "." fs = String "." fs' /\ fs' <> ""
                                /\ all_digits fs' = true
                                /\ (String.length fs' <= 4)%nat).
  { intros fs A B C. right. exists fs. auto. }
  destruct (f mod 10 =? 0); cbn [negb].
  2:{ apply Hfin; [discriminate | | simpl; lia].
      cbn [all_digits]. now rewrite V3, V2, V1, V0. }
  destruct (f / 10 mod 10 =? 0); cbn [negb].
  2:{ apply Hfin; [discriminate | | simpl; lia].
      cbn [all_digits]. now rewrite V3, V2, V1. }
  destruct (f / 100 mod 10 =? 0); cbn [negb].
  2:{ apply Hfin; [discriminate | | simpl; lia].
      cbn [all_digits]. now rewrite V3, V2. }
  destruct (f / 1000 =? 0); cbn [negb]; [now left|].
  apply Hfin; [discriminate | | simpl; lia].
  cbn [all_digits]. now rewrite V3.
Qed.

Lemma coord_finite (s : bool) (m : positive) (e : Z) :
  _coord (S754_finite s m e)
  = sign_str s ++ str_of_nat (round_scaled m e / 10000)
    ++ kept_digits (round_scaled m e).
Proof.
  unfold _coord, format_4f. apply coord_shape.
  now destruct (round_scaled_spec m e).
Qed.

(** X8: for a float that denotes a real number, [_coord] writes a plain
    decimal numeral: the sign, at least one digit, and then either nothing
    or a point followed by one to four digits; never an exponent and never
    more than four decimals. *)
Theorem coord_is_numeral (v : float) :
  is_real v = true ->
  exists ip fs,
    _coord v
    = sign_str (sign_of v) ++ ip
      ++ match fs with EmptyString => "" | _ => String "." fs end
    /\ ip <> "" /\ all_digits ip = true
    /\ all_digits fs = true /\ (String.length fs <= 4)%nat.
Proof.
  destruct v as [s|s| |s m e]; try discriminate; intros _.
  - exists "0", "". cbn [sign_of]. split; [now destruct s|].
    repeat split; try discriminate. simpl; lia.
  - rewrite coord_finite. cbn [sign_of].
    destruct (round_scaled_spec m e) as (Hn & _).
    assert (Hi : 0 <= round_scaled m e / 10000) by (apply Z.div_pos; lia).
    destruct (str_of_nat_spec _ Hi) as (_ & Hdi & Hnei).
    destruct (kept_digits_cases _ Hn) as [-> | (fs & -> & Hne & Hd & Hl)].
    + exists (str_of_nat (round_scaled m e / 10000)), "".
      repeat split; try assumption. simpl; lia.
    + exists (str_of_nat (round_scaled m e / 10000)), fs.
      repeat split; try assumption. now destruct fs.
Qed.

Lemma coord_is_numeral_witness :
  exists ip fs,
    _coord (float_of_ratio (-1) 3)
    = "-" ++ ip ++ match fs with EmptyString => "" | _ => String "." fs end
    /\ ip <> "" /\ all_digits ip = true
    /\ all_digits fs = true /\ (String.length fs <= 4)%nat.
Proof.
  exact (coord_is_numeral (float_of_ratio (-1) 3) eq_refl).
Defined.

Lemma kept_digits_multiple (k : Z) : kept_digits (k * 10000) = "".
Proof. unfold kept_digits. rewrite Z.mod_mul by lia. reflexivity. Qed.

Lemma round_scaled_integer (s : bool) (m : positive) (e : Z) (k : Z) :
  (float_value (S754_finite s m e) == inject_Z k)%Q ->
  round_scaled m e = Z.abs k * 10000.
Proof.
  unfold float_value, round_scaled, Qeq, inject_Z. cbn [Qnum Qden].
  destruct (Z.leb_spec 0 e) as [He|He]; cbn [Qnum Qden]; intros H.
  - pose proof (Z.pow_nonneg 2 e ltac:(lia)).
    destruct s; nia.
  - assert (Hden : 0 < 2 ^ (- e)) by (apply Z.pow_pos_nonneg; lia).
    rewrite Z2Pos.id in H by exact Hden.
    set (den := 2 ^ (- e)) in *.
    assert (Hm : Z.pos m * 10000 = Z.abs k * 10000 * den) by (destruct s; nia).
    rewrite Hm, Z.div_mul, Z.mod_mul by lia.
    destruct (Z.compare_spec (2 * 0) den); lia.
Qed.

(** X9: a float whose value is an integer [k] is written as the decimal
    digits of [|k|] after its sign, with no decimal point. *)
Theorem coord_of_integer (v : float) (k : Z) :
  is_real v = true ->
  (float_value v == inject_Z k)%Q ->
  _coord v = sign_str (sign_of v) ++ str_of_nat (Z.abs k).
Proof.
  destruct v as [s|s| |s m e]; try discriminate; intros _ H.
  - assert (k = 0) by (unfold float_value, Qeq, inject_Z in H; simpl in H; lia).
    subst k. now destruct s.
  - rewrite coord_finite, (round_scaled_integer s m e k H).
    rewrite Z.div_mul by lia. rewrite kept_digits_multiple.
    cbn [sign_of]. now rewrite append_nil_r.
Qed.

Lemma coord_of_integer_witness :
  _coord (float_of_Z (-1024)) = "-" ++ str_of_nat 1024.
Proof.
  apply (coord_of_integer (float_of_Z (-1024)) (-1024)); reflexivity.
Defined.

Lemma round_scaled_tiny (s : bool) (m : positive) (e : Z) :
  (Qabs (float_value (S754_finite s m e)) < 1 # 20000)%Q ->
  round_scaled m e = 0.
Proof.
  unfold float_value, round_scaled, Qlt, Qabs.
  destruct (Z.leb_spec 0 e) as [He|He]; cbn [Qnum Qden]; intros H.
  - pose proof (Z.pow_pos_nonneg 2 e ltac:(lia) He).
    destruct s; nia.
  - assert (Hden : 0 < 2 ^ (- e)) by (apply Z.pow_pos_nonneg; lia).
    rewrite Z2Pos.id in H by exact Hden.
    set (den := 2 ^ (- e)) in *.
    assert (Hm : 0 <= Z.pos m * 10000 < den) by (destruct s; lia).
    rewrite Z.div_small, Z.mod_small by exact Hm.
    destruct (Z.compare_spec (2 * (Z.pos m * 10000)) den); destruct s; lia.
Qed.

(** X10: a float of magnitude below [0.00005] is written as ["0"], or as
    ["-0"] when its sign bit is set. *)
Theorem coord_tiny (v : float) :
  is_real v = true ->
  (Qabs (float_value v) < 1 # 20000)%Q ->
  _coord v = sign_str (sign_of v) ++ "0".
Proof.
  destruct v as [s|s| |s m e]; try discriminate; intros _ H.
  - now destruct s.
  - rewrite coord_finite, (round_scaled_tiny s m e H). reflexivity.
Qed.

Lemma coord_tiny_witness :
  _coord (float_of_ratio (-1) 100000) = "-0".
Proof.
  apply (coord_tiny (float_of_ratio (-1) 100000)); reflexivity.
Defined.

(** X11: changing the sign of a float that is not nan and has its sign bit
    clear puts a minus sign before what [_coord] writes, also for zero and
    for values that round to zero. *)
Theorem coord_opp (x : float) :
  is_nan x = false -> sign_of x = false ->
  _coord (SFopp x) = "-" ++ _coord x.
Proof.
  destruct x as [s|s| |s m e]; try discriminate; cbn [sign_of];
    intros _ ->; try reflexivity.
  cbn [SFopp negb]. now rewrite !coord_finite.
Qed.

Lemma coord_opp_witness :
  _coord (SFopp (float_of_ratio 5 2)) = "-2.5".
Proof.
  rewrite (coord_opp (float_of_ratio 5 2)); reflexivity.
Defined.

(** X12: what [_coord] writes reads as a decimal numeral exactly when the
    float denotes a real number: nan and the infinities are written as
    [nan], [inf] and [-inf]. *)
Theorem coord_numeral_iff_real (v : float) :
  (exists q, parse_decimal (_coord v) = Some q) <-> is_real v = true.
Proof.
  split.
  - destruct v as [s|s| |s m e]; try reflexivity.
    + destruct s; intros [q H]; vm_compute in H; discriminate H.
    + intros [q H]; vm_compute in H; discriminate H.
  - intros Hv. destruct v as [s|s| |s m e]; try discriminate.
    + destruct (coord_of_scaled s 0 ltac:(lia)) as (q & Hq & _). eauto.
    + destruct (round_scaled_spec m e) as (Hn & _).
      destruct (coord_of_scaled s _ Hn) as (q & Hq & _). eauto.
Qed.

(** ** Further properties of Util.py *)

Section MapToConstantFacts.
Variables K V : Type.
Variable K_eq_dec : forall x y : K, {x = y} + {x <> y}.

Lemma kv_set_constant (c : V) (l : list K) (k : K) :
  kv_set K_eq_dec (map (fun x => (x, c)) l) k c
  = map (fun x => (x, c))
      (if in_dec K_eq_dec k l then l else (l ++ [k])%list).
Proof.
  induction l as [|x l IH]; [reflexivity|].
  cbn [map kv_set]. destruct (K_eq_dec x k) as [->|Hne].
  - destruct (in_dec K_eq_dec k (k :: l)) as [_|Hn]; [reflexivity|].
    exfalso; apply Hn; now left.
  - rewrite IH. destruct (in_dec K_eq_dec k l) as [Hi|Hn];
      destruct (in_dec K_eq_dec k (x :: l)) as [Hi'|Hn']; try reflexivity.
    + exfalso; apply Hn'; now right.
    + destruct Hi' as [E|E]; [congruence | contradiction].
Qed.

Lemma first_occurrences_in (seq : list K) (k : K) :
  In k (first_occurrences K_eq_dec seq) <-> In k seq.
Proof.
  induction seq as [|x r IH]; [reflexivity|].
  cbn [first_occurrences]. split.
  - intros [->|H]; [now left|]. apply filter_In in H as [H _].
    right. now apply IH.
  - intros [->|H]; [now left|].
    destruct (K_eq_dec k x) as [->|Hne]; [now left|].
    right. apply filter_In. split; [now apply IH|].
    destruct (K_eq_dec k x); [contradiction | reflexivity].
Qed.

Lemma first_occurrences_snoc (seq : list K) (k : K) :
  first_occurrences K_eq_dec (seq ++ [k])
  = if in_dec K_eq_dec k seq then first_occurrences K_eq_dec seq
    else (first_occurrences K_eq_dec seq ++ [k])%list.
Proof.
  induction seq as [|x r IH]; [reflexivity|].
  cbn [app first_occurrences]. rewrite IH.
  destruct (in_dec K_eq_dec k r) as [Hi|Hn];
    destruct (in_dec K_eq_dec k (x :: r)) as [Hi'|Hn']; try reflexivity.
  - exfalso; apply Hn'; now right.
  - rewrite filter_app. cbn [filter].
    destruct (K_eq_dec k x) as [->|Hne].
    + now rewrite app_nil_r.
    + destruct Hi' as [E|E]; [congruence | contradiction].
  - rewrite filter_app. cbn [filter].
    destruct (K_eq_dec k x) as [->|Hne]; [|reflexivity].
    exfalso; apply Hn'; now left.
Qed.

Lemma fromkeys_snoc (c : V) (seq : list K) (k : K) :
  fromkeys K_eq_dec (seq ++ [k]) c = kv_set K_eq_dec (fromkeys K_eq_dec seq c) k c.
Proof. unfold fromkeys. now rewrite fold_left_app. Qed.

Lemma fromkeys_first_occurrences (c : V) (seq : list K) :
  fromkeys K_eq_dec seq c
  = map (fun k => (k, c)) (first_occurrences K_eq_dec seq).
Proof.
  induction seq as [|k seq IH] using rev_ind; [reflexivity|].
  rewrite fromkeys_snoc, IH, kv_set_constant, first_occurrences_snoc.
  destruct (in_dec K_eq_dec k (first_occurrences K_eq_dec seq)) as [Hi|Hn];
    destruct (in_dec K_eq_dec k seq) as [Hi'|Hn']; try reflexivity.
  - exfalso; apply Hn'. now apply first_occurrences_in.
  - exfalso; apply Hn. now apply first_occurrences_in.
Qed.

Lemma kv_get_constant (c : V) (l : list K) (k : K) :
  kv_get K_eq_dec (map (fun x => (x, c)) l) k
  = if in_dec K_eq_dec k l then Some c else None.
Proof.
  induction l as [|x l IH]; [reflexivity|].
  cbn [map kv_get]. destruct (K_eq_dec x k) as [->|Hne].
  - destruct (in_dec K_eq_dec k (k :: l)) as [_|Hn]; [reflexivity|].
    exfalso; apply Hn; now left.
  - rewrite IH. destruct (in_dec K_eq_dec k l) as [Hi|Hn];
      destruct (in_dec K_eq_dec k (x :: l)) as [Hi'|Hn']; try reflexivity.
    + exfalso; apply Hn'; now right.
    + destruct Hi' as [E|E]; [congruence | contradiction].
Qed.

(** X13: the dictionary a factory of [map_to_constant] builds has one
    entry for each distinct item of the sequence, in the order in which
    the items first occur, each with the constant as its value; looking up
    an item of the sequence gives the constant and any other key is
    missing. *)
Theorem map_to_constant_spec (constant : V) (seq : list K) :
  map_to_constant K_eq_dec constant seq
  = map (fun k => (k, constant)) (first_occurrences K_eq_dec seq)
  /\ forall k,
      kv_get K_eq_dec (map_to_constant K_eq_dec constant seq) k
      = if in_dec K_eq_dec k seq then Some constant else None.
Proof.
  unfold map_to_constant. split; [apply fromkeys_first_occurrences|].
  intros k. rewrite fromkeys_first_occurrences, kv_get_constant.
  destruct (in_dec K_eq_dec k (first_occurrences K_eq_dec seq)) as [Hi|Hn];
    destruct (in_dec K_eq_dec k seq) as [Hi'|Hn']; try reflexivity.
  - exfalso; apply Hn'. now apply first_occurrences_in.
  - exfalso; apply Hn. now apply first_occurrences_in.
Qed.
End MapToConstantFacts.

(** ** The heap queue *)

Lemma parent_lt (i : nat) : (0 < i -> (i - 1) / 2 < i)%nat.
Proof.
  intros H. pose proof (Nat.div_mod_eq (i - 1) 2).
  pose proof (Nat.mod_upper_bound (i - 1) 2 ltac:(lia)). lia.
Qed.

Lemma parent_children (c p : nat) :
  (0 < c -> ((c - 1) / 2 = p <-> c = 2 * p + 1 \/ c = 2 * p + 2))%nat.
Proof.
  intros H. pose proof (Nat.div_mod_eq (c - 1) 2).
  pose proof (Nat.mod_upper_bound (c - 1) 2 ltac:(lia)). lia.
Qed.

Section ListSet.
Context {A : Type}.

Lemma length_list_set (l : list A) (i : nat) (x : A) :
  List.length (list_set l i x) = List.length l.
Proof.
  revert i; induction l as [|y r IH]; intros [|i]; simpl; auto.
Qed.

Lemma nth_list_set_eq (l : list A) (i : nat) (x d : A) :
  (i < List.length l)%nat -> nth i (list_set l i x) d = x.
Proof.
  revert i; induction l as [|y r IH]; intros [|i] H; simpl in *;
    try lia; [reflexivity | apply IH; lia].
Qed.

Lemma nth_list_set_neq (l : list A) (i j : nat) (x d : A) :
  i <> j -> nth j (list_set l i x) d = nth j l d.
Proof.
  revert i j; induction l as [|y r IH]; intros [|i] [|j] H; simpl;
    try reflexivity; try congruence.
  apply IH; congruence.
Qed.

Lemma list_set_twice (l : list A) (i : nat) (x y : A) :
  list_set (list_set l i x) i y = list_set l i y.
Proof.
  revert i; induction l as [|z r IH]; intros [|i]; simpl; try reflexivity.
  now rewrite IH.
Qed.

Lemma list_set_same (l : list A) (i : nat) (d : A) :
  list_set l i (nth i l d) = l.
Proof.
  revert i; induction l as [|z r IH]; intros [|i]; simpl; try reflexivity.
  now rewrite IH.
Qed.

Lemma list_set_move (l : list A) (j : nat) (a d : A) :
  (j < List.length l)%nat ->
  Permutation (nth j l d :: list_set l j a) (a :: l).
Proof.
  revert j; induction l as [|b r IH]; intros [|j] H; simpl in *; try lia.
  - apply perm_swap.
  - eapply perm_trans; [apply perm_swap|].
    eapply perm_trans; [apply perm_skip, IH; lia|]. apply perm_swap.
Qed.

(** Exchanging two places of a list. *)
Lemma list_set_swap (l : list A) (i j : nat) (d : A) :
  (i < List.length l)%nat -> (j < List.length l)%nat -> i <> j ->
  Permutation (list_set (list_set l i (nth j l d)) j (nth i l d)) l.
Proof.
  revert i j; induction l as [|a r IH]; intros [|i] [|j] Hi Hj Hne;
    simpl in *; try lia.
  - apply list_set_move; lia.
  - apply list_set_move; lia.
  - apply perm_skip, IH; lia.
Qed.

(** Moving the hole of a list whose hole is to take [x]. *)
Lemma hole_move (l : list A) (pos q : nat) (x d : A) :
  (pos < List.length l)%nat -> (q < List.length l)%nat -> pos <> q ->
  Permutation (list_set (list_set l pos (nth q l d)) q x) (list_set l pos x).
Proof.
  intros Hp Hq Hne.
  pose proof (list_set_swap (list_set l pos x) pos q d) as H.
  rewrite !length_list_set in H. specialize (H Hp Hq Hne).
  rewrite (nth_list_set_neq l pos q x d Hne) in H.
  rewrite (nth_list_set_eq l pos x d Hp) in H.
  now rewrite list_set_twice in H.
Qed.
End ListSet.

Lemma NoDup_nth_neq {A : Type} (l : list A) (i j : nat) (d : A) :
  NoDup l -> (i < List.length l)%nat -> (j < List.length l)%nat -> i <> j ->
  nth i l d <> nth j l d.
Proof.
  intros Hnd Hi Hj Hne E. apply Hne.
  now apply (proj1 (NoDup_nth l d) Hnd).
Qed.

(** The keys of the entries of a list with a hole are distinct. *)
Lemma hole_keys_neq (h : list entry) (pos : nat) (x : entry) (i j : nat) :
  NoDup (map fst (list_set h pos x)) ->
  (pos < List.length h)%nat ->
  (i < List.length h)%nat -> (j < List.length h)%nat -> i <> j ->
  fst (nth i (list_set h pos x) no_entry) <> fst (nth j (list_set h pos x) no_entry).
Proof.
  intros Hnd Hp Hi Hj Hne.
  pose proof (NoDup_nth_neq _ i j 0 Hnd) as H.
  rewrite !length_map, !length_list_set in H. specialize (H Hi Hj Hne).
  change 0 with (fst no_entry) in H. now rewrite !map_nth in H.
Qed.

Lemma entry_lt_neq (a b : entry) :
  fst a <> fst b -> entry_lt a b = ok (fst a <? fst b).
Proof.
  intros H. unfold entry_lt. destruct (Z.eqb_spec (fst a) (fst b)); [contradiction|].
  reflexivity.
Qed.

Lemma hole_ok_set (h : list entry) (pos : nat) (y : entry) :
  hole_ok h pos -> hole_ok (list_set h pos y) pos.
Proof.
  intros [HA HC]. split.
  - intros i Hi Hne Hp. rewrite length_list_set in Hi.
    rewrite !nth_list_set_neq by congruence. now apply HA.
  - intros H0 c Hc Hp. rewrite length_list_set in Hc.
    pose proof (parent_lt pos H0). pose proof (parent_lt c ltac:(lia)).
    rewrite !nth_list_set_neq by lia. now apply HC.
Qed.

Lemma heap_ok_hole (h : list entry) (pos : nat) :
  heap_ok h -> hole_ok h pos.
Proof.
  intros H. split.
  - intros i Hi _ _. now apply H.
  - intros H0 c Hc Hp.
    pose proof (parent_lt pos H0). pose proof (parent_lt c ltac:(lia)).
    apply Z.lt_trans with (fst (nth pos h no_entry)).
    + apply H. lia.
    + subst pos. now apply H.
Qed.

(** Putting [x] in the hole gives a heap when [x] fits there. *)
Lemma place_ok (h : list entry) (pos : nat) (x : entry) :
  (pos < List.length h)%nat ->
  hole_ok h pos -> below_children h pos x ->
  (pos = 0%nat \/ fst (nth ((pos - 1) / 2) h no_entry) < fst x) ->
  heap_ok (list_set h pos x).
Proof.
  intros Hp [HA HC] HB Hx i Hi. rewrite length_list_set in Hi.
  destruct (Nat.eq_dec i pos) as [->|Hne].
  - rewrite (nth_list_set_eq h pos x no_entry Hp).
    pose proof (parent_lt pos ltac:(lia)).
    rewrite nth_list_set_neq by lia.
    destruct Hx as [->|Hx]; [lia | exact Hx].
  - rewrite (nth_list_set_neq h pos i) by congruence.
    destruct (Nat.eq_dec ((i - 1) / 2) pos) as [E|Hp'].
    + rewrite E, (nth_list_set_eq h pos x no_entry Hp). now apply HB.
    + rewrite nth_list_set_neq by congruence. now apply HA.
Qed.

(** Moving the parent down into the hole. *)
Lemma hole_up (h : list entry) (pos : nat) (x : entry) :
  (0 < pos < List.length h)%nat ->
  hole_ok h pos -> below_children h pos x ->
  fst x < fst (nth ((pos - 1) / 2) h no_entry) ->
  hole_ok (list_set h pos (nth ((pos - 1) / 2) h no_entry)) ((pos - 1) / 2)
  /\ below_children (list_set h pos (nth ((pos - 1) / 2) h no_entry))
       ((pos - 1) / 2) x.
Proof.
  intros Hp [HA HC] HB Hx.
  pose proof (parent_lt pos ltac:(lia)) as Hpp.
  set (pp := ((pos - 1) / 2)%nat) in *.
  split; [split|].
  - intros i Hi Hne Hpi. rewrite length_list_set in Hi.
    assert (i <> pos) by (intros ->; now apply Hpi).
    rewrite (nth_list_set_neq h pos i) by congruence.
    destruct (Nat.eq_dec ((i - 1) / 2) pos) as [E|Hn].
    + rewrite E, nth_list_set_eq by lia. apply HC; [lia | lia | exact E].
    + rewrite nth_list_set_neq by congruence. now apply HA.
  - intros H0 c Hc Hpc. rewrite length_list_set in Hc.
    pose proof (parent_lt pp H0).
    rewrite (nth_list_set_neq h pos ((pp - 1) / 2)) by lia.
    assert (Hgp : fst (nth ((pp - 1) / 2) h no_entry) < fst (nth pp h no_entry))
      by (apply HA; lia).
    destruct (Nat.eq_dec c pos) as [->|Hne].
    + now rewrite nth_list_set_eq by lia.
    + rewrite nth_list_set_neq by congruence.
      apply Z.lt_trans with (fst (nth pp h no_entry)); [exact Hgp|].
      rewrite <- Hpc. apply HA; [lia | exact Hne | lia].
  - intros c Hc Hpc. rewrite length_list_set in Hc.
    destruct (Nat.eq_dec c pos) as [->|Hne].
    + now rewrite nth_list_set_eq by lia.
    + rewrite nth_list_set_neq by congruence.
      apply Z.lt_trans with (fst (nth pp h no_entry)); [exact Hx|].
      rewrite <- Hpc. apply HA; [lia | exact Hne | lia].
Qed.

Lemma siftdown_loop_spec (fuel : nat) :
  forall (h : list entry) (pos : nat) (x : entry),
    (pos <= fuel)%nat -> (pos < List.length h)%nat ->
    hole_ok h pos -> below_children h pos x ->
    NoDup (map fst (list_set h pos x)) ->
    exists h',
      siftdown_loop fuel h 0 pos x = ok h'
      /\ heap_ok h' /\ Permutation h' (list_set h pos x).
Proof.
  induction fuel as [|fuel IH]; intros h pos x Hf Hp Hh Hb Hnd.
  - exists (list_set h pos x). split; [reflexivity|]. split; [|reflexivity].
    apply place_ok; auto. left; lia.
  - cbn [siftdown_loop].
    destruct (Nat.ltb_spec 0 pos) as [H0|H0].
    2:{ exists (list_set h pos x). split; [reflexivity|]. split; [|reflexivity].
        apply place_ok; auto. left; lia. }
    pose proof (parent_lt pos H0) as Hpp.
    set (pp := ((pos - 1) / 2)%nat) in *.
    assert (Hk : fst x <> fst (nth pp h no_entry)).
    { pose proof (hole_keys_neq h pos x pos pp Hnd Hp Hp ltac:(lia) ltac:(lia)) as H.
      rewrite nth_list_set_eq in H by lia.
      now rewrite nth_list_set_neq in H by lia. }
    rewrite (entry_lt_neq _ _ Hk). unfold ok, bind. cbv beta iota.
    destruct (Z.ltb_spec (fst x) (fst (nth pp h no_entry))) as [Hlt|Hge].
    + destruct (hole_up h pos x ltac:(lia) Hh Hb Hlt) as [Hh' Hb'].
      fold pp in Hh', Hb'.
      assert (Hperm : Permutation
                        (list_set (list_set h pos (nth pp h no_entry)) pp x)
                        (list_set h pos x))
        by (apply hole_move; lia).
      destruct (IH (list_set h pos (nth pp h no_entry)) pp x) as (h' & E & Hok & Hp').
      * lia.
      * rewrite length_list_set; lia.
      * exact Hh'.
      * exact Hb'.
      * eapply Permutation_NoDup; [|exact Hnd].
        apply Permutation_map, Permutation_sym, Hperm.
      * exists h'. split; [exact E|]. split; [exact Hok|].
        eapply perm_trans; eauto.
    + exists (list_set h pos x). split; [reflexivity|]. split; [|reflexivity].
      apply place_ok; auto. right. fold pp. lia.
Qed.

(** [heappush] on a heap gives a heap with the new entry. *)
Lemma heappush_spec (h : list entry) (item : entry) :
  heap_ok h -> NoDup (map fst (item :: h)) ->
  exists h',
    heappush h item = ok h' /\ heap_ok h' /\ Permutation h' (item :: h).
Proof.
  intros Hh Hnd. unfold heappush, _siftdown.
  set (n := List.length h).
  assert (Hlen : List.length (h ++ [item]) = S n)
    by (rewrite length_app; simpl; lia).
  assert (Hnth : nth n (h ++ [item]) no_entry = item).
  { unfold n. rewrite app_nth2 by lia. now rewrite Nat.sub_diag. }
  rewrite Hnth.
  assert (Hself : list_set (h ++ [item]) n item = (h ++ [item])%list).
  { pose proof (list_set_same (h ++ [item]) n no_entry) as H.
    now rewrite Hnth in H. }
  assert (Hpa : Permutation (h ++ [item]) (item :: h))
    by (apply Permutation_sym, Permutation_cons_append).
  destruct (siftdown_loop_spec n (h ++ [item]) n item) as (h' & E & Hok & Hp).
  - lia.
  - lia.
  - split.
    + intros i Hi Hne Hpi. rewrite Hlen in Hi.
      pose proof (parent_lt i ltac:(lia)).
      rewrite !app_nth1 by (fold n; lia). apply Hh. fold n. lia.
    + intros H0 c Hc Hpc. rewrite Hlen in Hc.
      apply parent_children in Hpc; lia.
  - intros c Hc Hpc. rewrite Hlen in Hc. apply parent_children in Hpc; lia.
  - rewrite Hself. eapply Permutation_NoDup; [|exact Hnd].
    apply Permutation_map, Permutation_sym, Hpa.
  - exists h'. split; [exact E|]. split; [exact Hok|].
    rewrite Hself in Hp. eapply perm_trans; eauto.
Qed.

(** Moving the smaller child up into the hole. *)
Lemma hole_down (h : list entry) (pos c : nat) :
  (c < List.length h)%nat -> (0 < c)%nat -> ((c - 1) / 2 = pos)%nat ->
  hole_ok h pos ->
  (forall o, (0 < o < List.length h)%nat -> ((o - 1) / 2 = pos)%nat -> o <> c ->
     fst (nth c h no_entry) < fst (nth o h no_entry)) ->
  hole_ok (list_set h pos (nth c h no_entry)) c.
Proof.
  intros Hc H0 Hpc [HA HC] Hmin.
  pose proof (parent_lt c H0) as Hlt. rewrite Hpc in Hlt.
  split.
  - intros i Hi Hne Hpi. rewrite length_list_set in Hi.
    destruct (Nat.eq_dec i pos) as [->|Hnp].
    + rewrite nth_list_set_eq by lia.
      pose proof (parent_lt pos ltac:(lia)).
      rewrite nth_list_set_neq by lia.
      apply HC; [lia | lia | exact Hpc].
    + rewrite (nth_list_set_neq h pos i) by congruence.
      destruct (Nat.eq_dec ((i - 1) / 2) pos) as [E|Hn].
      * rewrite E, nth_list_set_eq by lia. now apply Hmin.
      * rewrite nth_list_set_neq by congruence. now apply HA.
  - intros _ d Hd Hpd. rewrite length_list_set in Hd.
    pose proof (parent_lt d ltac:(lia)) as Hld. rewrite Hpd in Hld.
    rewrite Hpc, nth_list_set_eq by lia.
    rewrite nth_list_set_neq by lia.
    rewrite <- Hpd at 1. apply HA; [lia | lia | lia].
Qed.

Lemma siftup_loop_spec (fuel : nat) :
  forall (h : list entry) (pos : nat) (x : entry),
    (List.length h <= fuel + pos)%nat -> (pos < List.length h)%nat ->
    hole_ok h pos ->
    NoDup (map fst (list_set h pos x)) ->
    exists h' leaf,
      siftup_loop fuel h (List.length h) pos = ok (h', leaf)
      /\ (leaf < List.length h)%nat
      /\ List.length h' = List.length h
      /\ hole_ok h' leaf
      /\ (forall c, (0 < c < List.length h)%nat -> ((c - 1) / 2 <> leaf)%nat)
      /\ Permutation (list_set h' leaf x) (list_set h pos x).
Proof.
  induction fuel as [|fuel IH]; intros h pos x Hf Hp Hh Hnd; [lia|].
  cbn [siftup_loop].
  destruct (Nat.ltb_spec (2 * pos + 1) (List.length h)) as [Hc|Hc].
  2:{ exists h, pos. split; [reflexivity|]. split; [exact Hp|].
      split; [reflexivity|]. split; [exact Hh|]. split; [|apply Permutation_refl].
      intros c Hcl E. apply parent_children in E; lia. }
  set (cp := (2 * pos + 1)%nat) in *.
  assert (Hchoice : exists c,
             (if (cp + 1 <? List.length h)%nat
              then lt <- entry_lt (nth cp h no_entry) (nth (cp + 1) h no_entry) ;;
                   ok (if lt then cp else (cp + 1)%nat)
              else ok cp) = ok c
             /\ (c = cp \/ c = (cp + 1)%nat) /\ (c < List.length h)%nat
             /\ forall o, (0 < o < List.length h)%nat -> ((o - 1) / 2 = pos)%nat ->
                          o <> c ->
                          fst (nth c h no_entry) < fst (nth o h no_entry)).
  { destruct (Nat.ltb_spec (cp + 1) (List.length h)) as [Hr|Hr].
    - assert (Hk : fst (nth cp h no_entry) <> fst (nth (cp + 1) h no_entry)).
      { pose proof (hole_keys_neq h pos x cp (cp + 1) Hnd Hp Hc Hr ltac:(lia)) as H.
        now rewrite !nth_list_set_neq in H by lia. }
      rewrite (entry_lt_neq _ _ Hk). unfold ok, bind. cbv beta iota.
      destruct (Z.ltb_spec (fst (nth cp h no_entry))
                  (fst (nth (cp + 1) h no_entry))) as [Hlt|Hge].
      + exists cp. repeat split; auto.
        intros o Ho Hpo Hne. apply parent_children in Hpo; [|lia].
        replace o with (cp + 1)%nat by lia. exact Hlt.
      + exists (cp + 1)%nat. repeat split; auto.
        intros o Ho Hpo Hne. apply parent_children in Hpo; [|lia].
        replace o with cp by lia. lia.
    - exists cp. repeat split; auto.
      intros o Ho Hpo Hne. apply parent_children in Hpo; lia. }
  destruct Hchoice as (c & -> & Hcc & Hcl & Hmin).
  unfold ok at 1, bind at 1. cbv beta iota.
  assert (Hpc : ((c - 1) / 2 = pos)%nat) by (apply parent_children; lia).
  pose proof (hole_down h pos c Hcl ltac:(lia) Hpc Hh Hmin) as Hh'.
  assert (Hperm : Permutation
                    (list_set (list_set h pos (nth c h no_entry)) c x)
                    (list_set h pos x))
    by (apply hole_move; lia).
  destruct (IH (list_set h pos (nth c h no_entry)) c x)
    as (h' & leaf & E & Hl & Hlen & Hok & Hleaf & Hp').
  - rewrite length_list_set. lia.
  - rewrite length_list_set. lia.
  - exact Hh'.
  - eapply Permutation_NoDup; [|exact Hnd].
    apply Permutation_map, Permutation_sym, Hperm.
  - rewrite length_list_set in *. exists h', leaf.
    split; [exact E|]. split; [exact Hl|]. split; [exact Hlen|].
    split; [exact Hok|]. split; [exact Hleaf|].
    eapply Permutation_trans; [exact Hp' | exact Hperm].
Qed.

Lemma siftup_root_spec (h : list entry) :
  h <> [] -> hole_ok h 0 -> NoDup (map fst h) ->
  exists h', _siftup h 0 = ok h' /\ heap_ok h' /\ Permutation h' h.
Proof.
  intros Hne Hh Hnd. unfold _siftup.
  set (x := nth 0 h no_entry).
  assert (Hlen : (0 < List.length h)%nat) by (destruct h; simpl; [congruence | lia]).
  assert (Hself : list_set h 0 x = h) by apply list_set_same.
  destruct (siftup_loop_spec (List.length h) h 0 x)
    as (h1 & leaf & E & Hl & Hlen1 & Hok & Hleaf & Hp).
  - lia.
  - lia.
  - exact Hh.
  - now rewrite Hself.
  - rewrite Hself in Hp.
    rewrite E. unfold ok at 1, bind at 1. cbv beta iota.
    unfold _siftdown.
    rewrite nth_list_set_eq by lia.
    destruct (siftdown_loop_spec leaf (list_set h1 leaf x) leaf x)
      as (h' & E' & Hok' & Hp').
    + lia.
    + rewrite length_list_set. lia.
    + now apply hole_ok_set.
    + intros c Hc Hpc. rewrite length_list_set, Hlen1 in Hc.
      exfalso. exact (Hleaf c Hc Hpc).
    + rewrite list_set_twice. eapply Permutation_NoDup; [|exact Hnd].
      apply Permutation_map, Permutation_sym, Hp.
    + exists h'. split; [exact E'|]. split; [exact Hok'|].
      rewrite list_set_twice in Hp'.
      eapply Permutation_trans; [exact Hp' | exact Hp].
Qed.

(** The root of a heap is its smallest entry. *)
Lemma heap_root_min (h : list entry) :
  heap_ok h ->
  forall i, (i < List.length h)%nat ->
    fst (nth 0 h no_entry) <= fst (nth i h no_entry).
Proof.
  intros Hh i. induction i as [i IH] using lt_wf_ind. intros Hi.
  destruct (Nat.eq_dec i 0) as [->|Hne]; [lia|].
  pose proof (parent_lt i ltac:(lia)) as Hp.
  specialize (IH _ Hp ltac:(lia)).
  specialize (Hh i ltac:(lia)). lia.
Qed.

Lemma last_removelast_perm {A : Type} (a : A) (t : list A) (d : A) :
  t <> [] -> Permutation (last (a :: t) d :: removelast t) t.
Proof.
  intros Hne.
  assert (E : last (a :: t) d = last t d) by (destruct t; [congruence | reflexivity]).
  rewrite E. rewrite (app_removelast_last d Hne) at 3.
  apply Permutation_cons_append.
Qed.

(** [heappop] on a heap that is not empty returns its smallest entry and
    a heap of the others. *)
Lemma heappop_spec (h : list entry) :
  h <> [] -> heap_ok h -> NoDup (map fst h) ->
  exists e h',
    heappop h = ok (e, h')
    /\ heap_ok h' /\ Permutation h (e :: h')
    /\ forall e', In e' h' -> fst e < fst e'.
Proof.
  intros Hne Hh Hnd. destruct h as [|a t]; [congruence|].
  unfold heappop.
  destruct t as [|b t'].
  - exists a, []. cbn. repeat split; auto.
    + intros i Hi. simpl in Hi. lia.
    + intros e' [].
  - set (t := b :: t') in *.
    assert (Ht : t <> []) by discriminate.
    assert (Hrl : removelast (a :: t) = a :: removelast t) by reflexivity.
    rewrite Hrl. clear Hrl. clearbody t.
    set (lastelt := last (a :: t) no_entry).
    assert (Hpl : Permutation (lastelt :: removelast t) t)
      by (apply last_removelast_perm; exact Ht).
    assert (Hlenr : S (List.length (removelast t)) = List.length t).
    { apply Permutation_length in Hpl. exact Hpl. }
    assert (Hnth : forall i, (0 < i < List.length t)%nat ->
                     nth i (lastelt :: removelast t) no_entry
                     = nth i (a :: t) no_entry).
    { intros i Hi. destruct i as [|i]; [lia|]. cbn [nth].
      rewrite (app_removelast_last no_entry Ht) at 2.
      rewrite app_nth1 by lia. reflexivity. }
    destruct (siftup_root_spec (lastelt :: removelast t)) as (h' & E & Hok & Hp).
    + discriminate.
    + split.
      * intros i Hi Hi0 Hpi. cbn [List.length] in Hi. rewrite Hlenr in Hi.
        pose proof (parent_lt i ltac:(lia)).
        rewrite !Hnth by lia. apply Hh. cbn [List.length]. lia.
      * intros H0; lia.
    + assert (Hndt : NoDup (map fst t)).
      { change (NoDup (fst a :: map fst t)) in Hnd.
        now apply NoDup_cons_iff in Hnd. }
      eapply Permutation_NoDup; [|exact Hndt].
      apply Permutation_map, Permutation_sym, Hpl.
    + rewrite E. unfold ok, bind. cbv beta iota.
      exists a, h'. split; [reflexivity|]. split; [exact Hok|].
      assert (Hpt : Permutation t h')
        by (eapply Permutation_trans; [apply Permutation_sym, Hpl | apply Permutation_sym, Hp]).
      split; [now apply perm_skip|].
      intros e' He'.
      assert (Hin : In e' t) by (eapply Permutation_in; [apply Permutation_sym, Hpt | exact He']).
      destruct (In_nth _ _ no_entry Hin) as (i & Hi & Hei).
      pose proof (heap_root_min (a :: t) Hh (S i) ltac:(simpl; lia)) as Hmin.
      cbn [nth] in Hmin. rewrite Hei in Hmin.
      assert (Hneq : fst a <> fst e').
      { change (NoDup (fst a :: map fst t)) in Hnd.
        apply NoDup_cons_iff in Hnd as [Hnotin _]. intros Eq. apply Hnotin.
        rewrite Eq. now apply in_map. }
      lia.
Qed.

(** ** The loop of [merge] *)

Lemma key_in_items (heads : list entry) (e : entry) :
  In e heads -> In (fst e) (items_of heads).
Proof.
  intros H. unfold items_of. apply in_flat_map. exists e. split; [exact H|].
  now left.
Qed.

Lemma items_keys_NoDup (heads : list entry) :
  NoDup (items_of heads) -> NoDup (map fst heads).
Proof.
  induction heads as [|e h IH]; intros H; [constructor|].
  change (NoDup (fst e :: (snd e ++ items_of h)%list)) in H.
  apply NoDup_cons_iff in H as [Hn Hd].
  change (NoDup (fst e :: map fst h)). constructor.
  - intros Hin. apply Hn. apply in_or_app. right.
    apply in_map_iff in Hin as (e' & E & Hin). rewrite <- E.
    now apply key_in_items.
  - apply IH. eapply NoDup_app_remove_l. exact Hd.
Qed.

Lemma items_perm (h h' : list entry) :
  Permutation h h' -> Permutation (items_of h) (items_of h').
Proof. apply Permutation_flat_map. Qed.

Lemma items_with_stream (h : list entry) (s : list Z) :
  items_of (with_stream h s) = (s ++ items_of h)%list.
Proof. destruct s; reflexivity. Qed.

Lemma sorted_with_stream (h : list entry) (s : list Z) :
  StronglySorted Z.lt s -> Forall sorted_entry h ->
  Forall sorted_entry (with_stream h s).
Proof.
  intros Hs Hh. destruct s as [|x rest]; [exact Hh|].
  constructor; [exact Hs | exact Hh].
Qed.

Lemma pushstream_spec (h : list entry) (s : list Z) :
  heap_ok h -> NoDup (s ++ items_of h) ->
  exists h', pushstream h s = ok h' /\ heap_ok h'
             /\ Permutation h' (with_stream h s).
Proof.
  intros Hh Hnd. destruct s as [|x rest].
  - exists h. split; [reflexivity|]. split; [exact Hh | apply Permutation_refl].
  - cbn [pushstream with_stream]. apply heappush_spec; [exact Hh|].
    apply (items_keys_NoDup ((x, rest) :: h)).
    change (NoDup (x :: (rest ++ items_of h)%list)).
    exact Hnd.
Qed.

Lemma items_left_nonempty (e : entry) (h : list entry) :
  (0 < items_left (e :: h))%nat.
Proof. unfold items_left. cbn. lia. Qed.

Lemma in_items (h : list entry) (y : Z) :
  In y (items_of h) -> exists e, In e h /\ In y (fst e :: snd e).
Proof. intros H. apply in_flat_map in H. exact H. Qed.

Lemma sorted_entry_le (e : entry) (y : Z) :
  sorted_entry e -> In y (fst e :: snd e) -> fst e <= y.
Proof.
  intros Hs [<-|Hin]; [lia|].
  apply StronglySorted_inv in Hs as [_ Hall].
  rewrite Forall_forall in Hall. specialize (Hall _ Hin). lia.
Qed.

(** With enough steps for the items, the loop on a heap of entries that
    stand for distinct items yields each item once and ends; from
    increasing streams it yields them in increasing order. *)
Lemma merge_loop_spec (fuel : nat) :
  forall heads : list entry,
    (items_left heads <= fuel)%nat -> heap_ok heads ->
    NoDup (items_of heads) ->
    exists out,
      merge_loop fuel heads = (out, GenDone)
      /\ Permutation out (items_of heads)
      /\ (Forall sorted_entry heads -> StronglySorted Z.lt out).
Proof.
  induction fuel as [|fuel IH]; intros heads Hf Hh Hnd.
  - destruct heads as [|e h].
    + exists []. split; [reflexivity|]. split; constructor.
    + pose proof (items_left_nonempty e h). lia.
  - destruct heads as [|e0 h0].
    { exists []. split; [reflexivity|]. split; constructor. }
    set (heads := e0 :: h0) in *.
    destruct (heappop_spec heads ltac:(discriminate) Hh (items_keys_NoDup _ Hnd))
      as ([x s] & h1 & Epop & Hh1 & Hperm & Hmin).
    assert (Hitems : Permutation (items_of heads) (x :: (s ++ items_of h1)%list))
      by exact (items_perm _ _ Hperm).
    assert (Hnd1 : NoDup (x :: (s ++ items_of h1)%list))
      by (eapply Permutation_NoDup; [exact Hitems | exact Hnd]).
    apply NoDup_cons_iff in Hnd1 as [_ Hnd1].
    destruct (pushstream_spec h1 s Hh1 Hnd1) as (h2 & Epush & Hh2 & Hp2).
    assert (Hitems2 : Permutation (items_of h2) (s ++ items_of h1)%list).
    { rewrite <- items_with_stream. now apply items_perm. }
    destruct (IH h2) as (out & Eloop & Hout & Hsorted).
    + unfold items_left in *. fold (items_of h2). fold (items_of heads) in Hf.
      rewrite (Permutation_length Hitems2).
      rewrite (Permutation_length Hitems) in Hf. cbn [List.length] in Hf. lia.
    + exact Hh2.
    + eapply Permutation_NoDup; [apply Permutation_sym, Hitems2 | exact Hnd1].
    + exists (x :: out). split; [|split].
      * unfold heads. cbn [merge_loop]. fold heads.
        rewrite Epop. unfold ok. rewrite Epush. unfold ok. rewrite Eloop.
        reflexivity.
      * eapply Permutation_trans; [|apply Permutation_sym, Hitems].
        apply perm_skip. eapply Permutation_trans; [exact Hout | exact Hitems2].
      * intros Hall.
        assert (Hall1 : Forall sorted_entry ((x, s) :: h1))
          by (eapply Permutation_Forall; [exact Hperm | exact Hall]).
        apply Forall_cons_iff in Hall1 as [Hxs Hall1].
        assert (Hs : StronglySorted Z.lt s)
          by (apply StronglySorted_inv in Hxs; apply Hxs).
        constructor.
        -- apply Hsorted. eapply Permutation_Forall;
             [apply Permutation_sym, Hp2 | now apply sorted_with_stream].
        -- apply Forall_forall. intros y Hy.
           assert (Hy' : In y (s ++ items_of h1)%list).
           { eapply Permutation_in; [|exact Hy].
             eapply Permutation_trans; [exact Hout | exact Hitems2]. }
           apply in_app_or in Hy' as [Hy'|Hy'].
           ++ apply StronglySorted_inv in Hxs as [_ Hlt].
              rewrite Forall_forall in Hlt. exact (Hlt _ Hy').
           ++ apply in_items in Hy' as (e' & He' & Hin).
              specialize (Hmin _ He'). cbn [fst] in Hmin.
              rewrite Forall_forall in Hall1.
              pose proof (sorted_entry_le e' y (Hall1 _ He') Hin). lia.
Qed.

(** ** PADS/Util.py: pushing the streams *)

Lemma push_all_spec (streams : list (list Z)) :
  forall heads : list entry,
    heap_ok heads ->
    NoDup (items_of heads ++ List.concat streams) ->
    exists h',
      push_all heads streams = ok h' /\ heap_ok h'
      /\ Permutation (items_of h') (items_of heads ++ List.concat streams)
      /\ (Forall sorted_entry heads -> Forall (StronglySorted Z.lt) streams ->
          Forall sorted_entry h').
Proof.
  induction streams as [|s rest IH]; intros heads Hh Hnd.
  - exists heads. split; [reflexivity|]. split; [exact Hh|].
    split; [|intros H _; exact H].
    cbn [List.concat]. rewrite app_nil_r. apply Permutation_refl.
  - cbn [List.concat] in *.
    assert (Hperm : Permutation (items_of heads ++ s ++ List.concat rest)
                      ((s ++ items_of heads) ++ List.concat rest)).
    { rewrite app_assoc. apply Permutation_app_tail, Permutation_app_comm. }
    assert (Hnd' : NoDup ((s ++ items_of heads) ++ List.concat rest))
      by (eapply Permutation_NoDup; [exact Hperm | exact Hnd]).
    destruct (pushstream_spec heads s Hh) as (h1 & E1 & Hh1 & Hp1).
    { eapply NoDup_app_remove_r. exact Hnd'. }
    assert (Hitems1 : Permutation (items_of h1) (s ++ items_of heads)).
    { rewrite <- items_with_stream. now apply items_perm. }
    destruct (IH h1 Hh1) as (h' & E' & Hh' & Hp' & Hs').
    { eapply Permutation_NoDup; [|exact Hnd'].
      apply Permutation_app_tail, Permutation_sym, Hitems1. }
    exists h'. split; [|split; [exact Hh'|split]].
    + cbn [push_all]. rewrite E1. exact E'.
    + eapply Permutation_trans; [exact Hp'|].
      eapply Permutation_trans; [|apply Permutation_sym, Hperm].
      apply Permutation_app_tail, Hitems1.
    + intros Hall Hstreams. apply Forall_cons_iff in Hstreams as [Hs Hrest].
      apply Hs'; [|exact Hrest].
      eapply Permutation_Forall; [apply Permutation_sym, Hp1|].
      now apply sorted_with_stream.
Qed.

Lemma heap_ok_nil : heap_ok [].
Proof. intros i Hi. simpl in Hi. lia. Qed.

Lemma push_all_nonempty (streams : list (list Z)) :
  forall heads : list entry,
    push_all heads (filter nonempty streams) = push_all heads streams.
Proof.
  induction streams as [|s rest IH]; intros heads; [reflexivity|].
  destruct s as [|x s].
  - cbn [filter nonempty]. rewrite IH. reflexivity.
  - cbn [filter nonempty push_all]. destruct (pushstream heads (x :: s)) as [e|h1].
    + reflexivity.
    + apply IH.
Qed.

(** ** Util.py: the heads and their sort *)

Lemma first_heads_nonempty (streams : list (list Z)) :
  Forall (fun s => s <> []) streams ->
  exists heads,
    first_heads streams = Some heads
    /\ items_of heads = List.concat streams
    /\ map fst heads = map (hd 0) streams
    /\ (Forall (StronglySorted Z.lt) streams -> Forall sorted_entry heads).
Proof.
  induction streams as [|s rest IH]; intros Hne.
  - exists []. repeat split; constructor.
  - apply Forall_cons_iff in Hne as [Hs Hrest].
    destruct (IH Hrest) as (heads & E & Hitems & Hkeys & Hsorted).
    destruct s as [|x s]; [congruence|].
    exists ((x, s) :: heads). cbn [first_heads]. rewrite E.
    split; [reflexivity|]. split; [|split].
    + change (x :: (s ++ items_of heads)%list = x :: (s ++ List.concat rest)%list).
      now rewrite Hitems.
    + cbn [map fst hd]. now rewrite Hkeys.
    + intros Hall. apply Forall_cons_iff in Hall as [Hxs Hall].
      constructor; [exact Hxs | now apply Hsorted].
Qed.

Lemma first_heads_empty (streams : list (list Z)) :
  In [] streams -> first_heads streams = None.
Proof.
  induction streams as [|s rest IH]; intros Hin; [destruct Hin|].
  destruct s as [|x s]; [reflexivity|].
  destruct Hin as [Hin|Hin]; [discriminate|].
  cbn [first_heads]. now rewrite IH.
Qed.

Lemma insert_entry_spec (x : entry) (l : list entry) :
  StronglySorted key_lt l ->
  (~ In (fst x) (map fst l) ->
   exists l', insert_entry x l = ok l' /\ Permutation l' (x :: l)
              /\ StronglySorted key_lt l')
  /\ (In (fst x) (map fst l) -> insert_entry x l = raise TypeError).
Proof.
  induction l as [|y r IH]; intros Hs.
  - split; [|intros []]. intros _. exists [x].
    split; [reflexivity|]. split; [apply Permutation_refl|].
    repeat constructor.
  - apply StronglySorted_inv in Hs as [Hr Hy].
    destruct (IH Hr) as [IHok IHtie]. clear IH.
    cbn [insert_entry]. unfold entry_lt.
    destruct (Z.eqb_spec (fst x) (fst y)) as [E|Hne].
    { split; [|reflexivity]. intros Hn. exfalso. apply Hn. left. now symmetry. }
    unfold ok at 1, bind at 1. cbv beta iota.
    destruct (Z.ltb_spec (fst x) (fst y)) as [Hlt|Hge].
    + assert (Hall : Forall (key_lt x) (y :: r)).
      { constructor; [exact Hlt|]. rewrite Forall_forall in *.
        intros z Hz. specialize (Hy _ Hz). unfold key_lt in *. lia. }
      split.
      * intros _. exists (x :: y :: r). split; [reflexivity|].
        split; [apply Permutation_refl|].
        constructor; [constructor; assumption | exact Hall].
      * intros Hin. exfalso. apply in_map_iff in Hin as (z & Ez & Hz).
        rewrite Forall_forall in Hall. specialize (Hall _ Hz).
        unfold key_lt in Hall. lia.
    + split.
      * intros Hn.
        destruct IHok as (r' & E' & Hp' & Hs').
        { intros Hin. apply Hn. now right. }
        rewrite E'. exists (y :: r'). split; [reflexivity|].
        split.
        -- eapply Permutation_trans; [apply perm_skip, Hp' | apply perm_swap].
        -- constructor; [exact Hs'|].
           eapply Permutation_Forall; [apply Permutation_sym, Hp'|].
           constructor; [unfold key_lt; lia | exact Hy].
      * intros [Hin|Hin]; [congruence|].
        rewrite (IHtie Hin). reflexivity.
Qed.

Lemma py_sort_spec (l : list entry) :
  (NoDup (map fst l) ->
   exists l', py_sort l = ok l' /\ Permutation l' l /\ StronglySorted key_lt l')
  /\ (~ NoDup (map fst l) -> py_sort l = raise TypeError).
Proof.
  induction l as [|x r [IHok IHtie]].
  - split.
    + intros _. exists []. split; [reflexivity|]. split; constructor.
    + intros H. exfalso. apply H. constructor.
  - cbn [py_sort]. split.
    + intros Hnd. change (NoDup (fst x :: map fst r)) in Hnd.
      apply NoDup_cons_iff in Hnd as [Hx Hr].
      destruct (IHok Hr) as (r' & E & Hp & Hs). rewrite E.
      destruct (insert_entry_spec x r' Hs) as [Hins _].
      destruct Hins as (l' & E' & Hp' & Hs').
      { intros Hin. apply Hx. eapply Permutation_in; [|exact Hin].
        apply Permutation_map, Hp. }
      exists l'. split; [exact E'|]. split; [|exact Hs'].
      eapply Permutation_trans; [exact Hp' | apply perm_skip, Hp].
    + intros Hnd. change (~ NoDup (fst x :: map fst r)) in Hnd.
      destruct (ListDec.NoDup_dec Z.eq_dec (map fst r)) as [Hr|Hr].
      * destruct (IHok Hr) as (r' & E & Hp & Hs). rewrite E.
        destruct (insert_entry_spec x r' Hs) as [_ Htie].
        apply Htie.
        destruct (in_dec Z.eq_dec (fst x) (map fst r)) as [Hin|Hn].
        -- eapply Permutation_in; [|exact Hin].
           apply Permutation_map, Permutation_sym, Hp.
        -- exfalso. apply Hnd. now constructor.
      * rewrite (IHtie Hr). reflexivity.
Qed.

Lemma StronglySorted_nth (l : list entry) :
  StronglySorted key_lt l ->
  forall i j, (i < j < List.length l)%nat ->
    fst (nth i l no_entry) < fst (nth j l no_entry).
Proof.
  induction 1 as [|a l Hs IH Hall]; intros i j Hij; [simpl in Hij; lia|].
  cbn [List.length] in Hij.
  destruct j as [|j]; [lia|]. cbn [nth].
  destruct i as [|i].
  - rewrite Forall_forall in Hall. apply Hall. apply nth_In. lia.
  - apply IH. lia.
Qed.

Lemma sorted_heap_ok (l : list entry) : StronglySorted key_lt l -> heap_ok l.
Proof.
  intros Hs i Hi. apply StronglySorted_nth; [exact Hs|].
  pose proof (parent_lt i ltac:(lia)). lia.
Qed.

(** ** The two versions of [merge] *)

Lemma merge_pads_increasing (streams : list (list Z)) :
  NoDup (List.concat streams) ->
  Forall (StronglySorted Z.lt) streams ->
  exists out,
    PADS_Util_py.merge streams = (out, GenDone)
    /\ StronglySorted Z.lt out
    /\ Permutation out (List.concat streams).
Proof.
  intros Hnd Hall. unfold PADS_Util_py.merge.
  destruct (push_all_spec streams [] heap_ok_nil Hnd) as (h & E & Hh & Hp & Hs).
  rewrite E. cbn [items_of flat_map app] in Hp.
  destruct (merge_loop_spec (items_left h) h (le_n _) Hh) as (out & El & Hout & Hsorted).
  { eapply Permutation_NoDup; [apply Permutation_sym, Hp | exact Hnd]. }
  exists out. split; [exact El|]. split.
  - apply Hsorted, Hs; [constructor | exact Hall].
  - eapply Permutation_trans; [exact Hout | exact Hp].
Qed.

Lemma merge_heads_increasing (streams : list (list Z)) :
  Forall (fun s => s <> []) streams ->
  NoDup (List.concat streams) ->
  Forall (StronglySorted Z.lt) streams ->
  exists out,
    Util_py.merge streams = (out, GenDone)
    /\ StronglySorted Z.lt out
    /\ Permutation out (List.concat streams).
Proof.
  intros Hne Hnd Hall. unfold Util_py.merge.
  destruct (first_heads_nonempty streams Hne) as (heads & E & Hitems & _ & Hs).
  rewrite E. rewrite <- Hitems in Hnd |- *.
  destruct (py_sort_spec heads) as [Hsort _].
  destruct (Hsort (items_keys_NoDup _ Hnd)) as (h & Es & Hp & Hsorted).
  rewrite Es.
  destruct (merge_loop_spec (items_left h) h (le_n _) (sorted_heap_ok _ Hsorted))
    as (out & El & Hout & Hso).
  { eapply Permutation_NoDup; [apply items_perm, Permutation_sym, Hp | exact Hnd]. }
  exists out. split; [exact El|]. split.
  - apply Hso.
    eapply Permutation_Forall; [apply Permutation_sym, Hp | now apply Hs].
  - eapply Permutation_trans; [exact Hout | now apply items_perm].
Qed.

Lemma sorted_perm_eq (l1 : list Z) :
  forall l2, StronglySorted Z.lt l1 -> StronglySorted Z.lt l2 ->
             Permutation l1 l2 -> l1 = l2.
Proof.
  induction l1 as [|a l1 IH]; intros l2 H1 H2 Hp.
  - apply Permutation_nil in Hp. now subst.
  - destruct l2 as [|b l2].
    { apply Permutation_sym, Permutation_nil in Hp. discriminate. }
    apply StronglySorted_inv in H1 as [H1 Ha].
    apply StronglySorted_inv in H2 as [H2 Hb].
    rewrite Forall_forall in Ha, Hb.
    assert (E : a = b).
    { assert (Hina : In a (b :: l2))
        by (eapply Permutation_in; [exact Hp | now left]).
      assert (Hinb : In b (a :: l1))
        by (eapply Permutation_in; [apply Permutation_sym, Hp | now left]).
      destruct Hina as [->|Hina]; [reflexivity|].
      destruct Hinb as [->|Hinb]; [reflexivity|].
      specialize (Ha _ Hinb). specialize (Hb _ Hina). lia. }
    subst b. f_equal. apply IH; [exact H1 | exact H2|].
    eapply Permutation_cons_inv. exact Hp.
Qed.

Lemma NoDup_sample : NoDup (List.concat [[1; 4; 6]; [2; 3; 7]; [5]]).
Proof.
  cbn [List.concat app].
  repeat (constructor; [cbn [In]; intuition discriminate|]). constructor.
Defined.

Lemma sorted_sample : Forall (StronglySorted Z.lt) [[1; 4; 6]; [2; 3; 7]; [5]].
Proof. repeat constructor. Defined.

Lemma nonempty_sample : Forall (fun s : list Z => s <> []) [[1; 4; 6]; [2; 3; 7]; [5]].
Proof. repeat constructor; discriminate. Defined.

(** ** Further properties: [merge] *)

(** X14: PADS/Util.py's [merge], given streams whose items are all
    distinct, yields every item of every stream exactly once and then
    ends; when each stream is increasing, it yields them in increasing
    order. *)
Theorem merge_yields_sorted (streams : list (list Z)) :
  NoDup (List.concat streams) ->
  exists out,
    PADS_Util_py.merge streams = (out, GenDone)
    /\ Permutation out (List.concat streams)
    /\ (Forall (StronglySorted Z.lt) streams -> StronglySorted Z.lt out).
Proof.
  intros Hnd. unfold PADS_Util_py.merge.
  destruct (push_all_spec streams [] heap_ok_nil Hnd) as (h & E & Hh & Hp & Hs).
  rewrite E. cbn [items_of flat_map app] in Hp.
  assert (Hndh : NoDup (items_of h))
    by (eapply Permutation_NoDup; [apply Permutation_sym, Hp | exact Hnd]).
  destruct (merge_loop_spec (items_left h) h (le_n _) Hh Hndh)
    as (out & El & Hout & Hsorted).
  exists out. split; [exact El|]. split.
  - eapply Permutation_trans; [exact Hout | exact Hp].
  - intros Hall. apply Hsorted, Hs; [constructor | exact Hall].
Qed.

Lemma merge_yields_sorted_witness :
  NoDup (List.concat [[1; 4; 6]; [2; 3; 7]; [5]])
  /\ exists out,
       PADS_Util_py.merge [[1; 4; 6]; [2; 3; 7]; [5]] = (out, GenDone)
       /\ Permutation out (List.concat [[1; 4; 6]; [2; 3; 7]; [5]])
       /\ (Forall (StronglySorted Z.lt) [[1; 4; 6]; [2; 3; 7]; [5]] ->
           StronglySorted Z.lt out).
Proof.
  split; [exact NoDup_sample|].
  exact (merge_yields_sorted [[1; 4; 6]; [2; 3; 7]; [5]] NoDup_sample).
Defined.

(** X15: Util.py's [merge], given streams none of which is empty and
    whose items are all distinct, yields every item of every stream
    exactly once and then ends; when each stream is increasing, it yields
    them in increasing order. *)
Theorem merge_heads_yields_sorted (streams : list (list Z)) :
  Forall (fun s => s <> []) streams ->
  NoDup (List.concat streams) ->
  exists out,
    Util_py.merge streams = (out, GenDone)
    /\ Permutation out (List.concat streams)
    /\ (Forall (StronglySorted Z.lt) streams -> StronglySorted Z.lt out).
Proof.
  intros Hne Hnd. unfold Util_py.merge.
  destruct (first_heads_nonempty streams Hne) as (heads & E & Hitems & _ & Hs).
  rewrite E. rewrite <- Hitems in Hnd |- *.
  destruct (py_sort_spec heads) as [Hsort _].
  destruct (Hsort (items_keys_NoDup _ Hnd)) as (h & Es & Hp & Hsorted).
  rewrite Es.
  assert (Hndh : NoDup (items_of h))
    by (eapply Permutation_NoDup;
        [apply items_perm, Permutation_sym, Hp | exact Hnd]).
  destruct (merge_loop_spec (items_left h) h (le_n _)
              (sorted_heap_ok _ Hsorted) Hndh) as (out & El & Hout & Hso).
  exists out. split; [exact El|]. split.
  - eapply Permutation_trans; [exact Hout | now apply items_perm].
  - intros Hall. apply Hso.
    eapply Permutation_Forall; [apply Permutation_sym, Hp | now apply Hs].
Qed.

Lemma merge_heads_yields_sorted_witness :
  Forall (fun s : list Z => s <> []) [[1; 4; 6]; [2; 3; 7]; [5]]
  /\ NoDup (List.concat [[1; 4; 6]; [2; 3; 7]; [5]])
  /\ exists out,
       Util_py.merge [[1; 4; 6]; [2; 3; 7]; [5]] = (out, GenDone)
       /\ Permutation out (List.concat [[1; 4; 6]; [2; 3; 7]; [5]])
       /\ (Forall (StronglySorted Z.lt) [[1; 4; 6]; [2; 3; 7]; [5]] ->
           StronglySorted Z.lt out).
Proof.
  split; [exact nonempty_sample|]. split; [exact NoDup_sample|].
  exact (merge_heads_yields_sorted [[1; 4; 6]; [2; 3; 7]; [5]]
           nonempty_sample NoDup_sample).
Defined.

(** X16: Util.py's [merge] takes the first item of every stream before it
    yields anything, so one empty stream among them ends the generator at
    once with the [RuntimeError] of a [StopIteration] raised inside a
    generator, whatever the other streams hold. *)
Theorem merge_heads_empty_stream (streams : list (list Z)) :
  In [] streams ->
  Util_py.merge streams
  = ([], GenRuntimeError "generator raised StopIteration").
Proof.
  intros Hin. unfold Util_py.merge. now rewrite (first_heads_empty streams Hin).
Qed.

Lemma merge_heads_empty_stream_witness :
  In [] [[1; 2]; []; [3]]
  /\ Util_py.merge [[1; 2]; []; [3]]
     = ([], GenRuntimeError "generator raised StopIteration").
Proof.
  assert (H : In [] [[1; 2]; []; [3]]) by (right; left; reflexivity).
  split; [exact H | exact (merge_heads_empty_stream _ H)].
Defined.

(** X17: PADS/Util.py's [merge] passes over empty streams: merging the
    streams gives what merging the ones that are not empty gives. *)
Theorem merge_skips_empty_streams (streams : list (list Z)) :
  PADS_Util_py.merge (filter nonempty streams) = PADS_Util_py.merge streams.
Proof.
  unfold PADS_Util_py.merge. now rewrite push_all_nonempty.
Qed.

(** X18: Util.py's [merge], given streams none of which is empty, two of
    which begin with the same item, raises [TypeError] before it yields
    anything: sorting the heads compares the two iterators. *)
Theorem merge_heads_equal_first_items (streams : list (list Z)) :
  Forall (fun s => s <> []) streams ->
  ~ NoDup (map (hd 0) streams) ->
  Util_py.merge streams = ([], GenRaise TypeError).
Proof.
  intros Hne Hdup. unfold Util_py.merge.
  destruct (first_heads_nonempty streams Hne) as (heads & E & _ & Hkeys & _).
  rewrite E. rewrite <- Hkeys in Hdup.
  destruct (py_sort_spec heads) as [_ Htie].
  now rewrite (Htie Hdup).
Qed.

Lemma merge_heads_equal_first_items_witness :
  Forall (fun s : list Z => s <> []) [[1; 5]; [2]; [1; 3]]
  /\ ~ NoDup (map (hd 0) [[1; 5]; [2]; [1; 3]])
  /\ Util_py.merge [[1; 5]; [2]; [1; 3]] = ([], GenRaise TypeError).
Proof.
  assert (H1 : Forall (fun s : list Z => s <> []) [[1; 5]; [2]; [1; 3]])
    by (repeat constructor; discriminate).
  assert (H2 : ~ NoDup (map (hd 0) [[1; 5]; [2]; [1; 3]])).
  { cbn [map hd]. intros H. apply NoDup_cons_iff in H as [H _].
    apply H. right. left. reflexivity. }
  split; [exact H1|]. split; [exact H2|].
  exact (merge_heads_equal_first_items _ H1 H2).
Defined.

(** X19: PADS/Util.py's [merge], when its first two streams begin with
    the same item, raises [TypeError] before it yields anything: pushing
    the second head compares the two iterators. *)
Theorem merge_equal_first_items (x : Z) (s1 s2 : list Z)
    (rest : list (list Z)) :
  PADS_Util_py.merge ((x :: s1) :: (x :: s2) :: rest)
  = ([], GenRaise TypeError).
Proof.
  unfold PADS_Util_py.merge.
  cbn [push_all pushstream heappush app List.length _siftdown siftdown_loop
       Nat.ltb Nat.leb nth list_set].
  unfold bind at 1, ok at 1. cbv beta iota.
  cbn [push_all pushstream heappush app List.length _siftdown siftdown_loop
       Nat.ltb Nat.leb nth list_set Nat.sub Nat.div Nat.divmod fst].
  unfold entry_lt. cbn [fst]. rewrite Z.eqb_refl. reflexivity.
Qed.

(** X20: on streams none of which is empty, each increasing, with all
    items distinct, the [merge] of Util.py and the [merge] of
    PADS/Util.py yield the same items in the same order, and both end. *)
Theorem merge_versions_agree (streams : list (list Z)) :
  Forall (fun s => s <> []) streams ->
  Forall (StronglySorted Z.lt) streams ->
  NoDup (List.concat streams) ->
  Util_py.merge streams = PADS_Util_py.merge streams
  /\ snd (PADS_Util_py.merge streams) = GenDone.
Proof.
  intros Hne Hs Hnd.
  destruct (merge_heads_increasing streams Hne Hnd Hs) as (o1 & E1 & S1 & P1).
  destruct (merge_pads_increasing streams Hnd Hs) as (o2 & E2 & S2 & P2).
  rewrite E1, E2. split; [|reflexivity]. f_equal.
  apply sorted_perm_eq; [exact S1 | exact S2|].
  eapply Permutation_trans; [exact P1 | apply Permutation_sym, P2].
Qed.

Lemma merge_versions_agree_witness :
  Forall (fun s : list Z => s <> []) [[1; 4; 6]; [2; 3; 7]; [5]]
  /\ Forall (StronglySorted Z.lt) [[1; 4; 6]; [2; 3; 7]; [5]]
  /\ NoDup (List.concat [[1; 4; 6]; [2; 3; 7]; [5]])
  /\ Util_py.merge [[1; 4; 6]; [2; 3; 7]; [5]]
     = PADS_Util_py.merge [[1; 4; 6]; [2; 3; 7]; [5]]
  /\ snd (PADS_Util_py.merge [[1; 4; 6]; [2; 3; 7]; [5]]) = GenDone.
Proof.
  split; [exact nonempty_sample|]. split; [exact sorted_sample|].
  split; [exact NoDup_sample|].
  exact (merge_versions_agree _ nonempty_sample sorted_sample NoDup_sample).
Defined.

(** ** [merge] on arbitrary streams *)

Lemma bind_value_or_TypeError {A B : Type} (r : result A) (k : A -> result B)
    (P : A -> Prop) (Q : B -> Prop) :
  value_or_TypeError r P ->
  (forall a, P a -> value_or_TypeError (k a) Q) ->
  value_or_TypeError (bind r k) Q.
Proof.
  intros [->|(a & -> & Ha)] Hk.
  - left. reflexivity.
  - exact (Hk a Ha).
Qed.

Lemma entry_lt_cases (a b : entry) :
  value_or_TypeError (entry_lt a b) (fun _ => True).
Proof.
  unfold entry_lt. destruct (fst a =? fst b).
  - left. reflexivity.
  - right. eexists. split; [reflexivity | exact I].
Qed.

Lemma siftdown_loop_perm (fuel : nat) :
  forall (h : list entry) (pos : nat) (x : entry),
    (pos < List.length h)%nat ->
    value_or_TypeError (siftdown_loop fuel h 0 pos x)
      (fun h' => Permutation h' (list_set h pos x)).
Proof.
  induction fuel as [|fuel IH]; intros h pos x Hp.
  - right. eexists. split; [reflexivity | apply Permutation_refl].
  - cbn [siftdown_loop].
    destruct (Nat.ltb_spec 0 pos) as [H0|H0].
    2:{ right. eexists. split; [reflexivity | apply Permutation_refl]. }
    eapply bind_value_or_TypeError; [apply entry_lt_cases|].
    intros [|] _.
    2:{ right. eexists. split; [reflexivity | apply Permutation_refl]. }
    pose proof (parent_lt pos H0) as Hlt.
    destruct (IH (list_set h pos (nth ((pos - 1) / 2) h no_entry))
                ((pos - 1) / 2)%nat x) as [E|(h' & E & Hperm)].
    + rewrite length_list_set. lia.
    + left. exact E.
    + right. exists h'. split; [exact E|].
      eapply Permutation_trans; [exact Hperm|].
      apply hole_move; lia.
Qed.

Lemma siftup_loop_perm (fuel : nat) :
  forall (h : list entry) (pos : nat) (x : entry),
    (pos < List.length h)%nat ->
    value_or_TypeError (siftup_loop fuel h (List.length h) pos)
      (fun r => (snd r < List.length h)%nat
                /\ List.length (fst r) = List.length h
                /\ Permutation (list_set (fst r) (snd r) x) (list_set h pos x)).
Proof.
  induction fuel as [|fuel IH]; intros h pos x Hp.
  - right. eexists. split; [reflexivity|]. cbn [fst snd].
    split; [exact Hp|]. split; [reflexivity | apply Permutation_refl].
  - cbn [siftup_loop].
    destruct (Nat.ltb_spec (2 * pos + 1) (List.length h)) as [Hc|Hc].
    2:{ right. eexists. split; [reflexivity|]. cbn [fst snd].
        split; [exact Hp|]. split; [reflexivity | apply Permutation_refl]. }
    eapply bind_value_or_TypeError
      with (P := fun c => (pos < c < List.length h)%nat).
    + destruct (Nat.ltb_spec (2 * pos + 1 + 1) (List.length h)) as [Hr|Hr].
      * eapply bind_value_or_TypeError; [apply entry_lt_cases|].
        intros [|] _; right; eexists; (split; [reflexivity | lia]).
      * right. eexists. split; [reflexivity | lia].
    + intros c Hcl.
      destruct (IH (list_set h pos (nth c h no_entry)) c x)
        as [E|([h' leaf] & E & Hl & Hlen & Hperm)].
      * rewrite length_list_set. lia.
      * left. rewrite length_list_set in E. exact E.
      * rewrite length_list_set in *. cbn [fst snd] in *.
        right. exists (h', leaf). split; [exact E|]. cbn [fst snd].
        split; [exact Hl|]. split; [exact Hlen|].
        eapply Permutation_trans; [exact Hperm|].
        apply hole_move; lia.
Qed.

Lemma siftup_root_perm (h : list entry) :
  h <> [] ->
  value_or_TypeError (_siftup h 0) (fun h' => Permutation h' h).
Proof.
  intros Hne. unfold _siftup.
  assert (Hlen : (0 < List.length h)%nat) by (destruct h; simpl; [congruence | lia]).
  pose proof (list_set_same h 0 no_entry) as Hself.
  eapply bind_value_or_TypeError;
    [apply (siftup_loop_perm (List.length h) h 0 (nth 0 h no_entry) Hlen)|].
  intros [h1 leaf] (Hl & Hlen1 & Hperm). cbn [fst snd] in *.
  rewrite Hself in Hperm. unfold _siftdown.
  rewrite nth_list_set_eq by lia.
  destruct (siftdown_loop_perm leaf (list_set h1 leaf (nth 0 h no_entry)) leaf
              (nth 0 h no_entry)) as [E|(h' & E & Hp')].
  - rewrite length_list_set. lia.
  - left. exact E.
  - right. exists h'. split; [exact E|].
    rewrite list_set_twice in Hp'.
    eapply Permutation_trans; [exact Hp' | exact Hperm].
Qed.

Lemma heappush_perm (h : list entry) (item : entry) :
  value_or_TypeError (heappush h item) (fun h' => Permutation h' (item :: h)).
Proof.
  unfold heappush, _siftdown.
  assert (Hnth : nth (List.length h) (h ++ [item]) no_entry = item)
    by (rewrite app_nth2, Nat.sub_diag by lia; reflexivity).
  rewrite Hnth.
  destruct (siftdown_loop_perm (List.length h) (h ++ [item]) (List.length h) item)
    as [E|(h' & E & Hp)].
  - rewrite length_app. simpl. lia.
  - left. exact E.
  - right. exists h'. split; [exact E|].
    pose proof (list_set_same (h ++ [item]) (List.length h) no_entry) as Hself.
    rewrite Hnth in Hself. rewrite Hself in Hp.
    eapply Permutation_trans; [exact Hp|].
    apply Permutation_sym, Permutation_cons_append.
Qed.

Lemma heappop_perm (h : list entry) :
  h <> [] ->
  value_or_TypeError (heappop h) (fun r => Permutation h (fst r :: snd r)).
Proof.
  intros Hne. destruct h as [|a t]; [congruence|].
  unfold heappop. destruct t as [|b t'].
  - right. exists (a, []). split; [reflexivity | apply Permutation_refl].
  - set (t := b :: t') in *.
    assert (Ht : t <> []) by discriminate.
    assert (Hrl : removelast (a :: t) = a :: removelast t) by reflexivity.
    rewrite Hrl. clear Hrl. clearbody t.
    pose proof (last_removelast_perm a t no_entry Ht) as Hpl.
    eapply bind_value_or_TypeError;
      [apply (siftup_root_perm (last (a :: t) no_entry :: removelast t));
       discriminate|].
    intros h' Hp. right. exists (a, h'). split; [reflexivity|]. cbn [fst snd].
    apply perm_skip.
    eapply Permutation_trans; [apply Permutation_sym, Hpl | apply Permutation_sym, Hp].
Qed.

Lemma pushstream_perm (h : list entry) (s : list Z) :
  value_or_TypeError (pushstream h s)
    (fun h' => Permutation h' (with_stream h s)).
Proof.
  destruct s as [|x rest].
  - right. exists h. split; [reflexivity | apply Permutation_refl].
  - apply heappush_perm.
Qed.

(** With enough steps for the items, the loop ends: with every item
    yielded once, or with [TypeError]. *)
Lemma merge_loop_ends (fuel : nat) :
  forall heads : list entry,
    (items_left heads <= fuel)%nat ->
    (snd (merge_loop fuel heads) = GenDone
     /\ Permutation (fst (merge_loop fuel heads)) (items_of heads))
    \/ snd (merge_loop fuel heads) = GenRaise TypeError.
Proof.
  induction fuel as [|fuel IH]; intros heads Hf.
  - destruct heads as [|e h].
    + left. split; [reflexivity | constructor].
    + pose proof (items_left_nonempty e h). lia.
  - destruct heads as [|e0 h0].
    { left. split; [reflexivity | constructor]. }
    set (heads := e0 :: h0) in *.
    assert (Hstep : merge_loop (S fuel) heads
                    = match heappop heads with
                      | inl e => ([], GenRaise e)
                      | inr ((x, s), heads) =>
                          match pushstream heads s with
                          | inl e => ([x], GenRaise e)
                          | inr heads =>
                              let '(ys, fin) := merge_loop fuel heads in
                              (x :: ys, fin)
                          end
                      end) by reflexivity.
    rewrite Hstep. clear Hstep.
    destruct (heappop_perm heads ltac:(discriminate)) as [E|([[x s] h1] & E & Hperm)].
    { rewrite E. right. reflexivity. }
    rewrite E. unfold ok. cbn [fst snd] in Hperm.
    assert (Hitems : Permutation (items_of heads) (x :: (s ++ items_of h1)%list))
      by exact (items_perm _ _ Hperm).
    destruct (pushstream_perm h1 s) as [E2|(h2 & E2 & Hp2)].
    { rewrite E2. right. reflexivity. }
    rewrite E2. unfold ok.
    assert (Hitems2 : Permutation (items_of h2) (s ++ items_of h1)%list).
    { rewrite <- items_with_stream. now apply items_perm. }
    specialize (IH h2).
    destruct (merge_loop fuel h2) as [ys fin]. cbn [fst snd] in *.
    destruct IH as [[-> Hout]| ->].
    + unfold items_left in *. fold (items_of h2). fold (items_of heads) in Hf.
      rewrite (Permutation_length Hitems2).
      rewrite (Permutation_length Hitems) in Hf. cbn [List.length] in Hf. lia.
    + left. split; [reflexivity|].
      eapply Permutation_trans; [|apply Permutation_sym, Hitems].
      apply perm_skip. eapply Permutation_trans; [exact Hout | exact Hitems2].
    + right. reflexivity.
Qed.

Lemma push_all_perm (streams : list (list Z)) :
  forall heads : list entry,
    value_or_TypeError (push_all heads streams)
      (fun h' => Permutation (items_of h') (items_of heads ++ List.concat streams)).
Proof.
  induction streams as [|s rest IH]; intros heads.
  - right. exists heads. split; [reflexivity|].
    cbn [List.concat]. rewrite app_nil_r. apply Permutation_refl.
  - cbn [push_all List.concat].
    eapply bind_value_or_TypeError; [apply pushstream_perm|].
    intros h1 Hp1.
    assert (Hitems1 : Permutation (items_of h1) (s ++ items_of heads)).
    { rewrite <- items_with_stream. now apply items_perm. }
    destruct (IH h1) as [E|(h' & E & Hp')]; [left; exact E|].
    right. exists h'. split; [exact E|].
    eapply Permutation_trans; [exact Hp'|].
    rewrite app_assoc. apply Permutation_app_tail.
    eapply Permutation_trans; [exact Hitems1 | apply Permutation_app_comm].
Qed.

Lemma insert_entry_perm (x : entry) (l : list entry) :
  value_or_TypeError (insert_entry x l) (fun l' => Permutation l' (x :: l)).
Proof.
  induction l as [|y r IH].
  - right. exists [x]. split; [reflexivity | apply Permutation_refl].
  - cbn [insert_entry].
    eapply bind_value_or_TypeError; [apply entry_lt_cases|].
    intros [|] _.
    + right. eexists. split; [reflexivity | apply Permutation_refl].
    + eapply bind_value_or_TypeError; [exact IH|].
      intros r' Hp. right. eexists. split; [reflexivity|].
      eapply Permutation_trans; [apply perm_skip, Hp | apply perm_swap].
Qed.

Lemma py_sort_perm (l : list entry) :
  value_or_TypeError (py_sort l) (fun l' => Permutation l' l).
Proof.
  induction l as [|x r IH].
  - right. exists []. split; [reflexivity | constructor].
  - cbn [py_sort].
    eapply bind_value_or_TypeError; [exact IH|].
    intros r' Hp.
    destruct (insert_entry_perm x r') as [E|(l' & E & Hp')]; [left; exact E|].
    right. exists l'. split; [exact E|].
    eapply Permutation_trans; [exact Hp' | apply perm_skip, Hp].
Qed.

(** X21: PADS/Util.py's [merge] on any streams ends in one of two ways:
    exhausted, having yielded every item of every stream exactly once, or
    with the [TypeError] of a comparison of two equal items' iterators. *)
Theorem merge_ends (streams : list (list Z)) :
  (snd (PADS_Util_py.merge streams) = GenDone
   /\ Permutation (fst (PADS_Util_py.merge streams)) (List.concat streams))
  \/ snd (PADS_Util_py.merge streams) = GenRaise TypeError.
Proof.
  unfold PADS_Util_py.merge.
  destruct (push_all_perm streams []) as [E|(h & E & Hp)].
  - rewrite E. right. reflexivity.
  - rewrite E. unfold ok.
    destruct (merge_loop_ends (items_left h) h (le_n _)) as [[Hfin Hout]|Hfin].
    + left. split; [exact Hfin|].
      eapply Permutation_trans; [exact Hout | exact Hp].
    + right. exact Hfin.
Qed.

(** X22: Util.py's [merge] on any streams ends in one of three ways:
    exhausted, having yielded every item of every stream exactly once;
    with [TypeError]; or, when one of the streams is empty, with the
    [RuntimeError] before anything is yielded. *)
Theorem merge_heads_ends (streams : list (list Z)) :
  (snd (Util_py.merge streams) = GenDone
   /\ Permutation (fst (Util_py.merge streams)) (List.concat streams))
  \/ snd (Util_py.merge streams) = GenRaise TypeError
  \/ (In [] streams
      /\ Util_py.merge streams
         = ([], GenRuntimeError "generator raised StopIteration")).
Proof.
  destruct (in_dec (list_eq_dec Z.eq_dec) [] streams) as [Hin|Hn].
  { right. right. split; [exact Hin|].
    unfold Util_py.merge. now rewrite (first_heads_empty streams Hin). }
  assert (Hne : Forall (fun s => s <> []) streams).
  { apply Forall_forall. intros s Hs ->. exact (Hn Hs). }
  destruct (first_heads_nonempty streams Hne) as (heads & E & Hitems & _).
  unfold Util_py.merge. rewrite E.
  destruct (py_sort_perm heads) as [Es|(h & Es & Hp)].
  - rewrite Es. right. left. reflexivity.
  - rewrite Es. unfold ok.
    destruct (merge_loop_ends (items_left h) h (le_n _)) as [[Hfin Hout]|Hfin].
    + left. split; [exact Hfin|].
      eapply Permutation_trans; [exact Hout|].
      rewrite <- Hitems. now apply items_perm.
    + right. left. exact Hfin.
Qed.


(** ** Further properties: a whole document *)

Lemma init_nesting (h : heap) (bbox : complex) (out : string)
    (standalone : bool) (prefix0 : option string) (indentation0 : Z) :
  nesting (self (__init__ h bbox out standalone prefix0 indentation0)) = 1.
Proof. unfold __init__. cbv zeta. rewrite element_nesting. reflexivity. Qed.

(** X23: a document is balanced exactly when its calls are: after
    [__init__], whatever its arguments, and a sequence of calls that
    returns, [close] returns when what the calls add to the nesting sums
    to 0, and raises "SVG: Unclosed tags" otherwise. *)
Theorem document_closes (h : heap) (bbox : complex) (out : string)
    (standalone : bool) (prefix0 : option string) (indentation0 : Z)
    (cs : list call) (st' : State) :
  run_all (__init__ h bbox out standalone prefix0 indentation0) cs
  = (st', ok tt) ->
  snd (close st')
  = if total_depth cs =? 0 then ok tt
    else raise (Exception "SVG: Unclosed tags").
Proof.
  intros H. rewrite close_result, (run_all_nesting _ _ _ H), init_nesting.
  destruct (Z.eqb_spec (1 + total_depth cs) 1), (Z.eqb_spec (total_depth cs) 0);
    try reflexivity; lia.
Qed.

(** ** The power that overflows, for any C library *)

Lemma fpow2_range_error (x : float) :
  is_real x = true -> is_zero x = false ->
  SFeqb (fabs x) (float_of_Z 1) = false ->
  is_inf (fst (libm_pow2 (fabs x))) = true ->
  fpow2 x = raise (OverflowError "(34, 'Numerical result out of range')").
Proof.
  intros Hr Hz H1 Hinf. destruct x as [s|s| |s m e]; try discriminate.
  unfold fpow2. cbv zeta. rewrite H1.
  destruct (libm_pow2 _) as [ix er]. cbn [fst] in Hinf.
  destruct ix; try discriminate Hinf. destruct er; reflexivity.
Qed.

Lemma polycurve_first_raises (st : State) (q0 p0 p1 q1 : complex)
    (rest : list complex) style more (e : exn) :
  fpow2 (dot (c_sub p1 q0) (c_sub q1 p0)) = raise e ->
  polycurve st (q0 :: p0 :: p1 :: q1 :: rest) style more = (st, raise e).
Proof.
  intros H. unfold polycurve.
  assert (Hdata : polycurve_data (q0 :: p0 :: p1 :: q1 :: rest) = raise e).
  { unfold polycurve_data.
    set (points := q0 :: p0 :: p1 :: q1 :: rest).
    assert (Hlen : (4 <= List.length points)%nat) by (simpl; lia).
    change 1 with (Z.of_nat 1) at 1.
    rewrite (getitem_nth points 1 nan_point) by lia.
    unfold ok, bind at 1. cbv beta iota.
    rewrite py_range_seq.
    replace (List.length points - 3)%nat with (S (List.length rest))
      by (simpl; lia).
    cbn [seq map polycurve_loop].
    change (Z.of_nat 1 - 1) with (Z.of_nat 0).
    change (Z.of_nat 1 + 1) with (Z.of_nat 2).
    change (Z.of_nat 1 + 2) with (Z.of_nat 3).
    rewrite !(getitem_nth points _ nan_point) by lia.
    unfold ok, bind at 1 2 3 4. cbv beta iota.
    cbn [points nth].
    unfold straincontrol. cbv zeta. rewrite H. reflexivity. }
  now rewrite Hdata.
Qed.

(** Whatever the C library, if its [pow] overflows on the product of the
    directions of [far_points], as it must for a product of about [4e200],
    [polycurve] raises [OverflowError] and writes nothing. *)
Lemma polycurve_overflow_any_library :
  is_inf (fst (libm_pow2
                 (fabs (dot (c_sub (Complex (big 2) (S754_zero false))
                                   (Complex (S754_zero false) (S754_zero false)))
                            (c_sub (Complex (big 3) (big 1))
                                   (Complex (big 1) (big 1))))))) = true ->
  polycurve doc0 far_points None []
  = (doc0, raise (OverflowError "(34, 'Numerical result out of range')")).
Proof.
  intros H. unfold far_points.
  apply polycurve_first_raises, fpow2_range_error;
    [vm_compute; reflexivity | vm_compute; reflexivity
     | vm_compute; reflexivity | exact H].
Qed.

End Libm.

(** ** Examples, run with the correctly rounding library *)

Lemma style_never_mutated_witness :
  nth_error
    (heap_of (fst (run_all rounded_pow2 doc1
                     [Circle (cx 50 50) (float_of_Z 10) None [("fill", "red")];
                      Group (Some 10%nat) [("stroke", "blue")];
                      Circle (cx 5 5) (float_of_Z 1) None [];
                      Ungroup])))
    default_style_circle = Some []
  /\ nth_error
       (heap_of (fst (run_all rounded_pow2 doc1
                        [Circle (cx 50 50) (float_of_Z 10) None [("fill", "red")];
                         Group (Some 10%nat) [("stroke", "blue")];
                         Circle (cx 5 5) (float_of_Z 1) None [];
                         Ungroup])))
       10%nat = Some [("fill", "red"); ("stroke", "black")].
Proof.
  split; apply (proj2 (style_never_mutated rounded_pow2)); reflexivity.
Defined.

(** C4 does not hold as stated: for four points about [1e100] apart the
    determinant [e] is not zero, yet the power [dot(v0,v1)**2] raises
    [OverflowError] and [polycurve] writes nothing. *)
Lemma polycurve_overflow :
  List.length far_points = 4%nat
  /\ (exists q0 p0 p1 q1,
        interior far_points 1 q0 p0 p1 q1
        /\ is_zero (strain_e rounded_pow2 q0 p0 p1 q1) = false
        /\ (let v0 := c_sub p1 q0 in
            let v1 := c_sub q1 p0 in
            is_zero (fsub (fmul (fmul (float_of_Z 4) (dot v0 v0)) (dot v1 v1))
                          (fmul (dot v0 v1) (dot v0 v1))) = false)
        /\ straincontrol rounded_pow2 q0 p0 p1 q1
           = raise (OverflowError "(34, 'Numerical result out of range')"))
  /\ polycurve rounded_pow2 doc0 far_points None []
     = (doc0, raise (OverflowError "(34, 'Numerical result out of range')")).
Proof.
  split; [reflexivity|]. split.
  - exists (nth 0 far_points nan_point), (nth 1 far_points nan_point),
      (nth 2 far_points nan_point), (nth 3 far_points nan_point).
    split; [|split; [|split]].
    + unfold interior; simpl; repeat split; lia.
    + vm_compute; reflexivity.
    + vm_compute; reflexivity.
    + vm_compute; reflexivity.
  - vm_compute; reflexivity.
Qed.

Lemma polycurve_segments_witness :
  exists data,
    polycurve_data rounded_pow2 zigzag = ok data
    /\ snd (polycurve rounded_pow2 doc0 zigzag None [("stroke", "black")])
       = ok tt.
Proof.
  assert (H4 : (4 <= List.length zigzag)%nat) by (simpl; lia).
  assert (Hdef : forall i q0 p0 p1 q1,
             interior zigzag i q0 p0 p1 q1 ->
             is_zero (strain_e rounded_pow2 q0 p0 p1 q1) = false
             /\ power2_raises rounded_pow2
                  (dot (c_sub p1 q0) (c_sub q1 p0)) = false).
  { intros i q0 p0 p1 q1 Hi.
    destruct (interior_nth _ _ _ _ _ _ Hi) as (H1 & H2 & <- & <- & <- & <-).
    simpl in H2.
    assert (Hc : i = 1%nat \/ i = 2%nat) by lia.
    destruct Hc as [-> | ->]; vm_compute; split; reflexivity. }
  destruct (polycurve_segments rounded_pow2 doc0 zigzag None
              [("stroke", "black")] H4 Hdef) as (data & Hdata & _ & Hw & _).
  exists data. split; [exact Hdata | exact (proj1 (Hw eq_refl))].
Defined.

Lemma completed_run_nesting_witness :
  snd (close (fst (run_all rounded_pow2 doc0
         [Group None [("fill", "red")];
          Circle (cx 50 50) (float_of_Z 10) None [];
          Text "a" (cx 1 2) None [];
          Ungroup]))) = ok tt.
Proof.
  apply (proj2 (completed_run_nesting rounded_pow2 doc0 _
                  [Group None [("fill", "red")];
                   Circle (cx 50 50) (float_of_Z 10) None [];
                   Text "a" (cx 1 2) None [];
                   Ungroup] eq_refl)).
  reflexivity.
Defined.


Lemma polycurve_coincident_witness :
  polycurve rounded_pow2 doc0 [cx 0 0; cx 1 1; cx 0 0; cx 3 1; cx 4 0] None []
  = (doc0, raise (ZeroDivisionError "float division by zero")).
Proof.
  apply (polycurve_coincident rounded_pow2 doc0 (cx 0 0) (cx 1 1) (cx 3 1)
           [cx 4 0] None []);
    reflexivity.
Defined.

Lemma document_closes_witness :
  snd (close (fst (run_all rounded_pow2
         (__init__ initial_heap (cx 100 100) "" false (Some "s") 2)
         [Group None []; Segment (cx 0 0) (cx 1 1) None []])))
  = raise (Exception "SVG: Unclosed tags").
Proof.
  exact (document_closes rounded_pow2 initial_heap (cx 100 100) "" false
           (Some "s") 2
           [Group None []; Segment (cx 0 0) (cx 1 1) None []] _ eq_refl).
Defined.
